(** * A lexer and line interpreter for a small scripting language

    Verification model of [src/index.ts]: the [Tokenizer] class, the
    grammar table [treeObj], and the [interpreter] function with its
    helpers [verifyTree], [find] and [hasVariable].

    Conventions of the embedding.
    - A JavaScript string is a [string]; one [ascii] stands for one code
      unit, so the inputs covered are those whose code units are below 256.
    - [undefined] is [None]; a property read that can yield [undefined]
      has an [option] type.
    - A [throw] is the [Throw] outcome of [Result].
    - [console.log] appends one [Output] to the output trace. *)

From Stdlib Require Import Ascii String.
From stdpp Require Import base decidable option list gmap strings pretty.

Local Open Scope stdpp_scope.

(** ** Tokens *)

(** [TokenType]: the closed set of kinds.  In the source each kind is a
    string constant; only their distinctness matters here.  [Variable_]
    is the kind [TokenType.Variable], whose name is reserved here. *)
Module TokenType.
Inductive TokenItem :=
| Illegal | Eof | Ident | Print | ParentesesE | ParentesesD | EoL
| SingleQuote | DoubleQuote | Variable_ | AssignOrEqual | Int.

#[global] Instance eq_dec : EqDecision TokenItem.
Proof. solve_decision. Defined.
End TokenType.

Abbreviation TokenItem := TokenType.TokenItem.

(** A token is what [createToken] builds.  The lexer can also hand out a
    member of [Object.prototype] in place of a token (see [Keywords]);
    [inherited name] is that member.  Its [type] and [literal] read as
    [undefined]. *)
Inductive Token :=
| createToken (type : TokenItem) (literal : string)
| inherited (name : string).

#[global] Instance Token_eq_dec : EqDecision Token.
Proof. solve_decision. Defined.

Definition type (t : Token) : option TokenItem :=
  match t with
  | createToken ty _ => Some ty
  | inherited _ => None
  end.

Definition literal (t : Token) : option string :=
  match t with
  | createToken _ l => Some l
  | inherited _ => None
  end.

(** [t.type === k] *)
Definition has_type (t : Token) (k : TokenItem) : bool :=
  bool_decide (type t = Some k).

(** ** Character classes *)

Definition charCodeAt0 (c : ascii) : nat := nat_of_ascii c.

Definition isLetter (character : ascii) : bool :=
  let char := charCodeAt0 character in
  (97 <=? char) && (char <=? 122) || (65 <=? char) && (char <=? 90)
  || (char =? 95).

Definition isNumber (character : ascii) : bool :=
  let char := charCodeAt0 character in
  (48 <=? char) && (char <=? 57).

(** The loop condition of [skipWhitespace]: space, tab, newline, carriage
    return. *)
Definition isWhitespace (c : ascii) : bool :=
  Ascii.eqb c " "%char || Ascii.eqb c "009"%char || Ascii.eqb c "010"%char
  || Ascii.eqb c "013"%char.

(** ** Keywords *)

(** The names every object literal inherits from [Object.prototype] that
    consist of letters and underscores only. *)
Definition objectPrototype : list string :=
  [ "constructor"; "hasOwnProperty"; "isPrototypeOf";
    "propertyIsEnumerable"; "toLocaleString"; "toString"; "valueOf";
    "__proto__"; "__defineGetter__"; "__defineSetter__";
    "__lookupGetter__"; "__lookupSetter__" ].

(** [Keywords[ident]]: a plain property read on an object literal, so the
    inherited members are found as well, and all of them are truthy. *)
Definition Keywords (ident : string) : option Token :=
  if String.eqb ident "print" then Some (createToken TokenType.Print "print")
  else if String.eqb ident "var" then Some (createToken TokenType.Variable_ "var")
  else if bool_decide (ident ∈ objectPrototype) then Some (inherited ident)
  else None.

(** ** Outcomes *)

(** The two exceptions the program can raise: the lexer's [Error] with its
    message, and the engine's [TypeError] for a property read on
    [undefined], tagged with the property that was read. *)
Inductive Exception :=
| Error (message : string)
| TypeError (property : string).

Inductive Result (A : Type) :=
| Ok (a : A)
| Throw (e : Exception).
Arguments Ok {A} a.
Arguments Throw {A} e.

(** Template-literal interpolation of a string-or-undefined value. *)
Definition template (v : option string) : string :=
  match v with
  | Some s => s
  | None => "undefined"
  end.

(** ** The Tokenizer class *)

Record Tokenizer := mkTokenizer {
  input : string;
  lastToken : Token;
  position : nat;
  readPosition : nat;
  ch : ascii;
  loc : nat;
  tokens : list Token;
  lines : list (list Token)
}.

Definition set_cursor (p rp : nat) (c : ascii) (t : Tokenizer) : Tokenizer :=
  mkTokenizer (input t) (lastToken t) p rp c (loc t) (tokens t) (lines t).

Definition set_lastToken (tok : Token) (t : Tokenizer) : Tokenizer :=
  mkTokenizer (input t) tok (position t) (readPosition t) (ch t) (loc t)
    (tokens t) (lines t).

(** [this.lines.push(line); this.loc++] *)
Definition seal_line (line : list Token) (t : Tokenizer) : Tokenizer :=
  mkTokenizer (input t) (lastToken t) (position t) (readPosition t) (ch t)
    (S (loc t)) (tokens t) (lines t ++ [line]).

(** [this.tokens.push(tok)] *)
Definition push_token (tok : Token) (t : Tokenizer) : Tokenizer :=
  mkTokenizer (input t) (lastToken t) (position t) (readPosition t) (ch t)
    (loc t) (tokens t ++ [tok]) (lines t).

Definition NUL : ascii := "000"%char.

Definition readChar (t : Tokenizer) : Tokenizer :=
  let c :=
    if String.length (input t) <=? readPosition t then NUL
    else default NUL (String.get (readPosition t) (input t)) in
  set_cursor (readPosition t) (readPosition t + 1) c t.

Definition peek (t : Tokenizer) : ascii :=
  if String.length (input t) <=? readPosition t then NUL
  else default NUL (String.get (readPosition t) (input t)).

(** The three [while] loops of the class test [ch] and call [readChar]
    once per round.  [readChar] sets [ch] to NUL once the cursor is past
    the end, and NUL fails the three tests, so the [S (length input)]
    rounds the loops are given always reach the exit test (lemma
    [while_ch_exit]). *)
Fixpoint while_ch (cond : ascii → bool) (fuel : nat) (t : Tokenizer)
  : Tokenizer :=
  match fuel with
  | 0 => t
  | S fuel => if cond (ch t) then while_ch cond fuel (readChar t) else t
  end.

Definition skipWhitespace (t : Tokenizer) : Tokenizer :=
  while_ch isWhitespace (S (String.length (input t))) t.

(** [this.input.slice(from, to)] for [0 <= from]. *)
Definition slice (from to : nat) (s : string) : string :=
  String.substring from (to - from) s.

Definition readIdent (t : Tokenizer) : string * Tokenizer :=
  let position0 := position t in
  let t := while_ch isLetter (S (String.length (input t))) t in
  (slice position0 (position t) (input t), t).

Definition readInt (t : Tokenizer) : string * Tokenizer :=
  let position0 := position t in
  let t := while_ch isNumber (S (String.length (input t))) t in
  (slice position0 (position t) (input t), t).

(** The [switch] at the head of [getNextToken]. *)
Definition switch_ch (c : ascii) : option Token :=
  if Ascii.eqb c "("%char then Some (createToken TokenType.ParentesesE "(")
  else if Ascii.eqb c ")"%char then Some (createToken TokenType.ParentesesD ")")
  else if Ascii.eqb c "!"%char then Some (createToken TokenType.EoL "!")
  else if Ascii.eqb c "'"%char then Some (createToken TokenType.SingleQuote "'")
  else if Ascii.eqb c "034"%char then
    Some (createToken TokenType.DoubleQuote (String "034"%char EmptyString))
  else if Ascii.eqb c "="%char then Some (createToken TokenType.AssignOrEqual "=")
  else if Ascii.eqb c NUL then Some (createToken TokenType.Eof "eof")
  else None.

Definition is_quote (t : Token) : bool :=
  has_type t TokenType.SingleQuote || has_type t TokenType.DoubleQuote.

Definition getNextToken (t : Tokenizer) : Token * Tokenizer :=
  let t := skipWhitespace t in
  let tok := switch_ch (ch t) in
  if isLetter (ch t) then
    let '(ident, t) := readIdent t in
    match Keywords ident with
    | Some keyword => (keyword, set_lastToken keyword t)
    | None =>
        let tk := createToken TokenType.Ident ident in
        (tk, set_lastToken tk t)
    end
  else if isNumber (ch t) then
    let '(digits, t) := readInt t in
    let tk :=
      if is_quote (lastToken t) then createToken TokenType.Ident digits
      else createToken TokenType.Int digits in
    (tk, set_lastToken tk t)
  else
    match tok with
    | None => (createToken TokenType.Illegal (String (ch t) EmptyString), t)
    | Some tok => (tok, set_lastToken tok (readChar t))
    end.

Definition illegal_message (tok : Token) (t : Tokenizer) : string :=
  "Illegal token " +:+ template (literal tok) +:+ " at line " +:+ pretty (loc t).

(** The [while (true)] loop of the constructor; [line] is its local
    accumulator.  [None] means the fuel ran out before the loop ended,
    which [new_Tokenizer_terminates] rules out. *)
Fixpoint constructor_loop (fuel : nat) (t : Tokenizer) (line : list Token)
  : option (Result Tokenizer) :=
  match fuel with
  | 0 => None
  | S fuel =>
      let '(tok, t) := getNextToken t in
      if has_type tok TokenType.EoL then
        constructor_loop fuel (seal_line line t) []
      else if has_type tok TokenType.Illegal then
        Some (Throw (Error (illegal_message tok t)))
      else if has_type tok TokenType.Eof then
        Some (Ok t)
      else
        constructor_loop fuel (push_token tok t) (line ++ [tok])
  end.

(** Field initialisers of the class; [ch] has no initialiser and is
    assigned by the first [readChar]. *)
Definition initial (inp : string) : Tokenizer :=
  mkTokenizer inp (createToken TokenType.Illegal "Illegal") 0 0 NUL 0 [] [].

Definition new_Tokenizer (inp : string) : option (Result Tokenizer) :=
  constructor_loop (String.length inp + 2) (readChar (initial inp)) [].

(** ** The grammar table *)

Definition treeObj : list (string * list TokenItem) :=
  [ ("print",
     [ TokenType.Print; TokenType.ParentesesE; TokenType.SingleQuote;
       TokenType.Ident; TokenType.SingleQuote; TokenType.ParentesesD;
       TokenType.EoL ]) ].

(** [new Map(Object.entries(treeObj))] *)
Definition treeMap : gmap string (list TokenItem) := list_to_map treeObj.

(** ** Variables, commands and output *)

Module IVariable.
Inductive declaration_t := var_var | var_const | const_var | const_const.
Inductive type_t := string | number.

#[global] Instance type_eq_dec : EqDecision type_t.
Proof. solve_decision. Defined.

(** [value] is declared [any]; the interpreter stores a [literal] read,
    a string or [undefined]. *)
Record t := mk {
  declaration : declaration_t;
  type : type_t;
  value : option String.string
}.
End IVariable.

Abbreviation IVariable := IVariable.t.

(** The Numbers [parseInt] can yield for the texts of this program, which
    hold no sign: NaN, the double whose value is the natural number [n],
    and Infinity. *)
Inductive JSNumber :=
| NaN
| Num (n : N)
| Infinity.

(** The Number value of a natural number, the double nearest to it.  The
    numbers up to 2^53 are doubles.  A larger one is rounded to 53
    significant bits: with [e] the weight of the last of these bits, [q]
    the 53 leading bits and [r] what is cut off, [q] goes up by one when
    [r] is more than half of [2^e], and when it is exactly half and [q] is
    odd.  A rounded value of 2^1024 is Infinity. *)
Definition Number_value (n : N) : JSNumber :=
  if (n <=? 2 ^ 53)%N then Num n
  else
    let e := (N.log2 n - 52)%N in
    let q := N.shiftr n e in
    let r := (n - N.shiftl q e)%N in
    let half := N.shiftl 1 (e - 1) in
    let q := if (half <? r)%N || (half =? r)%N && N.odd q then (q + 1)%N
             else q in
    if (N.shiftl q e <? 2 ^ 1024)%N then Num (N.shiftl q e) else Infinity.
Arguments Number_value : simpl never.

(** Value of the leading decimal digits of [s], [None] when [s] does not
    start with a digit. *)
Fixpoint leading_digits (s : string) (acc : option N) : option N :=
  match s with
  | String c s' =>
      if isNumber c then
        leading_digits s' (Some (10 * default 0 acc + (N_of_ascii c - 48)))%N
      else acc
  | EmptyString => acc
  end.

(** [parseInt(s)] with no radix, for a string with no leading blank, sign
    or [0x] prefix: the Number value of the integer its leading digits
    spell, all of them taken into account, as Node's engine does.  The
    interpreter only passes literals produced by the lexer (letters,
    underscores, digits) and the word [Illegal]. *)
Definition parseInt (s : string) : JSNumber :=
  match leading_digits s None with
  | Some n => Number_value n
  | None => NaN
  end.

(** What one [console.log] call writes. *)
Inductive Output :=
| LogString (s : string)
| LogNumber (n : JSNumber)
| LogLines (ls : list (list Token)).

(** The interpreter builds each command as source text,
    [console.log('<text>')] or [console.log(<number>)], and passes the
    joined text to [eval].  A command is kept here as the call it denotes:
    the interpolated texts are literals of [Ident] and [Int] tokens, the
    word [Illegal] or the word [undefined], which hold no quote,
    backslash or line break. *)
Inductive Command :=
| console_log (arg : Output).

(** [eval(commands.join())]: the commands run left to right. *)
Definition eval (commands : list Command) : list Output :=
  map (λ c, match c with console_log arg => arg end) commands.

(** ** The interpreter *)

Fixpoint verifyTree_from (tree : list TokenItem) (index : nat)
  (rest : list Token) : bool :=
  match rest with
  | [] => true
  | token :: rest =>
      let treeToken := tree !! index in
      if bool_decide (type token ≠ treeToken) then false
      else verifyTree_from tree (S index) rest
  end.

Definition verifyTree (line : list Token) (statement : string) : bool :=
  match treeMap !! statement with
  | Some tree => verifyTree_from tree 0 line
  | None => false
  end.

(** The [for ... of] loop of [find], with its counters [i] and [tok]. *)
Fixpoint find_from (token : TokenItem) (index i : nat) (tok : Token)
  (rest : list Token) : Token :=
  match rest with
  | [] => tok
  | t :: rest =>
      if has_type t token then
        if i =? index then t
        else find_from token index (S i) t rest
      else find_from token index i tok rest
  end.

Definition find (token : TokenItem) (line : list Token) (index : nat)
  : Token :=
  find_from token index 0 (createToken TokenType.Illegal "Illegal") line.

Fixpoint hasVariable (variables : gmap (option string) IVariable)
  (line : list Token) : bool :=
  match line with
  | [] => false
  | t :: line =>
      if bool_decide (is_Some (variables !! literal t)) then true
      else hasVariable variables line
  end.

(** The loop over [inner]: [rest] is the part of [line] still to visit.
    The print branch ends the loop ([break]); the declaration branch does
    not.  [variables] is the Map, which the loop updates in place: the
    loop hands it back as it leaves it, with the commands when it ends
    normally and with the exception when it throws. *)
Fixpoint for_inner (variables : gmap (option string) IVariable)
  (line rest : list Token) (commands : list Command)
  : gmap (option string) IVariable * Result (list Command) :=
  match rest with
  | [] => (variables, Ok commands)
  | atual :: rest =>
      if has_type atual TokenType.Print then
        if hasVariable variables line then
          let vKey := literal (find TokenType.Ident line 0) in
          match variables !! vKey with
          | None => (variables, Throw (TypeError "type"))
          | Some v =>
              if bool_decide (IVariable.type v = IVariable.number) then
                (variables,
                 Ok (commands ++
                     [console_log
                        (LogNumber (parseInt (template (IVariable.value v))))]))
              else
                (variables,
                 Ok (commands ++
                     [console_log (LogString (template (IVariable.value v)))]))
          end
        else
          (variables,
           Ok (commands ++
               [console_log
                  (LogString
                     (template (literal (find TokenType.Ident line 0))))]))
      else if has_type atual TokenType.Variable_ then
        let single := find TokenType.SingleQuote line 0 in
        let double := find TokenType.DoubleQuote line 0 in
        if negb (has_type single TokenType.Illegal)
           || negb (has_type double TokenType.Illegal) then
          match line !! 1 with
          | None => (variables, Throw (TypeError "literal"))
          | Some name =>
              for_inner
                (<[literal name :=
                     IVariable.mk IVariable.var_var IVariable.string
                       (literal (find TokenType.Ident line 1))]> variables)
                line rest commands
          end
        else
          match line !! 1 with
          | None => (variables, Throw (TypeError "literal"))
          | Some name =>
              for_inner
                (<[literal name :=
                     IVariable.mk IVariable.var_var IVariable.number
                       (literal (find TokenType.Int line 0))]> variables)
                line rest commands
          end
      else for_inner variables line rest commands
  end.

(** The outcome of the loop over [inner]: the table and the commands it
    leaves when it ends normally, the exception when it throws. *)
Definition inner_loop (variables : gmap (option string) IVariable)
  (line rest : list Token) (commands : list Command)
  : Result (gmap (option string) IVariable * list Command) :=
  match for_inner variables line rest commands with
  | (variables, Ok commands) => Ok (variables, commands)
  | (_, Throw e) => Throw e
  end.

(** State of a run: the variable table, the output written so far, and
    the exception that ended the run, if any. *)
Record Run := mkRun {
  variables : gmap (option string) IVariable;
  stdout : list Output;
  thrown : option Exception
}.

(** The loop over [tokenizer.lines].  When a line throws, the run ends:
    [stdout] holds what the lines before it wrote, since [eval] is not
    reached, and [variables] is the Map as the line left it, with the
    record a declaration of that line stored before the exception. *)
Fixpoint interpreter_loop (vars : gmap (option string) IVariable)
  (out : list Output) (rest : list (list Token)) : Run :=
  match rest with
  | [] => mkRun vars out None
  | line :: rest =>
      match for_inner vars line line [] with
      | (vars, Throw e) => mkRun vars out (Some e)
      | (vars, Ok commands) =>
          interpreter_loop vars (out ++ eval commands) rest
      end
  end.

(** [interpreter(tokenizer)], started with the output written before the
    call. *)
Definition interpreter (out : list Output) (tokenizer : Tokenizer) : Run :=
  interpreter_loop ∅ out (lines tokenizer).

(** The top level of the module: lex the input, log the word [lines] and
    the lexed lines, interpret.  [None] only if [new_Tokenizer] ran out of
    fuel. *)
Definition main (inp : string) : option Run :=
  match new_Tokenizer inp with
  | None => None
  | Some (Throw e) => Some (mkRun ∅ [] (Some e))
  | Some (Ok lexer) =>
      Some (interpreter [LogString "lines"; LogLines (lines lexer)] lexer)
  end.

(** ** Vocabulary of the statements *)

(** The code unit at index [i], NUL past the end: what [readChar] stores
    in [ch] when the cursor moves to [i]. *)
Definition at_pos (s : string) (i : nat) : ascii :=
  default NUL (String.get i s).

(** A tokenizer whose cursor sits on one index of its input, as it does
    after every [readChar]. *)
Definition on_cursor (t : Tokenizer) : Prop :=
  readPosition t = S (position t) ∧ ch t = at_pos (input t) (position t).

(** [t] with its cursor moved to index [p]. *)
Definition cursor_at (t : Tokenizer) (p : nat) : Tokenizer :=
  set_cursor p (S p) (at_pos (input t) p) t.

Fixpoint all_chars (cond : ascii → bool) (s : string) : bool :=
  match s with
  | EmptyString => true
  | String c s => cond c && all_chars cond s
  end.

(** The six punctuation characters of the [switch]. *)
Definition isPunctuation (c : ascii) : bool :=
  bool_decide (c ∈ ["("; ")"; "!"; "'"; "034"; "="]%char).

(** Characters the lexer turns into tokens or skips. *)
Definition scannable (c : ascii) : bool :=
  isWhitespace c || isLetter c || isNumber c || isPunctuation c.

(** Characters for which [getNextToken] returns an [Illegal] token: not
    whitespace, not a letter, not a digit, and none of the seven cases of
    the [switch] (the six punctuation characters and NUL, which stands
    for the end of the input). *)
Definition unrecognized (c : ascii) : bool :=
  negb (isWhitespace c) && negb (isLetter c) && negb (isNumber c)
  && negb (bool_decide (is_Some (switch_ch c))).

(** Number of statement terminators among the characters of [s]. *)
Fixpoint count_terminators (s : string) : nat :=
  match s with
  | EmptyString => 0
  | String c s =>
      (if Ascii.eqb c "!"%char then 1 else 0) + count_terminators s
  end.

(** The part of [s] before its first NUL character: the text the lexer
    reads before it reports the end of the input. *)
Fixpoint before_NUL (s : string) : string :=
  match s with
  | EmptyString => EmptyString
  | String c s => if Ascii.eqb c NUL then EmptyString else String c (before_NUL s)
  end.

(** The token [getNextToken] builds from a run of letters, and from a run
    of digits read after the token [last]. *)
Definition word_token (ident : string) : Token :=
  match Keywords ident with
  | Some keyword => keyword
  | None => createToken TokenType.Ident ident
  end.

Definition number_token (last : Token) (digits : string) : Token :=
  if is_quote last then createToken TokenType.Ident digits
  else createToken TokenType.Int digits.

(** [s] holds a run of [n] characters of class [cond] from index [q], and
    the run ends there. *)
Definition run_at (cond : ascii → bool) (s : string) (q n : nat) : Prop :=
  (∀ i, i < n → cond (at_pos s (q + i)) = true)
  ∧ cond (at_pos s (q + n)) = false.

(** Number of statement terminators among the [len] characters of [s]
    from index [p]. *)
Fixpoint terminators_in (s : string) (p len : nat) : nat :=
  match len with
  | 0 => 0
  | S len =>
      (if Ascii.eqb (at_pos s p) "!"%char then 1 else 0)
      + terminators_in s (S p) len
  end.

(** No token extends across index [n]: no run of letters and no run of
    digits has a character on each side of it. *)
Definition boundary (s : string) (n : nat) : Prop :=
  (isLetter (at_pos s n) = false
   ∨ (0 < n → isLetter (at_pos s (n - 1)) = false))
  ∧ (isNumber (at_pos s n) = false
     ∨ (0 < n → isNumber (at_pos s (n - 1)) = false)).

(** Only blanks from index [p] up to index [n], [n] excluded. *)
Definition blanks (s : string) (p n : nat) : Prop :=
  ∀ i, p ≤ i < n → isWhitespace (at_pos s i) = true.

(** The tokens the successive calls of [getNextToken] return in the
    constructor's loop, up to the call that returns [Eof] or [Illegal].
    The pushes onto [lines] and [tokens] between two calls are left out:
    [getNextToken] does not read these fields (lemma
    [getNextToken_seal_line] and its neighbours). *)
Fixpoint token_stream_from (fuel : nat) (t : Tokenizer) : list Token :=
  match fuel with
  | 0 => []
  | S fuel =>
      let '(tok, t) := getNextToken t in
      if has_type tok TokenType.Illegal || has_type tok TokenType.Eof then []
      else tok :: token_stream_from fuel t
  end.

Definition token_stream (inp : string) : list Token :=
  token_stream_from (String.length inp + 2) (readChar (initial inp)).

Definition terminator : Token := createToken TokenType.EoL "!".

(** The token sequence made of the given lines, each followed by its
    terminator, and of a last group without one. *)
Definition terminated (ls : list (list Token)) (trailing : list Token)
  : list Token :=
  concat (map (λ l, l ++ [terminator]) ls) ++ trailing.

Definition no_terminator (line : list Token) : Prop :=
  Forall (λ tok, type tok ≠ Some TokenType.EoL) line.

(** The tokens of kind [k] in a line, in order. *)
Definition of_kind (k : TokenItem) (line : list Token) : list Token :=
  filter (λ t, type t = Some k) line.

(** The default token of [find]. *)
Definition no_token : Token := createToken TokenType.Illegal "Illegal".

(** A line with a single or a double quote in it. *)
Definition quoted (line : list Token) : Prop :=
  of_kind TokenType.SingleQuote line ≠ []
  ∨ of_kind TokenType.DoubleQuote line ≠ [].

#[global] Instance quoted_dec line : Decision (quoted line).
Proof. unfold quoted. apply _. Defined.

(** A line with a [print] keyword in it. *)
Definition prints (line : list Token) : bool :=
  bool_decide (of_kind TokenType.Print line ≠ []).

(** The six kinds the specification lists for a [print] statement. *)
Definition print_shape : list TokenItem :=
  [ TokenType.Print; TokenType.ParentesesE; TokenType.SingleQuote;
    TokenType.Ident; TokenType.SingleQuote; TokenType.ParentesesD ].

(** The record the declaration branch stores for a line. *)
Definition declared (line : list Token) : IVariable :=
  if decide (quoted line) then
    IVariable.mk IVariable.var_var IVariable.string
      (literal (find TokenType.Ident line 1))
  else
    IVariable.mk IVariable.var_var IVariable.number
      (literal (find TokenType.Int line 0)).

(** What the print branch logs for a stored variable. *)
Definition logged (v : IVariable) : Output :=
  if decide (IVariable.type v = IVariable.number) then
    LogNumber (parseInt (template (IVariable.value v)))
  else LogString (template (IVariable.value v)).

(** What a line with a [print] keyword writes when its scan ends normally
    and leaves the table [vars]: the value stored under the literal of the
    first [Ident] token (of the default token of [find] when the line has
    none) if some literal of the line is a key, that literal itself
    otherwise.  [None] when the lookup finds no record. *)
Definition print_writes (vars : gmap (option string) IVariable)
  (line : list Token) : option Output :=
  let shown := default no_token (head (of_kind TokenType.Ident line)) in
  if hasVariable vars line then logged <$> vars !! literal shown
  else Some (LogString (template (literal shown))).

(** No [print] and no [var] keyword among the tokens. *)
Definition no_statement (pre : list Token) : Prop :=
  of_kind TokenType.Print pre = [] ∧ of_kind TokenType.Variable_ pre = [].

(** The part of the state that [getNextToken] neither reads nor
    writes. *)
Definition same_record (t t' : Tokenizer) : Prop :=
  loc t' = loc t ∧ tokens t' = tokens t ∧ lines t' = lines t
  ∧ input t' = input t.

(** The token the lexer holds in [lastToken] after it has returned the
    tokens [emitted]: the last of them, or the initial value of the
    field. *)
Definition last_token (initial_token : Token) (emitted : list Token) : Token :=
  default initial_token (last emitted).

(** Two texts with the same first [n] characters. *)
Definition same_prefix (s1 s2 : string) (n : nat) : Prop :=
  ∀ i, i < n → at_pos s1 i = at_pos s2 i.

(** The characters of the literals the lexer gives to [Ident] and [Int]
    tokens. *)
Definition word_char (c : ascii) : bool := isLetter c || isNumber c.

(** A token whose literal, if its kind is [Ident] or [Int], is made of
    letters, underscores and digits. *)
Definition plain_literal (tok : Token) : Prop :=
  match tok with
  | createToken k l =>
      k = TokenType.Ident ∨ k = TokenType.Int → all_chars word_char l = true
  | inherited _ => True
  end.

(** A command whose quoted text, if it has one, is made of letters,
    underscores and digits: evaluated as source text, it logs that
    text. *)
Definition plain_command (c : Command) : Prop :=
  match c with
  | console_log (LogString text) => all_chars word_char text = true
  | console_log _ => True
  end.

(** A table whose stored texts are made of letters, underscores and
    digits. *)
Definition plain_table (vars : gmap (option string) IVariable) : Prop :=
  ∀ key v, vars !! key = Some v →
    all_chars word_char (template (IVariable.value v)) = true.

(** The output of a run after the two entries the top level writes
    first, with the exception that ended it. *)
Definition printed (inp : string) : option (list Output * option Exception) :=
  (λ r, (drop 2 (stdout r), thrown r)) <$> main inp.

(** ** Facts checked character by character *)

(** The class tests of the lexer exclude one another. *)
Definition exclusive (c : ascii) : bool :=
  let s := bool_decide (is_Some (switch_ch c)) in
  implb (isWhitespace c) (negb (isLetter c || isNumber c || s))
  && implb (isLetter c) (negb (isNumber c || s))
  && implb (isNumber c) (negb s).

(** What the [switch] yields, by character. *)
Definition switch_checked (c : ascii) : bool :=
  match switch_ch c with
  | None => true
  | Some tok =>
      bool_decide (has_type tok TokenType.Illegal = false)
      && bool_decide (has_type tok TokenType.EoL = Ascii.eqb c "!"%char)
      && bool_decide (has_type tok TokenType.Eof = Ascii.eqb c NUL)
      && bool_decide (is_quote tok
                      = Ascii.eqb c "'"%char || Ascii.eqb c "034"%char)
      && bool_decide (Ascii.eqb c NUL = false →
                      tok = createToken (default TokenType.Illegal (type tok))
                              (String c EmptyString))
      && bool_decide (Ascii.eqb c NUL = false → isPunctuation c = true)
  end.

(** [scannable] in terms of [unrecognized]. *)
Definition scannable_checked (c : ascii) : bool :=
  bool_decide (scannable c = negb (Ascii.eqb c NUL) && negb (unrecognized c)).

(** ** Vocabulary of the properties of composition, shape and table *)

(** The tokens returned from the first call on, when the constructor's
    loop is entered with [last] in [lastToken]. *)
Definition token_stream_after (last : Token) (inp : string) : list Token :=
  token_stream_from (String.length inp + 2)
    (set_lastToken last (readChar (initial inp))).

(** Two cursors on texts that read the same from [n1] in the first and
    from [n2] in the second. *)
Definition aligned (s1 s2 : string) (n1 n2 : nat) : Prop :=
  ∀ i, at_pos s1 (n1 + i) = at_pos s2 (n2 + i).

(** The text a token was read from: its literal, and for a member of
    [Object.prototype] the name it was found under. *)
Definition spelling (tok : Token) : string :=
  match tok with
  | createToken _ l => l
  | inherited name => name
  end.

(** The texts of a token sequence, put end to end. *)
Definition spelled (toks : list Token) : string :=
  foldr (λ tok acc, spelling tok +:+ acc) EmptyString toks.

(** A text without its blanks. *)
Fixpoint squeeze (s : string) : string :=
  match s with
  | EmptyString => EmptyString
  | String c s => if isWhitespace c then squeeze s else String c (squeeze s)
  end.

(** The text from index [p] on. *)
Fixpoint string_drop (p : nat) (s : string) : string :=
  match p, s with
  | 0, _ => s
  | S p, String _ s => string_drop p s
  | S _, EmptyString => EmptyString
  end.

(** The shapes of the tokens the lexer hands to the constructor's loop
    and the loop keeps. *)
Definition lexed_token (tok : Token) : Prop :=
  match tok with
  | inherited name => name ∈ objectPrototype
  | createToken k l =>
      match k with
      | TokenType.Ident =>
          l ≠ EmptyString
          ∧ (all_chars isLetter l = true ∧ Keywords l = None
             ∨ all_chars isNumber l = true)
      | TokenType.Int => l ≠ EmptyString ∧ all_chars isNumber l = true
      | TokenType.Print => l = "print"
      | TokenType.Variable_ => l = "var"
      | TokenType.ParentesesE => l = "("
      | TokenType.ParentesesD => l = ")"
      | TokenType.EoL => l = "!"
      | TokenType.SingleQuote => l = "'"
      | TokenType.DoubleQuote => l = String "034"%char EmptyString
      | TokenType.AssignOrEqual => l = "="
      | TokenType.Illegal | TokenType.Eof => False
      end
  end.

#[global] Instance lexed_token_dec tok : Decision (lexed_token tok).
Proof. destruct tok as [k l|name]; [destruct k|]; simpl; apply _. Defined.

(** The state after [n] calls of [getNextToken]. *)
Definition calls (n : nat) (t : Tokenizer) : Tokenizer :=
  Nat.iter n (λ t, (getNextToken t).2) t.

(** A line that declares and does not print: it has a [var] keyword, no
    [print] keyword, and a token at position 1. *)
Definition declaration_line (line : list Token) (name : Token) : Prop :=
  of_kind TokenType.Print line = []
  ∧ of_kind TokenType.Variable_ line ≠ []
  ∧ line !! 1 = Some name.

#[global] Instance declaration_line_dec line name :
  Decision (declaration_line line name).
Proof. unfold declaration_line. apply _. Defined.

#[global] Instance declaration_eq_dec : EqDecision IVariable.declaration_t.
Proof. solve_decision. Defined.

(** The records the interpreter stores for lexed lines: the declaration
    is always [var var]; the value is a text, never [undefined]: the
    word [Illegal] or, for a number, a run of digits, and for a string, a
    run of letters or of digits. *)
Definition stored_shape (v : IVariable) : Prop :=
  IVariable.declaration v = IVariable.var_var
  ∧ match IVariable.value v with
    | None => False
    | Some text =>
        text = "Illegal"
        ∨ text ≠ EmptyString
          ∧ match IVariable.type v with
            | IVariable.number => all_chars isNumber text = true
            | IVariable.string =>
                all_chars isLetter text = true
                ∨ all_chars isNumber text = true
            end
    end.

#[global] Instance stored_shape_dec v : Decision (stored_shape v).
Proof.
  unfold stored_shape.
  destruct (IVariable.value v); [destruct (IVariable.type v)|]; apply _.
Defined.

(** * Strings as indexed sequences *)

Section string_facts.
Implicit Types (s a b : string) (i n : nat) (c : ascii).

Lemma app_String c a b : String c a +:+ b = String c (a +:+ b).
Proof. reflexivity. Qed.

Lemma app_Empty b : EmptyString +:+ b = b.
Proof. reflexivity. Qed.

Lemma string_length_app a b :
  String.length (a +:+ b) = String.length a + String.length b.
Proof. induction a as [|c a IH]; [done|]. rewrite app_String. simpl. by rewrite IH. Qed.

Lemma at_pos_0 c s : at_pos (String c s) 0 = c.
Proof. reflexivity. Qed.

Lemma at_pos_S c s i : at_pos (String c s) (S i) = at_pos s i.
Proof. reflexivity. Qed.

Lemma at_pos_ge s i : String.length s ≤ i → at_pos s i = NUL.
Proof.
  revert i. induction s as [|c s IH]; intros i Hi.
  - by destruct i.
  - destruct i as [|i]; simpl in Hi; [lia|]. rewrite at_pos_S. apply IH. lia.
Qed.

Lemma at_pos_app_r a b i : at_pos (a +:+ b) (String.length a + i) = at_pos b i.
Proof. induction a as [|c a IH]; [done|]. by rewrite app_String. Qed.

Lemma at_pos_app_l a b i : i < String.length a → at_pos (a +:+ b) i = at_pos a i.
Proof.
  revert i. induction a as [|c a IH]; intros i Hi; simpl in Hi; [lia|].
  rewrite app_String. destruct i as [|i]; [done|].
  rewrite !at_pos_S. apply IH. lia.
Qed.

Lemma all_chars_at cond s :
  all_chars cond s = true ↔ ∀ i, i < String.length s → cond (at_pos s i) = true.
Proof.
  induction s as [|c s IH]; simpl.
  - split; [intros _ i Hi; lia|done].
  - rewrite andb_true_iff, IH. split.
    + intros [Hc Hs] [|i] Hi; [done|]. rewrite at_pos_S. apply Hs. lia.
    + intros H. split; [apply (H 0); lia|].
      intros i Hi. apply (H (S i)). lia.
Qed.

Lemma substring_app_mid a b d :
  String.substring (String.length a) (String.length b) (a +:+ b +:+ d) = b.
Proof.
  induction a as [|c a IH]; [|by rewrite app_String].
  rewrite app_Empty. simpl String.length.
  induction b as [|c b IH]; [by destruct d|].
  rewrite app_String. simpl. by rewrite IH.
Qed.

Lemma slice_app_mid a b d :
  slice (String.length a) (String.length a + String.length b) (a +:+ b +:+ d) = b.
Proof.
  unfold slice.
  replace (String.length a + String.length b - String.length a)
    with (String.length b) by lia.
  apply substring_app_mid.
Qed.
End string_facts.


(** * Character classes *)

Ltac each_char c := destruct c as [[] [] [] [] [] [] [] []].

Lemma exclusive_true (c : ascii) : exclusive c = true.
Proof. each_char c; vm_compute; reflexivity. Qed.

Lemma unrecognized_spec (c : ascii) :
  unrecognized c = true ↔
  isWhitespace c = false ∧ isLetter c = false ∧ isNumber c = false
  ∧ switch_ch c = None.
Proof.
  unfold unrecognized. rewrite !andb_true_iff, !negb_true_iff.
  rewrite bool_decide_eq_false, <-eq_None_not_Some. tauto.
Qed.

(** Every character falls in exactly one class of the lexer. *)
Lemma char_classes (c : ascii) :
  (isWhitespace c = true ∧ isLetter c = false ∧ isNumber c = false
     ∧ switch_ch c = None)
  ∨ (isWhitespace c = false ∧ isLetter c = true ∧ isNumber c = false
     ∧ switch_ch c = None)
  ∨ (isWhitespace c = false ∧ isLetter c = false ∧ isNumber c = true
     ∧ switch_ch c = None)
  ∨ (isWhitespace c = false ∧ isLetter c = false ∧ isNumber c = false
     ∧ is_Some (switch_ch c))
  ∨ unrecognized c = true.
Proof.
  pose proof (exclusive_true c) as H. rewrite unrecognized_spec.
  unfold exclusive in H.
  destruct (switch_ch c) as [tok|] eqn:Hs.
  - rewrite bool_decide_eq_true_2 in H by eauto.
    destruct (isWhitespace c), (isLetter c), (isNumber c); try done.
    do 3 right. left. eauto.
  - destruct (isWhitespace c), (isLetter c), (isNumber c); try done; tauto.
Qed.

Lemma switch_checked_true (c : ascii) : switch_checked c = true.
Proof. each_char c; vm_compute; reflexivity. Qed.

Lemma switch_ch_Some (c : ascii) (tok : Token) :
  switch_ch c = Some tok →
  has_type tok TokenType.Illegal = false
  ∧ has_type tok TokenType.EoL = Ascii.eqb c "!"%char
  ∧ has_type tok TokenType.Eof = Ascii.eqb c NUL
  ∧ is_quote tok = Ascii.eqb c "'"%char || Ascii.eqb c "034"%char
  ∧ (c ≠ NUL →
     tok = createToken (default TokenType.Illegal (type tok)) (String c EmptyString)
     ∧ isPunctuation c = true).
Proof.
  intros Hs. pose proof (switch_checked_true c) as H.
  unfold switch_checked in H. rewrite Hs in H.
  rewrite !andb_true_iff, !bool_decide_eq_true in H.
  destruct H as (((((H1 & H2) & H3) & H4) & H5) & H6).
  split_and!; [done..|]. intros Hc%Ascii.eqb_neq. auto.
Qed.

Lemma scannable_checked_true (c : ascii) : scannable_checked c = true.
Proof. each_char c; vm_compute; reflexivity. Qed.

Lemma scannable_spec (c : ascii) :
  scannable c = true ↔ c ≠ NUL ∧ unrecognized c = false.
Proof.
  pose proof (scannable_checked_true c) as H.
  apply bool_decide_eq_true in H. rewrite H.
  rewrite andb_true_iff, !negb_true_iff, Ascii.eqb_neq. done.
Qed.

(** * The cursor *)

Section cursor.
Implicit Types (t : Tokenizer) (p k : nat).


Lemma cursor_at_here t : on_cursor t → cursor_at t (position t) = t.
Proof. destruct t; intros [Hr Hc]; simpl in *. unfold cursor_at, set_cursor; simpl. congruence. Qed.

Lemma peek_at t : peek t = at_pos (input t) (readPosition t).
Proof.
  unfold peek. destruct (Nat.leb_spec (String.length (input t)) (readPosition t)) as [H|H]; [|done].
  by rewrite at_pos_ge.
Qed.

Lemma readChar_peek t :
  readChar t = set_cursor (readPosition t) (readPosition t + 1) (peek t) t.
Proof. done. Qed.

Lemma readChar_cursor t p : readChar (cursor_at t p) = cursor_at t (S p).
Proof.
  rewrite readChar_peek, peek_at. unfold cursor_at, set_cursor; simpl.
  by rewrite Nat.add_1_r.
Qed.

Lemma readChar_initial (inp : string) :
  readChar (initial inp) = cursor_at (initial inp) 0.
Proof. rewrite readChar_peek, peek_at. done. Qed.

(** A [while] loop on [ch] moves the cursor over a run of characters
    that satisfy the condition. *)
Lemma while_ch_run cond fuel t p :
  ∃ k, k ≤ fuel
    ∧ while_ch cond fuel (cursor_at t p) = cursor_at t (p + k)
    ∧ (∀ i, i < k → cond (at_pos (input t) (p + i)) = true)
    ∧ (k < fuel → cond (at_pos (input t) (p + k)) = false).
Proof.
  revert p. induction fuel as [|fuel IH]; intros p.
  - exists 0. rewrite Nat.add_0_r. split_and!; [done..|lia|lia].
  - simpl. change (ch (cursor_at t p)) with (at_pos (input t) p).
    destruct (cond (at_pos (input t) p)) eqn:Hc.
    + rewrite readChar_cursor. destruct (IH (S p)) as (k & Hk & Hrun & Hall & Hend).
      exists (S k). rewrite <-Nat.add_succ_comm. split_and!; [lia|done| |].
      * intros [|i] Hi; [by rewrite Nat.add_0_r|].
        rewrite <-Nat.add_succ_comm. apply Hall. lia.
      * intros ?. apply Hend. lia.
    + exists 0. rewrite Nat.add_0_r. split_and!; [lia|done|lia|done].
Qed.

(** With the fuel the three loops are given, the loop always stops on
    its exit test. *)
Lemma while_ch_exit cond t p :
  cond NUL = false →
  ∃ k,
    while_ch cond (S (String.length (input t))) (cursor_at t p)
      = cursor_at t (p + k)
    ∧ (∀ i, i < k → cond (at_pos (input t) (p + i)) = true)
    ∧ cond (at_pos (input t) (p + k)) = false.
Proof.
  intros HNUL.
  destruct (while_ch_run cond (S (String.length (input t))) t p)
    as (k & Hk & Hrun & Hall & Hend).
  exists k. split_and!; [done..|].
  destruct (decide (k < S (String.length (input t)))) as [?|?]; [by apply Hend|].
  rewrite at_pos_ge; [done|lia].
Qed.

(** The length of a run is determined by the input. *)
Lemma run_length_unique cond (s : string) p k k' :
  (∀ i, i < k → cond (at_pos s (p + i)) = true) →
  cond (at_pos s (p + k)) = false →
  (∀ i, i < k' → cond (at_pos s (p + i)) = true) →
  cond (at_pos s (p + k')) = false →
  k = k'.
Proof.
  intros H1 H2 H3 H4.
  destruct (Nat.lt_trichotomy k k') as [?|[?|?]]; [|done|].
  - rewrite H3 in H2; [done|lia].
  - rewrite H1 in H4; [done|lia].
Qed.
End cursor.


(** * One call of [getNextToken] *)

Section getNextToken.
Implicit Types (t : Tokenizer) (p k n : nat) (tok : Token).

Lemma run_at_pos cond s q n :
  run_at cond s q n → cond (at_pos s q) = true → 0 < n.
Proof.
  intros [_ Hend] Hc. destruct n; [|lia].
  rewrite Nat.add_0_r in Hend. congruence.
Qed.

Lemma skipWhitespace_run t :
  on_cursor t →
  ∃ k, skipWhitespace t = cursor_at t (position t + k)
       ∧ run_at isWhitespace (input t) (position t) k.
Proof.
  intros Ht. unfold skipWhitespace.
  destruct (while_ch_exit isWhitespace t (position t) eq_refl)
    as (k & Hrun & Hall & Hend).
  rewrite (cursor_at_here t Ht) in Hrun. by exists k.
Qed.

Lemma readIdent_run t q :
  ∃ n, readIdent (cursor_at t q)
       = (slice q (q + n) (input t), cursor_at t (q + n))
       ∧ run_at isLetter (input t) q n.
Proof.
  unfold readIdent.
  destruct (while_ch_exit isLetter t q eq_refl) as (n & Hrun & Hall & Hend).
  exists n. change (input (cursor_at t q)) with (input t).
  by rewrite Hrun.
Qed.

Lemma readInt_run t q :
  ∃ n, readInt (cursor_at t q)
       = (slice q (q + n) (input t), cursor_at t (q + n))
       ∧ run_at isNumber (input t) q n.
Proof.
  unfold readInt.
  destruct (while_ch_exit isNumber t q eq_refl) as (n & Hrun & Hall & Hend).
  exists n. change (input (cursor_at t q)) with (input t).
  by rewrite Hrun.
Qed.

(** The four ways a call can go, by the class of the first character
    after the blanks. *)
Lemma getNextToken_cases t :
  on_cursor t →
  ∃ k, let q := position t + k in
       let c := at_pos (input t) q in
    run_at isWhitespace (input t) (position t) k
    ∧ ( (isLetter c = true
         ∧ ∃ n, 0 < n ∧ run_at isLetter (input t) q n
             ∧ let tok := word_token (slice q (q + n) (input t)) in
               getNextToken t = (tok, set_lastToken tok (cursor_at t (q + n))))
      ∨ (isNumber c = true
         ∧ ∃ n, 0 < n ∧ run_at isNumber (input t) q n
             ∧ let tok := number_token (lastToken t)
                            (slice q (q + n) (input t)) in
               getNextToken t = (tok, set_lastToken tok (cursor_at t (q + n))))
      ∨ (∃ tok, switch_ch c = Some tok
           ∧ getNextToken t = (tok, set_lastToken tok (cursor_at t (S q))))
      ∨ (unrecognized c = true
         ∧ getNextToken t
           = (createToken TokenType.Illegal (String c EmptyString),
              cursor_at t q)) ).
Proof.
  intros Ht. destruct (skipWhitespace_run t Ht) as (k & Hskip & Hws).
  exists k. simpl. split; [done|].
  unfold getNextToken. rewrite Hskip.
  change (ch (cursor_at t (position t + k)))
    with (at_pos (input t) (position t + k)).
  set (q := position t + k). set (c := at_pos (input t) q).
  destruct (char_classes c) as
    [(Hw & _)|[(_ & Hl & Hn & Hs)|[(_ & Hl & Hn & Hs)|[(_ & Hl & Hn & Hs)|Hu]]]].
  - destruct Hws as [_ Hend]. fold q c in Hend. congruence.
  - left. split; [done|]. rewrite Hl.
    destruct (readIdent_run t q) as (n & -> & Hrun).
    exists n. split; [by eapply run_at_pos|]. split; [done|].
    unfold word_token. by destruct (Keywords _).
  - right; left. split; [done|]. rewrite Hl, Hn.
    destruct (readInt_run t q) as (n & -> & Hrun).
    exists n. split; [by eapply run_at_pos|]. split; [done|].
    unfold number_token.
    change (lastToken (cursor_at t (q + n))) with (lastToken t).
    by destruct (is_quote _).
  - do 2 right; left. rewrite Hl, Hn. destruct Hs as [tok Hs].
    exists tok. split; [done|]. by rewrite Hs, readChar_cursor.
  - do 3 right. split; [done|].
    apply unrecognized_spec in Hu as (_ & Hl & Hn & Hs).
    by rewrite Hl, Hn, Hs.
Qed.
End getNextToken.


(** * Counting terminators *)

Section terminators.
Implicit Types (s : string) (p k n : nat).

Lemma terminators_in_add s p a b :
  terminators_in s p (a + b)
  = terminators_in s p a + terminators_in s (p + a) b.
Proof.
  revert p. induction a as [|a IH]; intros p; simpl.
  - by rewrite Nat.add_0_r.
  - rewrite IH, <-Nat.add_succ_comm. lia.
Qed.

Lemma terminators_in_none cond s p k :
  cond "!"%char = false →
  (∀ i, i < k → cond (at_pos s (p + i)) = true) →
  terminators_in s p k = 0.
Proof.
  intros Hc. revert p. induction k as [|k IH]; intros p Hall; [done|].
  simpl. rewrite IH.
  - destruct (Ascii.eqb_spec (at_pos s p) "!"%char) as [Heq|]; [|done].
    specialize (Hall 0). rewrite Nat.add_0_r, Heq in Hall.
    rewrite Hall in Hc; [done|lia].
  - intros i Hi. rewrite Nat.add_succ_comm. apply Hall. lia.
Qed.

Lemma terminators_in_shift c s p k :
  terminators_in (String c s) (S p) k = terminators_in s p k.
Proof. revert p. induction k as [|k IH]; intros p; simpl; [done|]. by rewrite IH. Qed.

Lemma terminators_in_prefix a b :
  terminators_in (a +:+ b) 0 (String.length a) = count_terminators a.
Proof.
  induction a as [|c a IH]; [done|].
  rewrite app_String. simpl. by rewrite terminators_in_shift, IH.
Qed.
End terminators.

(** * Fields the cursor operations leave alone *)

Section frame.
Implicit Types (t : Tokenizer) (tok : Token) (line : list Token).

Lemma while_ch_record cond fuel t : same_record t (while_ch cond fuel t).
Proof.
  revert t. induction fuel as [|fuel IH]; intros t; simpl; [done|].
  destruct (cond (ch t)); [|done].
  destruct (IH (readChar t)) as (? & ? & ? & ?). by split_and!.
Qed.

Lemma getNextToken_record t : same_record t (getNextToken t).2.
Proof.
  unfold getNextToken, skipWhitespace, readIdent, readInt.
  pose proof (while_ch_record isWhitespace (S (String.length (input t))) t) as Hw.
  set (t1 := while_ch isWhitespace _ t) in *.
  pose proof (while_ch_record isLetter (S (String.length (input t1))) t1) as Hl.
  pose proof (while_ch_record isNumber (S (String.length (input t1))) t1) as Hn.
  set (tl := while_ch isLetter _ t1) in *.
  set (tn := while_ch isNumber _ t1) in *.
  clearbody tl tn t1.
  destruct Hw as (? & ? & ? & ?), Hl as (? & ? & ? & ?), Hn as (? & ? & ? & ?).
  unfold same_record.
  destruct (isLetter (ch t1)); [destruct (Keywords _); simpl; split_and!; congruence|].
  destruct (isNumber (ch t1)); [simpl; split_and!; congruence|].
  destruct (switch_ch (ch t1)); simpl; split_and!; congruence.
Qed.
End frame.


(** * The constructor's loop *)

Lemma has_type_true (t : Token) (k : TokenItem) :
  has_type t k = true ↔ type t = Some k.
Proof. apply bool_decide_eq_true. Qed.

Lemma has_type_false (t : Token) (k : TokenItem) :
  has_type t k = false ↔ type t ≠ Some k.
Proof. apply bool_decide_eq_false. Qed.


Section constructor_loop.
Implicit Types (t : Tokenizer) (tok : Token) (line : list Token)
  (s : string) (p k n : nat).

Lemma word_token_type ident :
  has_type (word_token ident) TokenType.EoL = false
  ∧ has_type (word_token ident) TokenType.Illegal = false
  ∧ has_type (word_token ident) TokenType.Eof = false
  ∧ is_quote (word_token ident) = false.
Proof.
  unfold word_token, Keywords.
  repeat (case_match; simplify_eq); done.
Qed.

Lemma number_token_type last digits :
  has_type (number_token last digits) TokenType.EoL = false
  ∧ has_type (number_token last digits) TokenType.Illegal = false
  ∧ has_type (number_token last digits) TokenType.Eof = false.
Proof. unfold number_token. by destruct (is_quote last). Qed.

(** A run that starts before a boundary ends at or before it. *)
Lemma run_before_boundary cond s q m n :
  run_at cond s q m → q < n →
  cond (at_pos s n) = false ∨ (0 < n → cond (at_pos s (n - 1)) = false) →
  q + m ≤ n.
Proof.
  intros [Hall _] Hq Hn.
  destruct (decide (q + m ≤ n)) as [|Hgt]; [done|]. exfalso.
  destruct Hn as [Hn|Hn].
  - specialize (Hall (n - q) ltac:(lia)).
    replace (q + (n - q)) with n in Hall by lia. congruence.
  - specialize (Hall (n - 1 - q) ltac:(lia)). specialize (Hn ltac:(lia)).
    replace (q + (n - 1 - q)) with (n - 1) in Hall by lia. congruence.
Qed.

(** One round of the loop, started before a boundary [n] with only
    scannable characters in between: either only blanks are left before
    [n], or the round consumes one token and goes on, still at or before
    [n]. *)
Lemma loop_round s n t line :
  on_cursor t → input t = s → position t ≤ n →
  (∀ i, position t ≤ i < n → scannable (at_pos s i) = true) →
  boundary s n →
  blanks s (position t) n
  ∨ ∃ t2 line2,
      (∀ fuel, constructor_loop (S fuel) t line
               = constructor_loop fuel t2 line2)
      ∧ on_cursor t2 ∧ input t2 = s ∧ position t < position t2 ≤ n
      ∧ loc t2
        = loc t + terminators_in s (position t) (position t2 - position t).
Proof.
  intros Ht <- Hp Hscan (Bl & Bn).
  destruct (getNextToken_cases t Ht) as (k & Hws & Hcases).
  simpl in Hcases. set (p := position t) in *. set (q := p + k) in *.
  destruct (decide (n ≤ q)) as [Hge|Hlt%Nat.nle_gt].
  { left. intros i Hi. destruct Hws as [Hall _].
    replace i with (p + (i - p)) by lia. apply Hall. lia. }
  right.
  assert (terminators_in (input t) p k = 0) as Hk0.
  { apply (terminators_in_none isWhitespace); [done|apply Hws]. }
  destruct (proj1 (scannable_spec _) (Hscan q ltac:(lia))) as [HNUL Hrec].
  destruct Hcases as
    [(Hl & m & Hm & Hrun & Hget)|[(Hd & m & Hm & Hrun & Hget)
    |[(tok & Hs & Hget)|(Hu & _)]]]; [| | |congruence].
  - (* a word *)
    pose proof (run_before_boundary _ _ _ _ _ Hrun Hlt Bl) as Hend.
    simpl in Hget. set (tok := word_token _) in *.
    destruct (word_token_type (slice q (q + m) (input t)))
      as (He & Hi & Hf & _). fold tok in He, Hi, Hf.
    eexists (push_token tok (set_lastToken tok (cursor_at t (q + m)))),
            (line ++ [tok]).
    split_and!; [ |done|done|simpl; lia|simpl; lia|].
    { intros fuel. simpl. by rewrite Hget, He, Hi, Hf. }
    simpl. replace (q + m - p) with (k + m) by lia.
    rewrite terminators_in_add, Hk0.
    rewrite (terminators_in_none isLetter); [lia|done|apply Hrun].
  - (* a number *)
    pose proof (run_before_boundary _ _ _ _ _ Hrun Hlt Bn) as Hend.
    simpl in Hget. set (tok := number_token _ _) in *.
    destruct (number_token_type (lastToken t) (slice q (q + m) (input t)))
      as (He & Hi & Hf). fold tok in He, Hi, Hf.
    eexists (push_token tok (set_lastToken tok (cursor_at t (q + m)))),
            (line ++ [tok]).
    split_and!; [ |done|done|simpl; lia|simpl; lia|].
    { intros fuel. simpl. by rewrite Hget, He, Hi, Hf. }
    simpl. replace (q + m - p) with (k + m) by lia.
    rewrite terminators_in_add, Hk0.
    rewrite (terminators_in_none isNumber); [lia|done|apply Hrun].
  - (* a character of the switch *)
    destruct (switch_ch_Some _ _ Hs) as (Hi & He & Hf & _ & _).
    apply Ascii.eqb_neq in HNUL. rewrite HNUL in Hf.
    assert (terminators_in (input t) p (S q - p)
            = if Ascii.eqb (at_pos (input t) q) "!"%char then 1 else 0)
      as Hcount.
    { replace (S q - p) with (k + 1) by lia.
      rewrite terminators_in_add, Hk0. simpl. fold q. lia. }
    destruct (Ascii.eqb (at_pos (input t) q) "!"%char) eqn:Hbang.
    + eexists (seal_line line (set_lastToken tok (cursor_at t (S q)))), [].
      split_and!; [ |done|done|simpl; lia|simpl; lia|].
      { intros fuel. simpl. by rewrite Hget, He. }
      simpl. fold p. rewrite Hcount. lia.
    + eexists (push_token tok (set_lastToken tok (cursor_at t (S q)))),
              (line ++ [tok]).
      split_and!; [ |done|done|simpl; lia|simpl; lia|].
      { intros fuel. simpl. by rewrite Hget, He, Hi, Hf. }
      simpl. fold p. rewrite Hcount. lia.
Qed.

(** The loop, started before a boundary [n] with only scannable
    characters in between, gets to a round that finds nothing but
    blanks before [n]. *)
Lemma loop_reaches s n fuel t line :
  on_cursor t → input t = s → position t ≤ n →
  (∀ i, position t ≤ i < n → scannable (at_pos s i) = true) →
  boundary s n →
  n - position t < fuel →
  ∃ fuel' t' line',
    constructor_loop fuel t line = constructor_loop (S fuel') t' line'
    ∧ on_cursor t' ∧ input t' = s ∧ position t' ≤ n
    ∧ blanks s (position t') n
    ∧ loc t' = loc t + terminators_in s (position t) (n - position t).
Proof.
  revert t line. induction fuel as [|fuel IH]; intros t line Ht Hin Hp Hscan Hb Hfuel;
    [lia|].
  destruct (loop_round s n t line Ht Hin Hp Hscan Hb)
    as [Hws|(t2 & line2 & Hloop & Ht2 & Hin2 & Hp2 & Hloc2)].
  - exists fuel, t, line. split_and!; [done..|].
    rewrite (terminators_in_none isWhitespace); [lia|done|].
    intros i Hi. apply Hws. lia.
  - destruct (IH t2 line2 Ht2 Hin2 ltac:(lia)) as
      (fuel' & t' & line' & Hgo & Ht' & Hin' & Hp' & Hws' & Hloc');
      [intros i Hi; apply Hscan; lia|done|lia|].
    exists fuel', t', line'. rewrite Hloop. split_and!; [done..|].
    rewrite Hloc', Hloc2.
    replace (n - position t)
      with ((position t2 - position t) + (n - position t2)) by lia.
    rewrite terminators_in_add.
    replace (position t + (position t2 - position t)) with (position t2) by lia.
    lia.
Qed.
End constructor_loop.


(** * How the loop ends *)

Section loop_end.
Implicit Types (t : Tokenizer) (tok : Token) (line : list Token)
  (s : string) (p k n : nat).

Lemma blanks_run s p n :
  blanks s p n → p ≤ n → isWhitespace (at_pos s n) = false →
  run_at isWhitespace s p (n - p).
Proof.
  intros Hb Hp Hn. split.
  - intros i Hi. apply Hb. lia.
  - by replace (p + (n - p)) with n by lia.
Qed.

(** A round that finds an unrecognized character after the blanks
    throws. *)
Lemma round_throws s n fuel t line :
  on_cursor t → input t = s → position t ≤ n →
  blanks s (position t) n →
  unrecognized (at_pos s n) = true →
  constructor_loop (S fuel) t line
  = Some (Throw (Error
      ("Illegal token " +:+ String (at_pos s n) EmptyString
         +:+ " at line " +:+ pretty (loc t)))).
Proof.
  intros Ht <- Hp Hb Hu.
  destruct (getNextToken_cases t Ht) as (k & Hws' & Hcases).
  assert (k = n - position t) as ->.
  { destruct (blanks_run _ _ _ Hb Hp), Hws';
      [by apply unrecognized_spec in Hu as (? & _)|].
    by eapply (run_length_unique isWhitespace). }
  simpl in Hcases.
  replace (position t + (n - position t)) with n in Hcases by lia.
  apply unrecognized_spec in Hu as (_ & Hl & Hn & Hs).
  destruct Hcases as
    [(Hl' & _)|[(Hn' & _)|[(tok & Hs' & _)|(_ & Hget)]]]; [congruence..|].
  simpl. by rewrite Hget.
Qed.

(** A round that finds the end of the input after the blanks ends the
    loop. *)
Lemma round_ends s n fuel t line :
  on_cursor t → input t = s → position t ≤ n →
  blanks s (position t) n →
  at_pos s n = NUL →
  constructor_loop (S fuel) t line
  = Some (Ok (set_lastToken (createToken TokenType.Eof "eof")
                (cursor_at t (S n)))).
Proof.
  intros Ht <- Hp Hb HNUL.
  destruct (getNextToken_cases t Ht) as (k & Hws' & Hcases).
  assert (k = n - position t) as ->.
  { destruct (blanks_run _ _ _ Hb Hp), Hws'; [by rewrite HNUL|].
    by eapply (run_length_unique isWhitespace). }
  simpl in Hcases.
  replace (position t + (n - position t)) with n in Hcases by lia.
  rewrite HNUL in Hcases.
  destruct Hcases as
    [(Hl' & _)|[(Hn' & _)|[(tok & [= <-] & Hget)|(Hu & _)]]]; [done..| |done].
  simpl. by rewrite Hget.
Qed.

(** Every input has a first character that is not scannable, the NUL
    past its end if no other. *)
Lemma first_stop s :
  ∃ n, n ≤ String.length s
       ∧ (∀ i, i < n → scannable (at_pos s i) = true)
       ∧ scannable (at_pos s n) = false.
Proof.
  induction s as [|c s (n & Hn & Hall & Hstop)].
  - exists 0. split_and!; [done|lia|done].
  - destruct (scannable c) eqn:Hc.
    + exists (S n). split_and!; [simpl; lia| |done].
      intros [|i] Hi; [done|]. rewrite at_pos_S. apply Hall. lia.
    + exists 0. split_and!; [lia|lia|done].
Qed.

Lemma stop_is_boundary s n :
  scannable (at_pos s n) = false → boundary s n.
Proof.
  unfold scannable, boundary. rewrite !orb_false_iff. tauto.
Qed.

Lemma not_scannable c :
  scannable c = false → c = NUL ∨ unrecognized c = true.
Proof.
  intros Hc. destruct (decide (c = NUL)) as [|Hne]; [by left|right].
  destruct (unrecognized c) eqn:Hu; [done|].
  rewrite (proj2 (scannable_spec c)) in Hc; done.
Qed.


Lemma before_NUL_at s i :
  i < String.length (before_NUL s) →
  at_pos s i = at_pos (before_NUL s) i ∧ at_pos s i ≠ NUL.
Proof.
  revert i. induction s as [|c s IH]; intros i Hi; simpl in *; [lia|].
  destruct (Ascii.eqb_spec c NUL) as [->|Hc]; simpl in Hi; [lia|].
  destruct i as [|i]; [done|]. rewrite !at_pos_S. apply IH. lia.
Qed.

Lemma before_NUL_end s : at_pos s (String.length (before_NUL s)) = NUL.
Proof.
  induction s as [|c s IH]; simpl; [done|].
  destruct (Ascii.eqb_spec c NUL) as [->|Hc]; [done|]. simpl. by rewrite at_pos_S.
Qed.

Lemma before_NUL_terminators s :
  terminators_in s 0 (String.length (before_NUL s))
  = count_terminators (before_NUL s).
Proof.
  induction s as [|c s IH]; simpl; [done|].
  destruct (Ascii.eqb_spec c NUL) as [->|Hc]; [done|]. simpl.
  by rewrite terminators_in_shift, IH.
Qed.

(** The lexer on a text with only scannable characters before index
    [n], from the first call. *)
Lemma lexer_reaches s n :
  n ≤ String.length s →
  (∀ i, i < n → scannable (at_pos s i) = true) →
  boundary s n →
  ∃ fuel' t' line',
    new_Tokenizer s = constructor_loop (S fuel') t' line'
    ∧ on_cursor t' ∧ input t' = s ∧ position t' ≤ n
    ∧ blanks s (position t') n
    ∧ loc t' = terminators_in s 0 n.
Proof.
  intros Hn Hall Hb. unfold new_Tokenizer. rewrite readChar_initial.
  destruct (loop_reaches s n (String.length s + 2) (cursor_at (initial s) 0) [])
    as (fuel' & t' & line' & Hgo & Ht' & Hin' & Hp' & Hws' & Hloc');
    [done|done|simpl; lia|intros i Hi; apply Hall; simpl in Hi; lia|done|simpl; lia|].
  simpl in Hloc'. rewrite Nat.sub_0_r in Hloc'. by exists fuel', t', line'.
Qed.

(** The two outcomes of lexing. *)
Lemma lexer_outcome s :
  (∃ t', new_Tokenizer s = Some (Ok t')
         ∧ all_chars scannable (before_NUL s) = true
         ∧ loc t' = count_terminators (before_NUL s))
  ∨ (∃ n, n < String.length (before_NUL s)
          ∧ (∀ i, i < n → scannable (at_pos s i) = true)
          ∧ unrecognized (at_pos s n) = true
          ∧ new_Tokenizer s
            = Some (Throw (Error
                ("Illegal token " +:+ String (at_pos s n) EmptyString
                   +:+ " at line " +:+ pretty (terminators_in s 0 n))))).
Proof.
  destruct (first_stop s) as (n & Hn & Hall & Hstop).
  destruct (lexer_reaches s n Hn Hall (stop_is_boundary _ _ Hstop))
    as (fuel' & t' & line' & Hgo & Ht' & Hin' & Hp' & Hws' & Hloc').
  assert (n ≤ String.length (before_NUL s)) as Hle.
  { destruct (decide (n ≤ String.length (before_NUL s))) as [|Hgt]; [done|].
    specialize (Hall (String.length (before_NUL s)) ltac:(lia)).
    by rewrite before_NUL_end in Hall. }
  destruct (not_scannable _ Hstop) as [HNUL|Hu].
  - left. eexists. split; [rewrite Hgo; by eapply round_ends|].
    assert (n = String.length (before_NUL s)) as ->.
    { destruct (decide (n = String.length (before_NUL s))) as [|Hne]; [done|].
      by destruct (before_NUL_at s n ltac:(lia)). }
    split; [|simpl; by rewrite Hloc', before_NUL_terminators].
    apply all_chars_at. intros i Hi.
    destruct (before_NUL_at s i Hi) as [<- _]. by apply Hall.
  - right. exists n. split.
    { destruct (decide (n = String.length (before_NUL s))) as [->|Hne]; [|lia].
      by rewrite before_NUL_end in Hu. }
    split_and!; [done..|]. rewrite Hgo, <-Hloc'. by eapply round_throws.
Qed.

Lemma new_Tokenizer_terminates s : is_Some (new_Tokenizer s).
Proof.
  destruct (lexer_outcome s) as [(t' & -> & _)|(n & _ & _ & _ & ->)]; eauto.
Qed.
End loop_end.


(** * Lines as groups of the token stream *)

Section lines.
Implicit Types (t : Tokenizer) (tok : Token) (line : list Token)
  (s : string).

Lemma while_ch_seal_line cond fuel l t :
  while_ch cond fuel (seal_line l t) = seal_line l (while_ch cond fuel t).
Proof.
  revert t. induction fuel as [|fuel IH]; intros t; simpl; [done|].
  destruct (cond (ch t)); [|done]. by rewrite <-IH.
Qed.

Lemma while_ch_push_token cond fuel tok t :
  while_ch cond fuel (push_token tok t) = push_token tok (while_ch cond fuel t).
Proof.
  revert t. induction fuel as [|fuel IH]; intros t; simpl; [done|].
  destruct (cond (ch t)); [|done]. by rewrite <-IH.
Qed.

Lemma getNextToken_seal_line l t :
  getNextToken (seal_line l t)
  = ((getNextToken t).1, seal_line l (getNextToken t).2).
Proof.
  unfold getNextToken, skipWhitespace, readIdent, readInt.
  change (input (seal_line l t)) with (input t).
  rewrite while_ch_seal_line.
  set (t1 := while_ch isWhitespace _ t).
  change (input (seal_line l t1)) with (input t1).
  change (ch (seal_line l t1)) with (ch t1).
  rewrite !while_ch_seal_line.
  set (tl := while_ch isLetter _ t1). set (tn := while_ch isNumber _ t1).
  clearbody tl tn t1.
  destruct (isLetter (ch t1)); [by destruct (Keywords _)|].
  destruct (isNumber (ch t1)); [done|].
  by destruct (switch_ch (ch t1)).
Qed.

Lemma getNextToken_push_token tok t :
  getNextToken (push_token tok t)
  = ((getNextToken t).1, push_token tok (getNextToken t).2).
Proof.
  unfold getNextToken, skipWhitespace, readIdent, readInt.
  change (input (push_token tok t)) with (input t).
  rewrite while_ch_push_token.
  set (t1 := while_ch isWhitespace _ t).
  change (input (push_token tok t1)) with (input t1).
  change (ch (push_token tok t1)) with (ch t1).
  rewrite !while_ch_push_token.
  set (tl := while_ch isLetter _ t1). set (tn := while_ch isNumber _ t1).
  clearbody tl tn t1.
  destruct (isLetter (ch t1)); [by destruct (Keywords _)|].
  destruct (isNumber (ch t1)); [done|].
  by destruct (switch_ch (ch t1)).
Qed.

Lemma token_stream_seal_line fuel l t :
  token_stream_from fuel (seal_line l t) = token_stream_from fuel t.
Proof.
  revert l t. induction fuel as [|fuel IH]; intros l t; simpl; [done|].
  rewrite getNextToken_seal_line. destruct (getNextToken t) as [tok t1]; simpl.
  by rewrite IH.
Qed.

Lemma token_stream_push_token fuel tok t :
  token_stream_from fuel (push_token tok t) = token_stream_from fuel t.
Proof.
  revert tok t. induction fuel as [|fuel IH]; intros tok t; simpl; [done|].
  rewrite getNextToken_push_token. destruct (getNextToken t) as [tok1 t1]; simpl.
  by rewrite IH.
Qed.

(** The only token of kind [EoL] the lexer returns. *)
Lemma getNextToken_terminator t :
  on_cursor t →
  has_type (getNextToken t).1 TokenType.EoL = true →
  (getNextToken t).1 = terminator.
Proof.
  intros Ht. destruct (getNextToken_cases t Ht) as (k & _ & Hcases).
  simpl in Hcases.
  destruct Hcases as
    [(_ & m & _ & _ & ->)|[(_ & m & _ & _ & ->)|[(tok & Hs & ->)|(_ & ->)]]];
    simpl.
  - by destruct (word_token_type (slice (position t + k) (position t + k + m) (input t)))
      as (-> & _).
  - by destruct (number_token_type (lastToken t)
                (slice (position t + k) (position t + k + m) (input t)))
      as (-> & _).
  - destruct (switch_ch_Some _ _ Hs) as (_ & -> & _ & _ & Htok).
    intros Hc%Ascii.eqb_eq. rewrite Hc in Hs. by injection Hs as <-.
  - done.
Qed.

Lemma getNextToken_on_cursor t :
  on_cursor t → on_cursor (getNextToken t).2.
Proof.
  intros Ht. destruct (getNextToken_cases t Ht) as (k & _ & Hcases).
  simpl in Hcases.
  by destruct Hcases as
    [(_ & m & _ & _ & ->)|[(_ & m & _ & _ & ->)|[(tok & Hs & ->)|(_ & ->)]]].
Qed.

Lemma terminated_seal ls line :
  terminated (ls ++ [line]) [] = terminated ls line ++ [terminator].
Proof.
  unfold terminated. rewrite map_app, concat_app. simpl.
  by rewrite !app_nil_r, <-!app_assoc.
Qed.

Lemma terminated_push ls line tok :
  terminated ls (line ++ [tok]) = terminated ls line ++ [tok].
Proof. unfold terminated. by rewrite app_assoc. Qed.

(** The loop seals what the stream holds: when it ends, [lines] are the
    terminated groups of the stream, [tokens] the stream without its
    terminators, and the group after the last terminator is in
    [tokens] but in no line. *)
Lemma loop_groups fuel t line t' :
  constructor_loop fuel t line = Some (Ok t') →
  on_cursor t →
  Forall no_terminator (lines t) → no_terminator line →
  tokens t = concat (lines t) ++ line →
  length (lines t) = loc t →
  ∃ trailing,
    terminated (lines t) line ++ token_stream_from fuel t
      = terminated (lines t') trailing
    ∧ Forall no_terminator (lines t') ∧ no_terminator trailing
    ∧ tokens t' = concat (lines t') ++ trailing
    ∧ length (lines t') = loc t'.
Proof.
  revert t line. induction fuel as [|fuel IH]; intros t line Hloop Ht Hls Hl Htok Hloc;
    [done|].
  simpl in Hloop |- *.
  pose proof (getNextToken_terminator t Ht) as Hterm.
  pose proof (getNextToken_on_cursor t Ht) as Ht1.
  destruct (getNextToken_record t) as (Hr1 & Hr2 & Hr3 & _).
  destruct (getNextToken t) as [tok t1]; simpl in *.
  destruct (has_type tok TokenType.EoL) eqn:He.
  - rewrite Hterm in * by done. simpl.
    destruct (IH _ _ Hloop) as (trailing & Hst & Hls' & Htr & Htok' & Hloc');
      [done|simpl; rewrite Hr3; apply Forall_app; split; [done|by apply Forall_singleton]
      |by apply Forall_nil| |simpl; rewrite Hr3, Hr1, length_app; simpl; lia|].
    { simpl. rewrite Hr2, Hr3, Htok, concat_app. simpl. by rewrite !app_nil_r. }
    exists trailing. split_and!; [|done..].
    rewrite <-Hst, token_stream_seal_line. simpl. rewrite Hr3, terminated_seal.
    by rewrite <-app_assoc.
  - destruct (has_type tok TokenType.Illegal) eqn:Hi; [done|].
    destruct (has_type tok TokenType.Eof) eqn:Hf.
    + injection Hloop as <-. exists line. simpl.
      rewrite app_nil_r, Hr1, Hr2, Hr3. by split_and!.
    + simpl.
      destruct (IH _ _ Hloop) as (trailing & Hst & Hls' & Htr & Htok' & Hloc');
        [done|simpl; by rewrite Hr3| |simpl; by rewrite Hr2, Hr3, Htok, app_assoc
        |simpl; by rewrite Hr3, Hr1|].
      { apply Forall_app. split; [done|]. apply Forall_singleton.
        unfold has_type in He. by apply bool_decide_eq_false in He. }
      exists trailing. split_and!; [|done..].
      rewrite <-Hst, token_stream_push_token. simpl.
      by rewrite Hr3, terminated_push, <-app_assoc.
Qed.
End lines.


(** * Lexer theorems *)

Section lexer_theorems.
Implicit Types (t : Tokenizer) (tok : Token) (s pre ws run post : string).

Lemma string_app_assoc (a b d : string) : (a +:+ b) +:+ d = a +:+ b +:+ d.
Proof. induction a as [|c a IH]; [done|]. by rewrite !app_String, IH. Qed.

Lemma run_at_app cond pre run post :
  all_chars cond run = true → cond (at_pos post 0) = false →
  run_at cond (pre +:+ run +:+ post) (String.length pre) (String.length run).
Proof.
  intros Hall Hend. split.
  - intros i Hi. rewrite at_pos_app_r, at_pos_app_l by done.
    by apply all_chars_at.
  - rewrite at_pos_app_r. rewrite <-(Nat.add_0_r (String.length run)).
    by rewrite at_pos_app_r.
Qed.

Lemma getNextToken_lastToken t :
  on_cursor t →
  has_type (getNextToken t).1 TokenType.Illegal = false →
  lastToken (getNextToken t).2 = (getNextToken t).1.
Proof.
  intros Ht. destruct (getNextToken_cases t Ht) as (k & _ & Hcases).
  simpl in Hcases.
  by destruct Hcases as
    [(_ & m & _ & _ & ->)|[(_ & m & _ & _ & ->)|[(tok & Hs & ->)|(_ & ->)]]].
Qed.

Lemma first_of_run cond run post :
  all_chars cond run = true → run ≠ EmptyString →
  cond (at_pos (run +:+ post) 0) = true.
Proof. destruct run as [|c run]; [done|]. simpl. by intros [? _]%andb_true_iff. Qed.

(** One call of [getNextToken] with the cursor before a digit run that no
    digit follows, blanks apart: it returns one token whose literal is
    the run; its kind is [Ident] when [lastToken], the token the previous
    call returned, is a single or double quote, and [Int] otherwise.  The
    cursor is left behind the run and the token becomes [lastToken]. *)
Lemma digit_run_token t pre ws run post :
  on_cursor t →
  input t = pre +:+ ws +:+ run +:+ post →
  position t = String.length pre →
  all_chars isWhitespace ws = true →
  all_chars isNumber run = true →
  run ≠ EmptyString →
  isNumber (at_pos post 0) = false →
  let tok :=
    createToken
      (if is_quote (lastToken t) then TokenType.Ident else TokenType.Int)
      run in
  getNextToken t
  = (tok,
     set_lastToken tok
       (cursor_at t
          (String.length pre + String.length ws + String.length run))).
Proof.
  intros Ht Hin Hp Hws Hrun Hne Hpost tok.
  destruct (getNextToken_cases t Ht) as (k & Hk & Hcases).
  rewrite Hin, Hp in Hk, Hcases. simpl in Hcases.
  pose proof (first_of_run isNumber run post Hrun Hne) as Hfirst.
  assert (k = String.length ws) as ->.
  { destruct Hk as [Hk1 Hk2].
    destruct (run_at_app isWhitespace pre ws (run +:+ post) Hws) as [Hw1 Hw2].
    { destruct (char_classes (at_pos (run +:+ post) 0))
        as [(_ & _ & ? & _)|[(? & _)|[(? & _)|[(? & _)|(? & _)%unrecognized_spec]]]];
        congruence. }
    by eapply (run_length_unique isWhitespace). }
  set (q := String.length pre + String.length ws) in *.
  assert (input t = (pre +:+ ws) +:+ run +:+ post) as Hin'
    by (by rewrite Hin, string_app_assoc).
  assert (q = String.length (pre +:+ ws)) as Hq
    by (by rewrite string_length_app).
  assert (at_pos (input t) q = at_pos (run +:+ post) 0) as Hc.
  { by rewrite Hin', Hq, <-(Nat.add_0_r (String.length (pre +:+ ws))), at_pos_app_r. }
  rewrite <-Hin, Hc in Hcases.
  destruct (char_classes (at_pos (run +:+ post) 0))
    as [(_ & _ & Hn & _)|[(_ & _ & Hn & _)|[(_ & Hl & _ & Hs)
       |[(_ & _ & Hn & _)|(_ & _ & Hn & _)%unrecognized_spec]]]];
    [congruence..| |congruence|congruence].
  destruct Hcases as
    [(Hl' & _)|[(_ & m & _ & Hm & Hget)|[(tok' & Hs' & _)|(Hu & _)]]];
    [congruence| |congruence|].
  2:{ apply unrecognized_spec in Hu. destruct Hu as (_ & _ & ? & _). congruence. }
  assert (m = String.length run) as ->.
  { destruct Hm as [Hm1 Hm2].
    destruct (run_at_app isNumber (pre +:+ ws) run post Hrun Hpost) as [Hr1 Hr2].
    rewrite <-Hin', <-Hq in Hr1, Hr2.
    by eapply (run_length_unique isNumber). }
  assert (slice q (q + String.length run) (input t) = run) as Hslice
    by (by rewrite Hin', Hq, slice_app_mid).
  rewrite Hget, Hslice. unfold number_token, tok.
  by destruct (is_quote (lastToken t)).
Qed.

(** C6.  A character that is none of whitespace, letter, digit or case
    of the [switch], met after scannable text only, ends the run with an
    [Error] whose message holds the character and the number of
    terminators lexed before it; nothing is written to the output. *)
Theorem illegal_character_aborts pre post (c : ascii) :
  all_chars scannable pre = true →
  unrecognized c = true →
  let message :=
    "Illegal token " +:+ String c EmptyString +:+ " at line "
      +:+ pretty (count_terminators pre) in
  new_Tokenizer (pre +:+ String c post) = Some (Throw (Error message))
  ∧ main (pre +:+ String c post) = Some (mkRun ∅ [] (Some (Error message))).
Proof.
  intros Hpre Hu message. set (s := pre +:+ String c post).
  assert (at_pos s (String.length pre) = c) as Hc.
  { unfold s. by rewrite <-(Nat.add_0_r (String.length pre)), at_pos_app_r. }
  assert (new_Tokenizer s = Some (Throw (Error message))) as Hlex.
  { destruct (lexer_reaches s (String.length pre))
      as (fuel' & t' & line' & Hgo & Ht' & Hin' & Hp' & Hws' & Hloc').
    - unfold s. rewrite string_length_app. lia.
    - intros i Hi. unfold s. rewrite at_pos_app_l by done.
      by apply all_chars_at.
    - apply stop_is_boundary. rewrite Hc.
      destruct (scannable c) eqn:Hsc; [|done].
      apply scannable_spec in Hsc. destruct Hsc; congruence.
    - rewrite Hgo.
      rewrite (round_throws s (String.length pre)); [|done..|by rewrite Hc].
      unfold message. rewrite Hc, Hloc'. unfold s.
      by rewrite terminators_in_prefix. }
  split; [done|]. unfold main. by rewrite Hlex.
Qed.

(** Lexing a text with no unrecognized character completes.  When
    lexing completes, no line holds a terminator, there is one line per
    terminator of the text, and the token stream is made of the lines,
    each followed by its terminator, and of a trailing group without
    terminator that is part of [tokens] but of no line. *)
Lemma lines_of_stream s :
  (all_chars scannable (before_NUL s) = true →
   ∃ t', new_Tokenizer s = Some (Ok t'))
  ∧ ∀ t', new_Tokenizer s = Some (Ok t') →
      Forall no_terminator (lines t')
      ∧ length (lines t') = count_terminators (before_NUL s)
      ∧ ∃ trailing,
          token_stream s = terminated (lines t') trailing
          ∧ no_terminator trailing
          ∧ tokens t' = concat (lines t') ++ trailing.
Proof.
  split.
  - intros Hall.
    destruct (lexer_outcome s) as [(t' & -> & _)|(n & Hn & _ & Hu & _)]; [eauto|].
    exfalso. destruct (before_NUL_at s n Hn) as [Heq _].
    pose proof (proj1 (all_chars_at _ _) Hall n Hn) as Hsc.
    rewrite <-Heq in Hsc. apply scannable_spec in Hsc. destruct Hsc; congruence.
  - intros t' Hlex.
    destruct (lexer_outcome s) as [(t'' & Hlex' & _ & Hloc)|(n & _ & _ & _ & Hlex')];
      [|congruence].
    assert (t'' = t') as -> by congruence.
    destruct (loop_groups (String.length s + 2) (readChar (initial s)) [] t')
      as (trailing & Hst & Hls & Htr & Htok & Hlen);
      [done|by rewrite readChar_initial|by apply Forall_nil|by apply Forall_nil
      |done|done|].
    split_and!; [done|congruence|]. by exists trailing.
Qed.
End lexer_theorems.

(** * Lexing a text and lexing its beginning *)

Section prefix.
Implicit Types (t : Tokenizer) (tok : Token) (s : string) (p q k m n : nat).


Lemma substring_0_0 s : String.substring 0 0 s = EmptyString.
Proof. by destruct s. Qed.

Lemma substring_from_0 s1 s2 m :
  (∀ i, i < m → at_pos s1 i = at_pos s2 i ∧ at_pos s1 i ≠ NUL) →
  String.substring 0 m s1 = String.substring 0 m s2.
Proof.
  revert s1 s2. induction m as [|m IH]; intros s1 s2 H.
  - by rewrite !substring_0_0.
  - destruct (H 0 ltac:(lia)) as [H0 Hn0].
    destruct s1 as [|c1 s1]; [done|].
    destruct s2 as [|c2 s2]; [by rewrite at_pos_0 in H0|].
    rewrite !at_pos_0 in H0. subst c2. simpl. f_equal. apply IH.
    intros i Hi. specialize (H (S i) ltac:(lia)). by rewrite !at_pos_S in H.
Qed.

Lemma substring_same s1 s2 q m :
  (∀ i, i < q + m → at_pos s1 i = at_pos s2 i ∧ at_pos s1 i ≠ NUL) →
  String.substring q m s1 = String.substring q m s2.
Proof.
  revert s1 s2. induction q as [|q IH]; intros s1 s2 H.
  - by apply substring_from_0.
  - destruct (H 0 ltac:(lia)) as [H0 Hn0].
    destruct s1 as [|c1 s1]; [done|].
    destruct s2 as [|c2 s2]; [by rewrite at_pos_0 in H0|].
    simpl. apply IH. intros i Hi.
    specialize (H (S i) ltac:(lia)). by rewrite !at_pos_S in H.
Qed.

Lemma scannable_not_NUL c : scannable c = true → c ≠ NUL.
Proof. by intros [? _]%scannable_spec. Qed.

Lemma slice_same s1 s2 q m n :
  same_prefix s1 s2 n →
  (∀ i, i < n → scannable (at_pos s1 i) = true) →
  q + m ≤ n →
  slice q (q + m) s1 = slice q (q + m) s2.
Proof.
  intros Hsame Hscan Hle. unfold slice.
  replace (q + m - q) with m by lia. apply substring_same.
  intros i Hi. split; [apply Hsame; lia|].
  apply scannable_not_NUL, Hscan. lia.
Qed.

(** A run in [s1] that ends at or before [n] is a run in a text with the
    same first [n] characters that has a boundary at [n] too. *)
Lemma run_at_same cond s1 s2 q m n :
  same_prefix s1 s2 n →
  run_at cond s1 q m → q + m ≤ n →
  (q + m = n → cond (at_pos s2 n) = false) →
  run_at cond s2 q m.
Proof.
  intros Hsame [Hall Hend] Hle Hn. split.
  - intros i Hi. rewrite <-Hsame by lia. by apply Hall.
  - destruct (decide (q + m = n)) as [Heq|Hne]; [rewrite Heq; by apply Hn|].
    rewrite <-Hsame by lia. done.
Qed.
End prefix.


Lemma one_class (c : ascii) :
  (isLetter c = true → isNumber c = false ∧ switch_ch c = None)
  ∧ (isNumber c = true → switch_ch c = None).
Proof.
  destruct (char_classes c) as
    [(_ & Hl & Hn & Hs)|[(_ & Hl & Hn & Hs)|[(_ & Hl & Hn & Hs)
    |[(_ & Hl & Hn & Hs)|(_ & Hl & Hn & Hs)%unrecognized_spec]]]];
    rewrite Hl, Hn; split; intros; try done; split; done.
Qed.

(** [getNextToken_cases] for a known run of blanks. *)
Lemma getNextToken_after_blanks (t : Tokenizer) (k : nat) :
  on_cursor t →
  run_at isWhitespace (input t) (position t) k →
  let q := position t + k in
  let c := at_pos (input t) q in
  (isLetter c = true
   ∧ ∃ m, 0 < m ∧ run_at isLetter (input t) q m
       ∧ let tok := word_token (slice q (q + m) (input t)) in
         getNextToken t = (tok, set_lastToken tok (cursor_at t (q + m))))
  ∨ (isNumber c = true
     ∧ ∃ m, 0 < m ∧ run_at isNumber (input t) q m
         ∧ let tok := number_token (lastToken t) (slice q (q + m) (input t)) in
           getNextToken t = (tok, set_lastToken tok (cursor_at t (q + m))))
  ∨ (∃ tok, switch_ch c = Some tok
       ∧ getNextToken t = (tok, set_lastToken tok (cursor_at t (S q))))
  ∨ (unrecognized c = true
     ∧ getNextToken t
       = (createToken TokenType.Illegal (String c EmptyString), cursor_at t q)).
Proof.
  intros Ht [Hk1 Hk2]. destruct (getNextToken_cases t Ht) as (k' & [Hk1' Hk2'] & Hcases).
  assert (k = k') as ->
    by (by eapply (run_length_unique isWhitespace (input t) (position t))).
  done.
Qed.

Section two_texts.
Context (s1 s2 : string) (n : nat).
Context (Hsame : same_prefix s1 s2 n).
Context (Hscan : ∀ i, i < n → scannable (at_pos s1 i) = true).
Context (Hboundary : boundary s1 n).
Context (Hend : at_pos s2 n = NUL).
Implicit Types (t : Tokenizer) (tok : Token) (p q k m : nat).

(** One call on each text, from the same cursor before [n]: either only
    blanks are left before [n], or both calls return the same token and
    leave the same cursor, still at or before [n]. *)
Lemma same_round t1 t2 :
  on_cursor t1 → on_cursor t2 → input t1 = s1 → input t2 = s2 →
  position t2 = position t1 → position t1 ≤ n →
  lastToken t2 = lastToken t1 →
  blanks s1 (position t1) n
  ∨ ∃ tok q,
      position t1 < q ≤ n
      ∧ has_type tok TokenType.Illegal = false
      ∧ has_type tok TokenType.Eof = false
      ∧ getNextToken t1 = (tok, set_lastToken tok (cursor_at t1 q))
      ∧ getNextToken t2 = (tok, set_lastToken tok (cursor_at t2 q)).
Proof.
  intros Ht1 Ht2 Hin1 Hin2 Hpos Hp Hlast.
  destruct Hboundary as (Bl & Bn).
  destruct (getNextToken_cases t1 Ht1) as (k & Hws & Hcases).
  rewrite Hin1 in Hws, Hcases. simpl in Hcases.
  set (p := position t1) in *. set (q := p + k) in *.
  destruct (decide (n ≤ q)) as [Hge|Hlt%Nat.nle_gt].
  { left. intros i Hi. destruct Hws as [Hall _].
    replace i with (p + (i - p)) by lia. apply Hall. lia. }
  right.
  assert (run_at isWhitespace s2 p k) as Hws2.
  { apply (run_at_same _ s1 _ _ _ n); [done|done|..]; unfold q in Hlt; lia. }
  pose proof (getNextToken_after_blanks t2 k Ht2) as Hcases2.
  rewrite Hin2, Hpos in Hcases2. specialize (Hcases2 Hws2). simpl in Hcases2.
  fold p q in Hcases2. rewrite <-(Hsame q Hlt) in Hcases2.
  destruct (proj1 (scannable_spec _) (Hscan q Hlt)) as [HNUL Hrec].
  destruct (one_class (at_pos s1 q)) as [Hex1 Hex2].
  destruct Hcases as
    [(Hl & m & Hm & Hrun & Hget)|[(Hd & m & Hm & Hrun & Hget)
    |[(tok & Hs & Hget)|(Hu & _)]]]; [| | |congruence].
  - (* a word *)
    pose proof (run_before_boundary _ _ _ _ _ Hrun Hlt Bl) as Hle.
    destruct (word_token_type (slice q (q + m) s1)) as (_ & Hi & Hf & _).
    exists (word_token (slice q (q + m) s1)), (q + m).
    split_and!; [lia|lia|done|done|exact Hget|].
    destruct (Hex1 Hl) as [Hnd Hns].
    destruct Hcases2 as
      [(_ & m2 & _ & Hrun2 & Hget2)|[(Hd2 & _)|[(tok2 & Hs2 & _)|(Hu2 & _)]]].
    + assert (m2 = m) as ->.
      { destruct Hrun2 as [? ?].
        destruct (run_at_same isLetter s1 s2 q m n Hsame Hrun Hle) as [? ?];
          [by rewrite Hend|].
        by eapply (run_length_unique isLetter). }
      by rewrite Hget2, (slice_same s1 s2 q m n).
    + congruence.
    + congruence.
    + apply unrecognized_spec in Hu2 as (_ & ? & _). congruence.
  - (* a number *)
    pose proof (run_before_boundary _ _ _ _ _ Hrun Hlt Bn) as Hle.
    destruct (number_token_type (lastToken t1) (slice q (q + m) s1))
      as (_ & Hi & Hf).
    exists (number_token (lastToken t1) (slice q (q + m) s1)), (q + m).
    split_and!; [lia|lia|done|done|exact Hget|].
    pose proof (Hex2 Hd) as Hns.
    destruct Hcases2 as
      [(Hl2 & _)|[(_ & m2 & _ & Hrun2 & Hget2)|[(tok2 & Hs2 & _)|(Hu2 & _)]]].
    + destruct (Hex1 Hl2). congruence.
    + assert (m2 = m) as ->.
      { destruct Hrun2 as [? ?].
        destruct (run_at_same isNumber s1 s2 q m n Hsame Hrun Hle) as [? ?];
          [by rewrite Hend|].
        by eapply (run_length_unique isNumber). }
      by rewrite Hget2, Hlast, (slice_same s1 s2 q m n).
    + congruence.
    + apply unrecognized_spec in Hu2 as (_ & _ & ? & _). congruence.
  - (* a character of the switch *)
    destruct (switch_ch_Some _ _ Hs) as (Hi & _ & Hf & _ & _).
    apply Ascii.eqb_neq in HNUL. rewrite HNUL in Hf.
    exists tok, (S q). split_and!; [lia|lia|done|done|done|].
    destruct Hcases2 as
      [(Hl2 & _)|[(Hd2 & _)|[(tok2 & Hs2 & Hget2)|(Hu2 & _)]]].
    + destruct (Hex1 Hl2). congruence.
    + pose proof (Hex2 Hd2). congruence.
    + congruence.
    + apply unrecognized_spec in Hu2 as (_ & _ & _ & ?). congruence.
Qed.
End two_texts.


Section two_texts_stream.
Context (s1 s2 : string) (n : nat).
Context (Hsame : same_prefix s1 s2 n).
Context (Hscan : ∀ i, i < n → scannable (at_pos s1 i) = true).
Context (Hboundary : boundary s1 n).
Context (Hend : at_pos s2 n = NUL).
Implicit Types (t : Tokenizer) (tok : Token) (p q k m : nat).

Lemma last_token_cons initial_token tok (emitted : list Token) :
  last_token initial_token (tok :: emitted) = last_token tok emitted.
Proof.
  unfold last_token. rewrite last_cons. by destruct (last emitted).
Qed.

(** A call that finds the end of the input after the blanks returns the
    [Eof] token. *)
Lemma getNextToken_Eof t k :
  on_cursor t →
  run_at isWhitespace (input t) (position t) k →
  at_pos (input t) (position t + k) = NUL →
  has_type (getNextToken t).1 TokenType.Eof = true.
Proof.
  intros Ht Hws HNUL.
  pose proof (getNextToken_after_blanks t k Ht Hws) as Hcases.
  simpl in Hcases. rewrite HNUL in Hcases.
  by destruct Hcases as
    [(? & _)|[(? & _)|[(tok & [= <-] & ->)|(? & _)]]].
Qed.

(** The token stream of the first text starts with the whole token stream
    of the second, and goes on from a round that finds only blanks before
    [n]. *)
Lemma same_stream fuel1 fuel2 t1 t2 :
  on_cursor t1 → on_cursor t2 → input t1 = s1 → input t2 = s2 →
  position t2 = position t1 → position t1 ≤ n →
  lastToken t2 = lastToken t1 →
  n - position t1 < fuel1 → n - position t1 < fuel2 →
  ∃ fuel' t',
    token_stream_from fuel1 t1
    = token_stream_from fuel2 t2 ++ token_stream_from (S fuel') t'
    ∧ on_cursor t' ∧ input t' = s1 ∧ position t' ≤ n
    ∧ blanks s1 (position t') n
    ∧ lastToken t'
      = last_token (lastToken t1) (token_stream_from fuel2 t2).
Proof.
  revert fuel2 t1 t2.
  induction fuel1 as [|fuel1 IH];
    intros [|fuel2] t1 t2 Ht1 Ht2 Hin1 Hin2 Hpos Hp Hlast Hf1 Hf2; [lia..|].
  destruct (same_round s1 s2 n Hsame Hscan Hboundary Hend t1 t2)
    as [Hws|(tok & q & Hq & Hi & Hf & Hget1 & Hget2)]; [done..| |].
  - exists fuel1, t1.
    assert (token_stream_from (S fuel2) t2 = []) as ->.
    { assert (has_type (getNextToken t2).1 TokenType.Eof = true) as HEof.
      { apply (getNextToken_Eof t2 (n - position t1)); [done| |].
        - rewrite Hin2, Hpos. apply blanks_run; [|done|by rewrite Hend].
          intros i Hi. rewrite <-Hsame by lia. by apply Hws.
        - rewrite Hin2, Hpos. by replace (position t1 + (n - position t1)) with n by lia. }
      simpl. destruct (getNextToken t2) as [tok t2']. simpl in HEof.
      by rewrite HEof, orb_true_r. }
    by split_and!.
  - simpl. rewrite Hget1, Hget2, Hi, Hf. simpl.
    destruct (IH fuel2 (set_lastToken tok (cursor_at t1 q))
                (set_lastToken tok (cursor_at t2 q)))
      as (fuel' & t' & Hst & Ht' & Hin' & Hp' & Hws' & Hlast');
      [done|done|done|done|done|simpl; lia|done|simpl; lia|simpl; lia|].
    exists fuel', t'. rewrite Hst, last_token_cons. by split_and!.
Qed.
End two_texts_stream.

Section prefix_stream.
Implicit Types (t : Tokenizer) (tok : Token) (pre rest run post : string).

(** The token stream of a text starts with the token stream of a
    beginning of it that is scannable and ends on a boundary, and goes
    on from a cursor with only blanks before the rest of the text. *)
Lemma token_stream_prefix pre rest :
  all_chars scannable pre = true →
  boundary (pre +:+ rest) (String.length pre) →
  ∃ fuel' t',
    token_stream (pre +:+ rest)
    = token_stream pre ++ token_stream_from (S fuel') t'
    ∧ on_cursor t' ∧ input t' = pre +:+ rest
    ∧ position t' ≤ String.length pre
    ∧ blanks (pre +:+ rest) (position t') (String.length pre)
    ∧ lastToken t' = last_token no_token (token_stream pre).
Proof.
  intros Hpre Hb. unfold token_stream. rewrite !readChar_initial.
  assert (same_prefix (pre +:+ rest) pre (String.length pre)) as Hsame
    by (intros i Hi; by apply at_pos_app_l).
  assert (∀ i, i < String.length pre →
            scannable (at_pos (pre +:+ rest) i) = true) as Hscan.
  { intros i Hi. rewrite at_pos_app_l by done. by apply all_chars_at. }
  assert (at_pos pre (String.length pre) = NUL) as Hend by (by apply at_pos_ge).
  destruct (same_stream _ _ _ Hsame Hscan Hb Hend
              (String.length (pre +:+ rest) + 2) (String.length pre + 2)
              (cursor_at (initial (pre +:+ rest)) 0)
              (cursor_at (initial pre) 0))
    as (fuel' & t' & Hst & Ht' & Hin' & Hp' & Hws' & Hlast');
    [done|done|done|done|done|simpl; lia|done
    |rewrite string_length_app; simpl; lia|simpl; lia|].
  exists fuel', t'. by split_and!.
Qed.

(** C5.  A maximal digit run that comes after scannable text is lexed,
    after the tokens of that text, to one token whose literal is the run;
    its kind is [Ident] when the token emitted just before is of kind
    [SingleQuote] or of kind [DoubleQuote], and [Int] otherwise, also when
    no token was emitted before.  The lexer goes on from the character
    after the run, with that token as [lastToken]. *)
Theorem digit_runs_lexed pre run post :
  all_chars scannable pre = true →
  all_chars isNumber run = true →
  run ≠ EmptyString →
  isNumber (at_pos pre (String.length pre - 1)) = false →
  isNumber (at_pos post 0) = false →
  let kind :=
    match last (token_stream pre) with
    | Some before =>
        if decide (type before = Some TokenType.SingleQuote
                   ∨ type before = Some TokenType.DoubleQuote)
        then TokenType.Ident
        else TokenType.Int
    | None => TokenType.Int
    end in
  let tok := createToken kind run in
  ∃ fuel t,
    input t = pre +:+ run +:+ post
    ∧ token_stream (pre +:+ run +:+ post)
      = token_stream pre
        ++ tok
           :: token_stream_from fuel
                (set_lastToken tok
                   (cursor_at t (String.length pre + String.length run))).
Proof.
  intros Hpre Hrun Hne Hleft Hright kind tok.
  pose proof (first_of_run isNumber run post Hrun Hne) as Hfirst.
  set (s := pre +:+ run +:+ post). set (n := String.length pre).
  assert (at_pos s n = at_pos (run +:+ post) 0) as Hc.
  { unfold s, n. by rewrite <-(Nat.add_0_r (String.length pre)), at_pos_app_r. }
  destruct (one_class (at_pos s n)) as [Hex1 Hex2].
  destruct (char_classes (at_pos s n)) as
    [(_ & _ & Hd & _)|[(_ & _ & Hd & _)|[(Hw & Hl & _ & Hs)
    |[(_ & _ & Hd & _)|(_ & _ & Hd & _)%unrecognized_spec]]]]; [congruence..| |congruence|congruence].
  destruct (token_stream_prefix pre (run +:+ post) Hpre)
    as (fuel' & t' & Hst & Ht' & Hin' & Hp' & Hws' & Hlast').
  { split; [by left|right]. intros Hn. fold s n.
    unfold s. rewrite at_pos_app_l by (unfold n in *; lia). done. }
  fold s n in Hst, Hin', Hp', Hws'.
  pose proof (getNextToken_after_blanks t' (n - position t') Ht') as Hcases.
  rewrite Hin' in Hcases.
  specialize (Hcases (blanks_run _ _ _ Hws' Hp' Hw)). simpl in Hcases.
  replace (position t' + (n - position t')) with n in Hcases by lia.
  destruct Hcases as
    [(Hl' & _)|[(_ & m & _ & Hm & Hget)|[(tok' & Hs' & _)|(Hu & _)]]];
    [congruence| |congruence|].
  2:{ apply unrecognized_spec in Hu as (_ & _ & ? & _). congruence. }
  assert (m = String.length run) as ->.
  { destruct Hm as [? ?].
    destruct (run_at_app isNumber pre run post Hrun Hright) as [? ?].
    by eapply (run_length_unique isNumber s n). }
  assert (slice n (n + String.length run) s = run) as Hslice
    by apply slice_app_mid.
  rewrite Hslice, Hlast' in Hget.
  destruct (number_token_type (last_token no_token (token_stream pre)) run)
    as (_ & Hi & Hf).
  assert (number_token (last_token no_token (token_stream pre)) run = tok)
    as Htok.
  { unfold number_token, tok, kind, last_token, is_quote.
    destruct (last (token_stream pre)) as [before|]; simpl; [|done].
    destruct (decide _) as [[Hq|Hq]|Hq].
    - by rewrite (proj2 (has_type_true _ _) Hq).
    - by rewrite (proj2 (has_type_true _ _) Hq), orb_true_r.
    - by rewrite !(proj2 (has_type_false _ _)) by tauto. }
  rewrite Htok in Hget, Hi, Hf.
  exists fuel', t'. split; [done|].
  rewrite Hst. f_equal. simpl. by rewrite Hget, Hi, Hf.
Qed.
End prefix_stream.

(** * Text after the last terminator *)

Section trailing.
Implicit Types (t : Tokenizer) (tok : Token) (s body trailing : string)
  (ls : list (list Token)) (line : list Token).

(** Without a terminator character from the cursor on, no terminator
    token is returned. *)
Lemma token_stream_no_terminator fuel t :
  on_cursor t →
  (∀ i, position t ≤ i → at_pos (input t) i ≠ "!"%char) →
  no_terminator (token_stream_from fuel t).
Proof.
  revert t. induction fuel as [|fuel IH]; intros t Ht Hno; simpl;
    [by apply Forall_nil|].
  destruct (getNextToken_cases t Ht) as (k & _ & Hcases). simpl in Hcases.
  destruct Hcases as
    [(_ & m & _ & _ & Hget)|[(_ & m & _ & _ & Hget)
    |[(tok & Hs & Hget)|(_ & Hget)]]]; simpl in Hget; rewrite Hget.
  - destruct (word_token_type (slice (position t + k) (position t + k + m) (input t)))
      as (He & -> & -> & _). simpl.
    apply Forall_cons. split; [by apply has_type_false|].
    apply IH; [done|]. simpl. intros i Hi. apply Hno. lia.
  - destruct (number_token_type (lastToken t)
                (slice (position t + k) (position t + k + m) (input t)))
      as (He & -> & ->). simpl.
    apply Forall_cons. split; [by apply has_type_false|].
    apply IH; [done|]. simpl. intros i Hi. apply Hno. lia.
  - destruct (switch_ch_Some _ _ Hs) as (-> & He & _ & _ & _).
    destruct (has_type tok TokenType.Eof); [by apply Forall_nil|]. simpl.
    apply Forall_cons. split.
    + apply has_type_false. rewrite He. apply Ascii.eqb_neq, Hno. lia.
    + apply IH; [done|]. simpl. intros i Hi. apply Hno. lia.
  - by apply Forall_nil.
Qed.

Lemma terminated_cons line ls (group : list Token) :
  terminated (line :: ls) group
  = line ++ terminator :: terminated ls group.
Proof. unfold terminated. simpl. by rewrite <-!app_assoc. Qed.

Lemma terminated_app ls (group more : list Token) :
  terminated ls group ++ more = terminated ls (group ++ more).
Proof. unfold terminated. by rewrite app_assoc. Qed.

(** A token sequence is cut at its first terminator in one way only. *)
Lemma first_terminator (a b x y : list Token) :
  no_terminator a → no_terminator b →
  a ++ terminator :: x = b ++ terminator :: y → a = b ∧ x = y.
Proof.
  revert b. induction a as [|tok a IH]; intros [|tok' b] Ha Hb Heq; simpl in Heq.
  - by injection Heq as ->.
  - injection Heq as <- _. by apply Forall_cons in Hb as [? _].
  - injection Heq as -> _. by apply Forall_cons in Ha as [? _].
  - injection Heq as -> Heq.
    apply Forall_cons in Ha as [_ Ha], Hb as [_ Hb].
    by destruct (IH b Ha Hb Heq) as [-> ->].
Qed.

Lemma no_first_terminator (a b y : list Token) :
  no_terminator a → a ≠ b ++ terminator :: y.
Proof.
  intros Ha ->. apply Forall_app in Ha as [_ Ha].
  by apply Forall_cons in Ha as [? _].
Qed.

(** Lines and trailing group are determined by the token sequence. *)
Lemma terminated_unique ls1 ls2 (r1 r2 : list Token) :
  Forall no_terminator ls1 → Forall no_terminator ls2 →
  no_terminator r1 → no_terminator r2 →
  terminated ls1 r1 = terminated ls2 r2 →
  ls1 = ls2 ∧ r1 = r2.
Proof.
  revert ls2. induction ls1 as [|l1 ls1 IH]; intros [|l2 ls2] H1 H2 Hr1 Hr2 Heq.
  - done.
  - rewrite terminated_cons in Heq. unfold terminated in Heq. simpl in Heq.
    by apply no_first_terminator in Heq.
  - rewrite terminated_cons in Heq. unfold terminated in Heq. simpl in Heq.
    symmetry in Heq. by apply no_first_terminator in Heq.
  - rewrite !terminated_cons in Heq.
    apply Forall_cons in H1 as [Hl1 H1], H2 as [Hl2 H2].
    destruct (first_terminator _ _ _ _ Hl1 Hl2 Heq) as [-> Heq'].
    by destruct (IH ls2 H1 H2 Hr1 Hr2 Heq') as [-> ->].
Qed.

Lemma count_terminators_none trailing i :
  count_terminators trailing = 0 → at_pos trailing i ≠ "!"%char.
Proof.
  revert i. induction trailing as [|c trailing IH]; intros i Hc; [by destruct i|].
  simpl in Hc. destruct (Ascii.eqb_spec c "!"%char) as [->|Hne]; [done|].
  destruct i as [|i]; [done|]. rewrite at_pos_S. by apply IH.
Qed.

Lemma all_chars_app cond (a b : string) :
  all_chars cond (a +:+ b) = all_chars cond a && all_chars cond b.
Proof.
  induction a as [|c a IH]; [done|]. rewrite app_String. simpl.
  by rewrite IH, andb_assoc.
Qed.

(** Text without terminator, put behind a script that ends with one,
    changes no line of the script and adds none. *)
Lemma trailing_text_unsealed body trailing t1 t2 :
  all_chars scannable body = true →
  count_terminators trailing = 0 →
  new_Tokenizer (body +:+ "!") = Some (Ok t1) →
  new_Tokenizer (body +:+ "!" +:+ trailing) = Some (Ok t2) →
  lines t2 = lines t1.
Proof.
  intros Hbody Hnone Hlex1 Hlex2.
  set (s1 := body +:+ "!") in *.
  assert (body +:+ "!" +:+ trailing = s1 +:+ trailing) as Hs2
    by (unfold s1; by rewrite string_app_assoc).
  rewrite Hs2 in Hlex2.
  assert (String.length s1 = S (String.length body)) as Hlen
    by (unfold s1; rewrite string_length_app; simpl; lia).
  assert (at_pos (s1 +:+ trailing) (String.length body) = "!"%char) as Hbang.
  { rewrite at_pos_app_l by lia. unfold s1.
    by rewrite <-(Nat.add_0_r (String.length body)), at_pos_app_r. }
  destruct (token_stream_prefix s1 trailing)
    as (fuel' & t' & Hst & Ht' & Hin' & Hp' & Hws' & _).
  { unfold s1. by rewrite all_chars_app, Hbody. }
  { rewrite Hlen. split; right; intros _; simpl; rewrite Nat.sub_0_r;
      by rewrite Hbang. }
  assert (no_terminator (token_stream_from (S fuel') t')) as Hrest.
  { apply token_stream_no_terminator; [done|]. rewrite Hin'. intros i Hi.
    destruct (decide (i < String.length s1)) as [Hlt|Hge].
    - intros Heq. specialize (Hws' i ltac:(lia)). by rewrite Heq in Hws'.
    - replace i with (String.length s1 + (i - String.length s1)) by lia.
      rewrite at_pos_app_r. by apply count_terminators_none. }
  destruct (lines_of_stream s1) as [_ Hlines1].
  destruct (Hlines1 t1 Hlex1) as (Hno1 & _ & tr1 & Hst1 & Htr1 & _).
  destruct (lines_of_stream (s1 +:+ trailing)) as [_ Hlines2].
  destruct (Hlines2 t2 Hlex2) as (Hno2 & _ & tr2 & Hst2 & Htr2 & _).
  rewrite Hst1, Hst2, terminated_app in Hst.
  destruct (terminated_unique (lines t2) (lines t1) tr2
              (tr1 ++ token_stream_from (S fuel') t') Hno2 Hno1 Htr2)
    as [? _]; [by apply Forall_app|done|done].
Qed.
End trailing.

(** C7.  Lexing a text with no unrecognized character completes.  When
    lexing completes: no line holds a terminator; there is one line per
    terminator of the text; the token stream is made of the lines, each
    followed by its terminator, and of a trailing group without
    terminator, which is part of [tokens] but of no line; and the lines
    are those of the text cut after any terminator with no terminator
    behind it. *)
Theorem sealed_lines (s : string) :
  (all_chars scannable (before_NUL s) = true →
   ∃ t, new_Tokenizer s = Some (Ok t))
  ∧ ∀ t, new_Tokenizer s = Some (Ok t) →
      Forall no_terminator (lines t)
      ∧ length (lines t) = count_terminators (before_NUL s)
      ∧ (∃ trailing,
           token_stream s = terminated (lines t) trailing
           ∧ no_terminator trailing
           ∧ tokens t = concat (lines t) ++ trailing)
      ∧ ∀ body text t1,
          s = body +:+ "!" +:+ text →
          all_chars scannable body = true →
          count_terminators text = 0 →
          new_Tokenizer (body +:+ "!") = Some (Ok t1) →
          lines t = lines t1.
Proof.
  destruct (lines_of_stream s) as [Hcompletes Hlines].
  split; [done|]. intros t Hlex.
  destruct (Hlines t Hlex) as (Hno & Hcount & Hstream).
  split_and!; [done..|].
  intros body text t1 -> Hbody Htext Hlex1.
  by eapply trailing_text_unsealed.
Qed.


(** * [parseInt] reads decimal numerals *)

Section parseInt.
Local Open Scope N_scope.

Lemma pretty_N_char_digit (m : N) :
  m < 10 →
  isNumber (pretty_N_char m) = true ∧ N_of_ascii (pretty_N_char m) - 48 = m.
Proof.
  intros Hm.
  assert (m = 0 ∨ m = 1 ∨ m = 2 ∨ m = 3 ∨ m = 4 ∨ m = 5 ∨ m = 6 ∨ m = 7
          ∨ m = 8 ∨ m = 9) as Hcases by lia.
  repeat (destruct Hcases as [->|Hcases]; [done|]). by subst.
Qed.

Lemma leading_digits_pretty_go (x : N) :
  0 < x →
  ∃ k : N, ∀ acc s,
    leading_digits (pretty_N_go x s) acc
    = leading_digits s (Some (default 0 acc * 10 ^ k + x)).
Proof.
  induction (N.lt_wf_0 x) as [x _ IH]. intros Hx.
  destruct (pretty_N_char_digit (x `mod` 10)) as [Hd Hv];
    [by apply N.mod_upper_bound|].
  pose proof (N.div_mod x 10 ltac:(done)) as Hdm.
  destruct (decide (x `div` 10 = 0)) as [Hz|Hnz].
  - exists 1. intros acc s. rewrite pretty_N_go_step, Hz, pretty_N_go_0 by done.
    simpl. rewrite Hd, Hv. do 2 f_equal.
    rewrite N.pow_1_r. rewrite Hz in Hdm. lia.
  - destruct (IH (x `div` 10)) as [k Hk];
      [apply N.div_lt; lia|by apply N.neq_0_lt_0|].
    exists (k + 1). intros acc s. rewrite pretty_N_go_step, Hk by done.
    simpl. rewrite Hd, Hv. do 2 f_equal.
    rewrite N.pow_add_r, N.pow_1_r. lia.
Qed.

(** [parseInt] reads the decimal numeral of a natural number as the
    Number value of that number. *)
Lemma parseInt_pretty (n : N) : parseInt (pretty n) = Number_value n.
Proof.
  unfold pretty, pretty_N. destruct (decide (n = 0)) as [->|Hn]; [done|].
  destruct (leading_digits_pretty_go n ltac:(lia)) as [k Hk].
  unfold parseInt. rewrite Hk. simpl. f_equal.
Qed.

(** The natural numbers up to 2^53 are their own Number value. *)
Lemma Number_value_exact (n : N) : n ≤ 2 ^ 53 → Number_value n = Num n.
Proof. intros Hn. unfold Number_value. by rewrite (proj2 (N.leb_le _ _) Hn). Qed.

Lemma Number_value_not_NaN (n : N) : Number_value n ≠ NaN.
Proof.
  unfold Number_value. destruct (n <=? 2 ^ 53); [done|].
  cbv zeta. by destruct (_ <? 2 ^ 1024).
Qed.

(** Above 2^53 the Number value is a multiple [q * 2^e] of a power of two
    with a significand [q] of 53 bits (or 2^53 itself, when rounding
    carries), at most half of [2^e] away from the number, and with an even
    significand when it is exactly half of [2^e] away; it is Infinity
    when that multiple is 2^1024 or more. *)
Lemma Number_value_rounds (n : N) :
  2 ^ 53 < n →
  ∃ q e,
    0 < e ∧ 2 ^ 52 ≤ q ≤ 2 ^ 53
    ∧ Number_value n
      = (if q * 2 ^ e <? 2 ^ 1024 then Num (q * 2 ^ e) else Infinity)
    ∧ 2 * (q * 2 ^ e) ≤ 2 * n + 2 ^ e
    ∧ 2 * n ≤ 2 * (q * 2 ^ e) + 2 ^ e
    ∧ (2 * (q * 2 ^ e) = 2 * n + 2 ^ e ∨ 2 * n = 2 * (q * 2 ^ e) + 2 ^ e →
       N.even q = true).
Proof.
  intros Hn. unfold Number_value.
  rewrite (proj2 (N.leb_gt _ _) Hn). cbv zeta.
  assert (0 < n) as Hpos by lia.
  destruct (N.log2_spec n Hpos) as [Hlow Hhigh].
  assert (53 ≤ N.log2 n) as Hlog.
  { apply N.log2_le_pow2; [done|]. lia. }
  remember (N.log2 n - 52) as e eqn:He0.
  assert (N.log2 n = e + 52) as Hsum by lia.
  assert (0 < e) as He by lia.
  rewrite Hsum in Hlow, Hhigh.
  rewrite N.pow_add_r in Hlow. rewrite N.pow_succ_r', N.pow_add_r in Hhigh.
  assert (0 < 2 ^ e) as Hpe by (apply N.neq_0_lt_0, N.pow_nonzero; lia).
  rewrite N.shiftr_div_pow2, !N.shiftl_mul_pow2, N.mul_1_l.
  pose proof (N.div_mod n (2 ^ e) ltac:(lia)) as Hdm.
  pose proof (N.mod_upper_bound n (2 ^ e) ltac:(lia)) as Hr.
  remember (n `div` 2 ^ e) as q eqn:Hq0.
  remember (n `mod` 2 ^ e) as r eqn:Hr0.
  assert (n - q * 2 ^ e = r) as -> by lia.
  assert (2 ^ e = 2 * 2 ^ (e - 1)) as Hhalf.
  { rewrite <-N.pow_succ_r'. f_equal. lia. }
  remember (2 ^ (e - 1)) as half eqn:Hh0.
  remember (2 ^ e) as pe eqn:Hpe0.
  assert (2 ^ 52 ≤ q) as Hq1 by nia.
  assert (q < 2 ^ 53) as Hq2.
  { change (2 ^ 53) with (2 * 2 ^ 52). nia. }
  destruct (half <? r) eqn:Hlt; simpl.
  { apply N.ltb_lt in Hlt. exists (q + 1), e. rewrite <-Hpe0.
    split_and!; [done|lia|lia|done|nia|nia|nia]. }
  apply N.ltb_ge in Hlt.
  destruct (half =? r) eqn:Heq; simpl.
  - apply N.eqb_eq in Heq. destruct (N.odd q) eqn:Hodd.
    + exists (q + 1), e. rewrite <-Hpe0. split_and!; [done|lia|lia|done|nia|nia|].
      intros _. rewrite N.add_1_r, N.even_succ. done.
    + exists q, e. rewrite <-Hpe0. split_and!; [done|lia|lia|done|nia|nia|].
      intros _. by rewrite <-N.negb_odd, Hodd.
  - apply N.eqb_neq in Heq. exists q, e. rewrite <-Hpe0.
    split_and!; [done|lia|lia|done|nia|nia|nia].
Qed.
End parseInt.


(** * Searching a line *)

Section find.
Implicit Types (k : TokenItem) (t tok : Token) (line rest : list Token)
  (index i : nat).

Lemma of_kind_cons k t line :
  of_kind k (t :: line)
  = if has_type t k then t :: of_kind k line else of_kind k line.
Proof.
  unfold of_kind, has_type. rewrite filter_cons.
  by destruct (decide (type t = Some k));
    [rewrite bool_decide_eq_true_2|rewrite bool_decide_eq_false_2].
Qed.


Lemma of_kind_type k t line : t ∈ of_kind k line → type t = Some k ∧ t ∈ line.
Proof. unfold of_kind. by rewrite list_elem_of_filter. Qed.

(** [find] returns the match of rank [index] if there is one, the last
    match if there are fewer, and the default token if there is none. *)
Lemma find_from_rank k index i tok rest :
  i ≤ index →
  find_from k index i tok rest
  = default (default tok (last (of_kind k rest)))
      (of_kind k rest !! (index - i)).
Proof.
  revert i tok. induction rest as [|t rest IH]; intros i tok Hi; [done|].
  simpl. rewrite of_kind_cons. destruct (has_type t k) eqn:Hk.
  - destruct (Nat.eqb_spec i index) as [->|Hne].
    + by rewrite Nat.sub_diag.
    + rewrite IH by lia. replace (index - i) with (S (index - S i)) by lia.
      simpl. rewrite last_cons. by destruct (last (of_kind k rest)).
  - by rewrite IH.
Qed.

Lemma find_rank k line index :
  find k line index
  = default (default no_token (last (of_kind k line)))
      (of_kind k line !! index).
Proof. unfold find. rewrite find_from_rank by lia. by rewrite Nat.sub_0_r. Qed.

Lemma find_first k line :
  find k line 0 = default no_token (head (of_kind k line)).
Proof.
  rewrite find_rank. by destruct (of_kind k line) as [|? ?].
Qed.

Lemma find_second k line :
  find k line 1
  = match of_kind k line with
    | [] => no_token
    | [a] => a
    | _ :: b :: _ => b
    end.
Proof. rewrite find_rank. by destruct (of_kind k line) as [|? [|? ?]]. Qed.

Lemma find_type k line index :
  find k line index = no_token ∧ of_kind k line = []
  ∨ type (find k line index) = Some k ∧ of_kind k line ≠ [].
Proof.
  rewrite find_rank. destruct (of_kind k line) as [|a l] eqn:Hl; [by left|right].
  split; [|done].
  assert (∀ x, x ∈ a :: l → type x = Some k) as Hall.
  { intros x Hx. rewrite <-Hl in Hx. by apply of_kind_type in Hx as [? _]. }
  destruct ((a :: l) !! index) as [x|] eqn:Hx; simpl.
  - apply Hall. by eapply list_elem_of_lookup_2.
  - destruct (last (a :: l)) as [x|] eqn:Hlast; simpl.
    + apply Hall. apply last_Some in Hlast as [l' ->]. set_solver.
    + by apply last_None in Hlast.
Qed.

(** The test the declaration branch makes on a search result. *)
Lemma find_quote_found line :
  negb (has_type (find TokenType.SingleQuote line 0) TokenType.Illegal)
  || negb (has_type (find TokenType.DoubleQuote line 0) TokenType.Illegal)
  = bool_decide (quoted line).
Proof.
  unfold quoted.
  destruct (find_type TokenType.SingleQuote line 0) as [[-> Hs]|[Hs Hs']],
           (find_type TokenType.DoubleQuote line 0) as [[-> Hd]|[Hd Hd']].
  - rewrite bool_decide_eq_false_2; [done|]. rewrite Hs, Hd. tauto.
  - rewrite bool_decide_eq_true_2 by tauto.
    unfold has_type at 2. rewrite Hd.
    rewrite (bool_decide_eq_false_2 (Some _ = Some _)) by done.
    apply orb_true_r.
  - rewrite bool_decide_eq_true_2 by tauto.
    unfold has_type at 1. rewrite Hs.
    by rewrite (bool_decide_eq_false_2 (Some _ = Some _)).
  - rewrite bool_decide_eq_true_2 by tauto.
    unfold has_type at 1. rewrite Hs.
    by rewrite (bool_decide_eq_false_2 (Some _ = Some _)).
Qed.

Lemma hasVariable_spec (vars : gmap (option string) IVariable) line :
  hasVariable vars line = true
  ↔ ∃ tok, tok ∈ line ∧ is_Some (vars !! literal tok).
Proof.
  induction line as [|t line IH]; simpl.
  - split; [done|]. intros (tok & Hin & _). by apply elem_of_nil in Hin.
  - destruct (decide (is_Some (vars !! literal t))) as [Ht|Ht].
    + rewrite bool_decide_eq_true_2 by done. split; [|done].
      intros _. exists t. split; [apply list_elem_of_here|done].
    + rewrite bool_decide_eq_false_2 by done. rewrite IH. split.
      * intros (tok & Hin & Hk). exists tok. split; [by apply list_elem_of_further|done].
      * intros (tok & Hin & Hk). apply elem_of_cons in Hin as [->|Hin]; [done|eauto].
Qed.
End find.

(** * Literals that reach [eval] *)

Section plain_literals.
Implicit Types (t : Tokenizer) (tok : Token) (s : string) (line : list Token).

Lemma substring_length s n m : String.length (String.substring n m s) ≤ m.
Proof.
  revert n m. induction s as [|c s IH]; intros [|n] [|m]; simpl; try lia.
  - specialize (IH 0 m). lia.
  - apply IH.
  - apply IH.
Qed.

Lemma at_pos_substring s n m i :
  i < m → at_pos (String.substring n m s) i = at_pos s (n + i).
Proof.
  intros Hi. unfold at_pos.
  by rewrite String.substring_correct1, (Nat.add_comm i n).
Qed.

Lemma all_chars_mono (cond cond' : ascii → bool) s :
  (∀ c, cond c = true → cond' c = true) →
  all_chars cond s = true → all_chars cond' s = true.
Proof.
  intros Himp. induction s as [|c s IH]; simpl; [done|].
  rewrite !andb_true_iff. intros [? ?]. auto.
Qed.

(** The slice over a run is made of characters of the run's class. *)
Lemma run_slice cond s q m :
  run_at cond s q m → all_chars cond (slice q (q + m) s) = true.
Proof.
  intros [Hall _]. apply all_chars_at. intros i Hi. unfold slice in *.
  replace (q + m - q) with m in * by lia.
  pose proof (substring_length s q m).
  rewrite at_pos_substring by lia. apply Hall. lia.
Qed.

Lemma word_token_plain ident :
  all_chars isLetter ident = true → plain_literal (word_token ident).
Proof.
  intros Hl. unfold word_token, Keywords.
  repeat case_match; simplify_eq; simpl; try done; try (by intros [|]).
  intros _. eapply all_chars_mono; [|done].
  intros c Hc. unfold word_char. by rewrite Hc.
Qed.

Lemma number_token_plain last digits :
  all_chars isNumber digits = true → plain_literal (number_token last digits).
Proof.
  intros Hd. unfold number_token.
  assert (all_chars word_char digits = true).
  { eapply all_chars_mono; [|done].
    intros c Hc. unfold word_char. by rewrite Hc, orb_true_r. }
  destruct (is_quote last); by intros _.
Qed.

Lemma switch_ch_plain (c : ascii) tok :
  switch_ch c = Some tok → plain_literal tok.
Proof.
  unfold switch_ch. repeat case_match; intros; simplify_eq; by intros [|].
Qed.

Lemma getNextToken_plain t : on_cursor t → plain_literal (getNextToken t).1.
Proof.
  intros Ht. destruct (getNextToken_cases t Ht) as (k & _ & Hcases).
  simpl in Hcases.
  destruct Hcases as
    [(_ & m & _ & Hrun & ->)|[(_ & m & _ & Hrun & ->)
    |[(tok & Hs & ->)|(_ & ->)]]]; simpl.
  - by apply word_token_plain, run_slice.
  - by apply number_token_plain, run_slice.
  - by eapply switch_ch_plain.
  - by intros [|].
Qed.

Lemma token_stream_plain fuel t :
  on_cursor t → Forall plain_literal (token_stream_from fuel t).
Proof.
  revert t. induction fuel as [|fuel IH]; intros t Ht; simpl; [done|].
  pose proof (getNextToken_plain t Ht) as Hp.
  pose proof (getNextToken_on_cursor t Ht) as Ht'.
  destruct (getNextToken t) as [tok t']. simpl in *.
  destruct (_ || _); [done|]. constructor; [done|by apply IH].
Qed.

(** The literals of the [Ident] and [Int] tokens of lexed lines are made
    of letters, underscores and digits: between the quotes of a command
    passed to [eval] they stand for themselves. *)
Lemma lexed_lines_plain s t :
  new_Tokenizer s = Some (Ok t) → Forall (Forall plain_literal) (lines t).
Proof.
  intros Hlex.
  destruct (lines_of_stream s) as [_ Hlines].
  destruct (Hlines t Hlex) as (_ & _ & trailing & Hst & _ & _).
  assert (Forall plain_literal (token_stream s)) as Hplain.
  { unfold token_stream. rewrite readChar_initial.
    by apply token_stream_plain. }
  rewrite Hst in Hplain. unfold terminated in Hplain.
  apply Forall_app in Hplain as [Hplain _].
  apply Forall_forall. intros line Hline.
  apply Forall_forall. intros tok Htok.
  rewrite Forall_forall in Hplain. apply Hplain.
  apply list_elem_of_In, in_concat. exists (line ++ [terminator]). split.
  - apply (in_map (λ l, l ++ [terminator])). by apply list_elem_of_In.
  - apply list_elem_of_In, elem_of_app. by left.
Qed.

Lemma find_plain k line index :
  Forall plain_literal line → plain_literal (find k line index).
Proof.
  intros Hline. rewrite find_rank.
  destruct (of_kind k line !! index) as [tok|] eqn:Hi; simpl.
  - rewrite Forall_forall in Hline. apply Hline.
    apply list_elem_of_lookup_2 in Hi. by apply of_kind_type in Hi as [_ ?].
  - destruct (last (of_kind k line)) as [tok|] eqn:Hl; simpl; [|by intros [|]].
    rewrite Forall_forall in Hline. apply Hline.
    apply last_Some in Hl as [l' Hl].
    assert (tok ∈ of_kind k line) as Hin by (rewrite Hl; set_solver).
    by apply of_kind_type in Hin as [_ ?].
Qed.
End plain_literals.


(** * The scan of one line *)

Section inner_loop.
Implicit Types (vars : gmap (option string) IVariable)
  (line rest pre : list Token) (atual tok name : Token)
  (commands : list Command).

(** The declaration branch: it reads [line[1]], stores [declared line]
    under its literal, and the scan goes on. *)
Lemma for_declare vars line atual rest commands :
  type atual = Some TokenType.Variable_ →
  for_inner vars line (atual :: rest) commands
  = match line !! 1 with
    | None => (vars, Throw (TypeError "literal"))
    | Some name =>
        for_inner (<[literal name := declared line]> vars) line rest commands
    end.
Proof.
  intros Hv. simpl. unfold has_type at 1 2. rewrite Hv.
  rewrite bool_decide_eq_false_2, bool_decide_eq_true_2 by done.
  rewrite find_quote_found. unfold declared.
  destruct (decide (quoted line)) as [Hq|Hq].
  - by rewrite bool_decide_eq_true_2.
  - by rewrite bool_decide_eq_false_2.
Qed.

(** The print branch: it ends the scan and leaves the table as it is. *)
Lemma for_print vars line atual rest commands :
  type atual = Some TokenType.Print →
  for_inner vars line (atual :: rest) commands
  = (vars,
     if hasVariable vars line then
       match vars !! literal (find TokenType.Ident line 0) with
       | None => Throw (TypeError "type")
       | Some v => Ok (commands ++ [console_log (logged v)])
       end
     else
       Ok (commands ++
           [console_log
              (LogString (template (literal (find TokenType.Ident line 0))))])).
Proof.
  intros Hp. simpl. unfold has_type at 1. rewrite Hp.
  rewrite bool_decide_eq_true_2 by done.
  destruct (hasVariable vars line); [|done].
  destruct (vars !! _) as [v|]; [|done]. unfold logged.
  destruct (decide (IVariable.type v = IVariable.number)) as [Hn|Hn].
  - by rewrite bool_decide_eq_true_2.
  - by rewrite bool_decide_eq_false_2.
Qed.

Lemma for_skip vars line atual rest commands :
  type atual ≠ Some TokenType.Print →
  type atual ≠ Some TokenType.Variable_ →
  for_inner vars line (atual :: rest) commands
  = for_inner vars line rest commands.
Proof.
  intros Hp Hv. simpl. unfold has_type.
  by rewrite !bool_decide_eq_false_2.
Qed.

Lemma inner_loop_nil vars line commands :
  inner_loop vars line [] commands = Ok (vars, commands).
Proof. reflexivity. Qed.

(** A scan that ends normally, in terms of the loop. *)
Lemma inner_loop_Ok vars line rest commands vars' commands' :
  inner_loop vars line rest commands = Ok (vars', commands')
  ↔ for_inner vars line rest commands = (vars', Ok commands').
Proof.
  unfold inner_loop.
  destruct (for_inner vars line rest commands) as [v [c|e]];
    split; intros; by simplify_eq.
Qed.

(** A scan that throws, in terms of the loop. *)
Lemma inner_loop_Throw vars line rest commands e :
  inner_loop vars line rest commands = Throw e
  ↔ ∃ vars', for_inner vars line rest commands = (vars', Throw e).
Proof.
  unfold inner_loop.
  destruct (for_inner vars line rest commands) as [v [c|e']]; split.
  - done.
  - by intros [? ?].
  - intros [= ->]. eauto.
  - intros [? ?]. by simplify_eq.
Qed.

(** One round of the loop over the lines. *)
Lemma interpreter_loop_cons vars (out : list Output) line
    (more : list (list Token)) :
  interpreter_loop vars out (line :: more)
  = match inner_loop vars line line [] with
    | Ok (vars', commands') =>
        interpreter_loop vars' (out ++ eval commands') more
    | Throw e => mkRun (for_inner vars line line []).1 out (Some e)
    end.
Proof.
  simpl. unfold inner_loop.
  by destruct (for_inner vars line line []) as [v [c|e]].
Qed.

Lemma declare_round vars line atual rest commands :
  type atual = Some TokenType.Variable_ →
  inner_loop vars line (atual :: rest) commands
  = match line !! 1 with
    | None => Throw (TypeError "literal")
    | Some name =>
        inner_loop (<[literal name := declared line]> vars) line rest commands
    end.
Proof.
  intros Hv. unfold inner_loop. rewrite for_declare by done.
  by destruct (line !! 1).
Qed.

Lemma print_round vars line atual rest commands :
  type atual = Some TokenType.Print →
  inner_loop vars line (atual :: rest) commands
  = if hasVariable vars line then
      match vars !! literal (find TokenType.Ident line 0) with
      | None => Throw (TypeError "type")
      | Some v => Ok (vars, commands ++ [console_log (logged v)])
      end
    else
      Ok (vars,
          commands ++
          [console_log
             (LogString (template (literal (find TokenType.Ident line 0))))]).
Proof.
  intros Hp. unfold inner_loop. rewrite for_print by done.
  destruct (hasVariable vars line); [|done].
  by destruct (vars !! _).
Qed.

(** What follows a [print] keyword in the line has no effect on the
    scan. *)
Lemma print_ends_scan vars line atual rest commands :
  type atual = Some TokenType.Print →
  inner_loop vars line (atual :: rest) commands
  = inner_loop vars line [atual] commands.
Proof. intros Hp. by rewrite !print_round. Qed.

Lemma skip_round vars line atual rest commands :
  type atual ≠ Some TokenType.Print →
  type atual ≠ Some TokenType.Variable_ →
  inner_loop vars line (atual :: rest) commands
  = inner_loop vars line rest commands.
Proof.
  intros Hp Hv. unfold inner_loop. by rewrite for_skip.
Qed.

Lemma of_kind_nil_cons k atual pre :
  of_kind k (atual :: pre) = [] ↔ type atual ≠ Some k ∧ of_kind k pre = [].
Proof.
  rewrite of_kind_cons. destruct (has_type atual k) eqn:Hk.
  - apply has_type_true in Hk. split; [done|]. by intros [? _].
  - apply has_type_false in Hk. tauto.
Qed.

(** Tokens that start no statement are passed over. *)
Lemma scan_prefix vars line pre rest commands :
  no_statement pre →
  inner_loop vars line (pre ++ rest) commands
  = inner_loop vars line rest commands.
Proof.
  induction pre as [|atual pre IH]; intros [Hp Hv]; [done|].
  apply of_kind_nil_cons in Hp as [Hp Hp'], Hv as [Hv Hv'].
  rewrite <-app_comm_cons, skip_round by done. by apply IH.
Qed.

Lemma for_prefix vars line pre rest commands :
  no_statement pre →
  for_inner vars line (pre ++ rest) commands
  = for_inner vars line rest commands.
Proof.
  induction pre as [|atual pre IH]; intros [Hp Hv]; [done|].
  apply of_kind_nil_cons in Hp as [Hp Hp'], Hv as [Hv Hv'].
  rewrite <-app_comm_cons, for_skip by done. by apply IH.
Qed.

(** However the loop is left, the table is as it was or holds the
    declaration of the line in addition. *)
Lemma for_inner_table vars line rest commands :
  (for_inner vars line rest commands).1 = vars
  ∨ ∃ name, line !! 1 = Some name
            ∧ (for_inner vars line rest commands).1
              = <[literal name := declared line]> vars.
Proof.
  revert vars. induction rest as [|atual rest IH]; intros vars; [by left|].
  destruct (decide (type atual = Some TokenType.Print)) as [Hp|Hp].
  { rewrite for_print by done. by left. }
  destruct (decide (type atual = Some TokenType.Variable_)) as [Hv|Hv].
  - rewrite for_declare by done.
    destruct (line !! 1) as [name|] eqn:Hname; [|by left].
    right. exists name. split; [done|].
    destruct (IH (<[literal name := declared line]> vars))
      as [->|(name' & Hname' & ->)]; [done|].
    simplify_eq. by rewrite insert_insert_eq.
  - rewrite for_skip by done. apply IH.
Qed.

(** A scan that ends normally leaves the table as it was or with the
    declaration of the line stored. *)
Lemma scan_table vars line rest commands vars' commands' name :
  line !! 1 = Some name →
  inner_loop vars line rest commands = Ok (vars', commands') →
  vars' = vars ∨ vars' = <[literal name := declared line]> vars.
Proof.
  intros Hname. revert vars commands.
  induction rest as [|atual rest IH]; intros vars commands Hscan.
  - left. rewrite inner_loop_nil in Hscan. congruence.
  - destruct (decide (type atual = Some TokenType.Print)) as [Hp|Hp].
    { rewrite print_round in Hscan by done. left.
      destruct (hasVariable vars line); [destruct (vars !! _)|]; congruence. }
    destruct (decide (type atual = Some TokenType.Variable_)) as [Hv|Hv].
    + rewrite declare_round, Hname in Hscan by done. right.
      destruct (IH _ _ Hscan) as [->| ->]; [done|]. by rewrite insert_insert_eq.
    + rewrite skip_round in Hscan by done. eauto.
Qed.

(** A scan that ends normally adds one command if a [print] keyword was
    still to come, none otherwise. *)
Lemma scan_commands vars line rest commands vars' commands' :
  inner_loop vars line rest commands = Ok (vars', commands') →
  ∃ new, commands' = commands ++ new
         ∧ length new = if prints rest then 1 else 0.
Proof.
  revert vars commands.
  induction rest as [|atual rest IH]; intros vars commands Hscan.
  - exists []. rewrite inner_loop_nil in Hscan. rewrite app_nil_r. split; [congruence|done].
  - destruct (decide (type atual = Some TokenType.Print)) as [Hp|Hp].
    { rewrite print_round in Hscan by done.
      assert (prints (atual :: rest) = true) as ->.
      { unfold prints. rewrite of_kind_cons.
        rewrite (proj2 (has_type_true _ _) Hp). by apply bool_decide_eq_true_2. }
      destruct (hasVariable vars line); [destruct (vars !! _)|];
        simplify_eq; eauto. }
    assert (prints (atual :: rest) = prints rest) as ->.
    { unfold prints. rewrite of_kind_cons.
      by rewrite (proj2 (has_type_false _ _) Hp). }
    destruct (decide (type atual = Some TokenType.Variable_)) as [Hv|Hv].
    + rewrite declare_round in Hscan by done.
      destruct (line !! 1); [eauto|done].
    + rewrite skip_round in Hscan by done. eauto.
Qed.

(** The command a scan adds when it reaches a [print] keyword is the one
    [print_writes] tells for the table the scan leaves. *)
Lemma scan_writes vars line rest commands vars' commands' :
  inner_loop vars line rest commands = Ok (vars', commands') →
  prints rest = true →
  ∃ entry, commands' = commands ++ [console_log entry]
           ∧ print_writes vars' line = Some entry.
Proof.
  revert vars commands.
  induction rest as [|atual rest IH]; intros vars commands Hscan Hpr; [done|].
  destruct (decide (type atual = Some TokenType.Print)) as [Hp|Hp].
  { rewrite print_round in Hscan by done.
    unfold print_writes. rewrite <-find_first.
    destruct (hasVariable vars line) eqn:Hh.
    - destruct (vars !! literal (find TokenType.Ident line 0)) as [v|] eqn:Hv;
        [|done].
      simplify_eq. exists (logged v). by rewrite Hh, Hv.
    - simplify_eq. rewrite Hh. eauto. }
  assert (prints (atual :: rest) = prints rest) as Heq.
  { unfold prints. rewrite of_kind_cons.
    by rewrite (proj2 (has_type_false _ _) Hp). }
  rewrite Heq in Hpr.
  destruct (decide (type atual = Some TokenType.Variable_)) as [Hv|Hv].
  - rewrite declare_round in Hscan by done.
    destruct (line !! 1); [eauto|done].
  - rewrite skip_round in Hscan by done. eauto.
Qed.

(** The table a run leaves does not depend on what was written before
    it. *)
Lemma run_variables vars (out out' : list Output) (ls : list (list Token)) :
  variables (interpreter_loop vars out ls)
  = variables (interpreter_loop vars out' ls).
Proof.
  revert vars out out'.
  induction ls as [|line ls IH]; intros vars out out'; [done|].
  rewrite !interpreter_loop_cons.
  destruct (inner_loop vars line line []) as [[vars' commands']|e];
    [apply IH|done].
Qed.
End inner_loop.


(** * What [eval] is given *)

Section commands.
Implicit Types (vars : gmap (option string) IVariable)
  (line rest : list Token) (commands : list Command).

Lemma find_literal_plain k line index :
  Forall plain_literal line →
  k = TokenType.Ident ∨ k = TokenType.Int →
  all_chars word_char (template (literal (find k line index))) = true.
Proof.
  intros Hline Hk. pose proof (find_plain k line index Hline) as Hplain.
  destruct (find_type k line index) as [[-> _]|[Hty _]]; [done|].
  destruct (find k line index) as [k' l|name]; [|done].
  simpl in *. injection Hty as ->. by apply Hplain.
Qed.

(** The scan of a lexed line keeps the table plain and adds plain
    commands only. *)
Lemma scan_plain vars line rest commands vars' commands' :
  Forall plain_literal line →
  plain_table vars → Forall plain_command commands →
  inner_loop vars line rest commands = Ok (vars', commands') →
  plain_table vars' ∧ Forall plain_command commands'.
Proof.
  intros Hline. revert vars commands.
  induction rest as [|atual rest IH]; intros vars commands Hvars Hcmds Hscan.
  - rewrite inner_loop_nil in Hscan. by simplify_eq.
  - destruct (decide (type atual = Some TokenType.Print)) as [Hp|Hp].
    { rewrite print_round in Hscan by done.
      destruct (hasVariable vars line).
      - destruct (vars !! _) as [v|] eqn:Hv; [|done]. simplify_eq.
        split; [done|]. apply Forall_app. split; [done|].
        apply Forall_singleton. unfold logged.
        destruct (decide _); [done|]. simpl. by eapply Hvars.
      - simplify_eq. split; [done|]. apply Forall_app. split; [done|].
        apply Forall_singleton. simpl. apply find_literal_plain; auto. }
    destruct (decide (type atual = Some TokenType.Variable_)) as [Hv|Hv].
    + rewrite declare_round in Hscan by done.
      destruct (line !! 1) as [name|]; [|done].
      eapply IH; [|done|done].
      intros key v. rewrite lookup_insert.
      destruct (decide (literal name = key)) as [_|_]; [|by apply Hvars].
      intros [= <-]. unfold declared.
      destruct (decide (quoted line)); simpl; apply find_literal_plain; auto.
    + rewrite skip_round in Hscan by done. by eapply IH.
Qed.

Lemma run_plain vars out (ls : list (list Token)) :
  Forall (Forall plain_literal) ls →
  plain_table vars →
  Forall (λ o, plain_command (console_log o)) out →
  Forall (λ o, plain_command (console_log o))
    (stdout (interpreter_loop vars out ls)).
Proof.
  revert vars out. induction ls as [|line ls IH]; intros vars out Hls Hvars Hout;
    [done|].
  rewrite interpreter_loop_cons.
  apply Forall_cons in Hls as [Hline Hls].
  destruct (inner_loop vars line line []) as [[vars' commands']|e] eqn:Hscan;
    [|done].
  destruct (scan_plain _ _ _ _ _ _ Hline Hvars ltac:(constructor) Hscan)
    as [Hvars' Hcmds'].
  apply IH; [done|done|]. apply Forall_app. split; [done|].
  unfold eval. apply Forall_fmap. eapply Forall_impl; [done|].
  by intros [o].
Qed.

(** X25.  Every text a run interpolates between the quotes of a command is
    made of letters, underscores and digits, so that the command, evaluated
    as JavaScript source, logs that very text: the commands of the model
    denote what [eval] does with the generated source. *)
Lemma commands_are_plain (s : string) (r : Run) :
  main s = Some r →
  Forall (λ o, plain_command (console_log o)) (stdout r).
Proof.
  unfold main. intros Hmain.
  destruct (new_Tokenizer s) as [[t|e]|] eqn:Hlex; simplify_eq; [|done].
  apply run_plain; [by eapply lexed_lines_plain|done|].
  by repeat constructor.
Qed.
End commands.


(** * Interpreter theorems *)

Section interpreter_theorems.
Implicit Types (vars : gmap (option string) IVariable)
  (line rest pre : list Token) (atual tok name : Token)
  (commands : list Command) (out : list Output).

(** The output of a run: what was written before, then what each line
    writes, in turn: the entry [print_writes] tells for a line with a
    [print] keyword, nothing for the others, up to the line that throws,
    if one does.  The table a line leaves is the one the run of the lines
    up to it leaves. *)
Lemma run_output vars out (ls : list (list Token)) :
  ∃ (interpreted rest : list (list Token)) (outs : list (list Output)),
    ls = interpreted ++ rest
    ∧ stdout (interpreter_loop vars out ls) = out ++ concat outs
    ∧ length outs = length interpreted
    ∧ (∀ i line o,
         interpreted !! i = Some line → outs !! i = Some o →
         if prints line then
           ∃ entry,
             o = [entry]
             ∧ print_writes
                 (variables (interpreter_loop vars [] (take (S i) interpreted)))
                 line = Some entry
         else o = [])
    ∧ (thrown (interpreter_loop vars out ls) = None → rest = [])
    ∧ (∀ e, thrown (interpreter_loop vars out ls) = Some e →
         ∃ line (later : list (list Token)),
           rest = line :: later
           ∧ inner_loop (variables (interpreter_loop vars [] interpreted))
               line line [] = Throw e).
Proof.
  revert vars out. induction ls as [|line ls IH]; intros vars out.
  - exists [], [], []. simpl. rewrite app_nil_r.
    split_and!; [done|done|done| |done|done].
    intros i line o Hi. by rewrite lookup_nil in Hi.
  - rewrite interpreter_loop_cons.
    destruct (inner_loop vars line line []) as [[vars' commands']|e] eqn:Hscan.
    + destruct (scan_commands _ _ _ _ _ _ Hscan) as (new & Hnew & Hlen).
      rewrite app_nil_l in Hnew. subst commands'.
      destruct (IH vars' (out ++ eval new))
        as (interpreted & rest & outs & -> & -> & Hlens & Houts & Hrest & Hthrow).
      assert (∀ more : list (list Token),
        variables (interpreter_loop vars [] (line :: more))
        = variables (interpreter_loop vars' [] more)) as Hstep.
      { intros more. rewrite interpreter_loop_cons, Hscan.
        apply run_variables. }
      exists (line :: interpreted), rest, (eval new :: outs).
      split_and!; [done|by rewrite <-app_assoc|simpl; by rewrite Hlens| |done|].
      * intros [|i] line' o Hi Ho; simpl in Hi, Ho.
        -- injection Hi as <-. injection Ho as <-.
           destruct (prints line) eqn:Hpr.
           ++ destruct (scan_writes _ _ _ _ _ _ Hscan Hpr) as (entry & Hc & Hw).
              rewrite app_nil_l in Hc. subst new. exists entry.
              split; [done|]. by rewrite firstn_cons, take_0, Hstep.
           ++ destruct new; [done|discriminate].
        -- rewrite firstn_cons, Hstep. by apply Houts.
      * intros e He. rewrite Hstep. by apply Hthrow.
    + exists [], (line :: ls), []. simpl. rewrite app_nil_r.
      split_and!; [done|done|done| |done|].
      * intros i line' o Hi. by rewrite lookup_nil in Hi.
      * intros e' [= <-]. by exists line, ls.
Qed.

(** C1, as the code has it.  When a script lexes without an [Illegal]
    token, the output is the word [lines], then the dump of the lexed
    lines, then what the interpreted lines write, line after line: a line
    with a [print] keyword writes exactly one entry, the one
    [print_writes] tells for that line and the table the lines up to it
    leave, and a line without writes nothing.  The interpreted lines are
    all the lines when the run ends normally, and the lines before the
    one that raises an error otherwise. *)
Theorem stdout_of_run (s : string) (t : Tokenizer) (r : Run) :
  new_Tokenizer s = Some (Ok t) →
  main s = Some r →
  ∃ (interpreted rest : list (list Token)) (outs : list (list Output)),
    lines t = interpreted ++ rest
    ∧ stdout r = LogString "lines" :: LogLines (lines t) :: concat outs
    ∧ length outs = length interpreted
    ∧ (∀ i line o,
         interpreted !! i = Some line → outs !! i = Some o →
         if prints line then
           ∃ entry,
             o = [entry]
             ∧ print_writes
                 (variables (interpreter_loop ∅ [] (take (S i) interpreted)))
                 line = Some entry
         else o = [])
    ∧ (thrown r = None → rest = [])
    ∧ (∀ e, thrown r = Some e →
         ∃ line (later : list (list Token)),
           rest = line :: later
           ∧ inner_loop (variables (interpreter_loop ∅ [] interpreted))
               line line [] = Throw e).
Proof.
  intros Hlex Hmain. unfold main in Hmain. rewrite Hlex in Hmain.
  injection Hmain as <-. unfold interpreter.
  destruct (run_output ∅ [LogString "lines"; LogLines (lines t)] (lines t))
    as (interpreted & rest & outs & Hls & Hout & Hlen & Houts & Hrest & Hthrow).
  exists interpreted, rest, outs. by rewrite Hout.
Qed.

(** C3, as the code has it.  When the scan is on a [print] keyword:
    if some token of the line has a literal that is a key of the table
    and the literal of the first [Ident] token (of the default token
    [Illegal] when the line has none) is a key as well, the command logs
    the value stored under it, read by [parseInt] when its type is
    number and as the stored text otherwise; if no token's literal is a
    key, the command logs the literal of the first [Ident] token (or the
    word [Illegal]).  In both cases the scan ends there. *)
Theorem print_output vars line atual rest commands :
  type atual = Some TokenType.Print →
  let shown := default no_token (head (of_kind TokenType.Ident line)) in
  (∀ tok v,
     tok ∈ line → is_Some (vars !! literal tok) →
     vars !! literal shown = Some v →
     inner_loop vars line (atual :: rest) commands
     = Ok (vars,
           commands ++
           [console_log
              (if decide (IVariable.type v = IVariable.number)
               then LogNumber (parseInt (template (IVariable.value v)))
               else LogString (template (IVariable.value v)))]))
  ∧ ((∀ tok, tok ∈ line → vars !! literal tok = None) →
     inner_loop vars line (atual :: rest) commands
     = Ok (vars,
           commands ++ [console_log (LogString (template (literal shown)))])).
Proof.
  intros Hp shown. rewrite print_round by done.
  rewrite find_first. fold shown. split.
  - intros tok v Hin Hkey Hv.
    rewrite (proj2 (hasVariable_spec vars line)) by eauto. by rewrite Hv.
  - intros Hnone. destruct (hasVariable vars line) eqn:Hh; [|done].
    apply hasVariable_spec in Hh as (tok & Hin & Hkey).
    rewrite Hnone in Hkey by done. by destruct Hkey.
Qed.

(** C4, as the code has it.  When the scan is on a [var] keyword of a
    line with at least two tokens, the table gets, under the literal of
    the token at position 1, a string variable if the line holds a
    single or double quote, whose value is the literal of the second
    [Ident] token, of the only one if there is one, of the default token
    [Illegal] if there is none; and a number variable otherwise, whose
    value is the literal of the first [Int] token, of the default token
    if there is none.  The scan goes on, and a scan that ends normally
    leaves that variable in the table. *)
Theorem declaration_stored vars line atual rest commands name :
  type atual = Some TokenType.Variable_ →
  line !! 1 = Some name →
  let stored :=
    if decide (quoted line) then
      IVariable.mk IVariable.var_var IVariable.string
        (literal match of_kind TokenType.Ident line with
                 | [] => no_token
                 | [only] => only
                 | _ :: second :: _ => second
                 end)
    else
      IVariable.mk IVariable.var_var IVariable.number
        (literal (default no_token (head (of_kind TokenType.Int line)))) in
  inner_loop vars line (atual :: rest) commands
  = inner_loop (<[literal name := stored]> vars) line rest commands
  ∧ ∀ vars' commands',
      inner_loop vars line (atual :: rest) commands = Ok (vars', commands') →
      vars' !! literal name = Some stored.
Proof.
  intros Hv Hname stored.
  assert (stored = declared line) as ->.
  { unfold stored, declared. by rewrite find_second, find_first. }
  rewrite declare_round, Hname by done. split; [done|].
  intros vars' commands' Hscan.
  destruct (scan_table _ _ _ _ _ _ _ Hname Hscan) as [->| ->].
  - apply lookup_insert_eq.
  - rewrite insert_insert_eq. apply lookup_insert_eq.
Qed.

(** C9.  When the scan is on a [print] keyword, some token of the line
    has a literal that is a key of the table, and the literal of the
    first [Ident] token (of the default token when there is none) is not
    a key, the lookup yields [undefined] and reading its [type] raises a
    [TypeError]; when the keyword is the first statement keyword of the
    line, the run ends there with what was written before. *)
Theorem unguarded_lookup vars line pre atual rest tok out
    (more : list (list Token)) :
  type atual = Some TokenType.Print →
  tok ∈ line → is_Some (vars !! literal tok) →
  vars !! literal (default no_token (head (of_kind TokenType.Ident line)))
    = None →
  (∀ commands,
     inner_loop vars line (atual :: rest) commands
     = Throw (TypeError "type"))
  ∧ (line = pre ++ atual :: rest → no_statement pre →
     interpreter_loop vars out (line :: more)
     = mkRun vars out (Some (TypeError "type"))).
Proof.
  intros Hp Hin Hkey Hnone.
  assert (∀ commands,
    inner_loop vars line (atual :: rest) commands = Throw (TypeError "type"))
    as Hthrow.
  { intros commands. rewrite print_round by done.
    rewrite (proj2 (hasVariable_spec vars line)) by eauto.
    by rewrite find_first, Hnone. }
  split; [done|]. intros Hline Hpre.
  rewrite interpreter_loop_cons. rewrite Hline at 2.
  rewrite scan_prefix, Hthrow by done. rewrite Hline at 2.
  rewrite for_prefix, for_print by done. done.
Qed.

(** C10.  When the scan is on a [var] keyword, a line with fewer than
    two tokens makes the read of [line[1].literal] raise a [TypeError],
    with or without quotes in the line; the run ends there, and the
    lines after it are not interpreted. *)
Theorem declaration_needs_two_tokens vars line pre atual rest out
    (more : list (list Token)) :
  type atual = Some TokenType.Variable_ →
  length line < 2 →
  (∀ commands,
     inner_loop vars line (atual :: rest) commands
     = Throw (TypeError "literal"))
  ∧ (line = pre ++ atual :: rest →
     interpreter_loop vars out (line :: more)
     = mkRun vars out (Some (TypeError "literal"))).
Proof.
  intros Hv Hlen.
  assert (line !! 1 = None) as Hnone by (apply lookup_ge_None; lia).
  assert (∀ commands,
    inner_loop vars line (atual :: rest) commands = Throw (TypeError "literal"))
    as Hthrow.
  { intros commands. by rewrite declare_round, Hnone. }
  split; [done|]. intros Hline.
  assert (pre = []) as ->.
  { destruct pre as [|? ?]; [done|]. rewrite Hline in Hlen.
    simpl in Hlen. rewrite length_app in Hlen. simpl in Hlen. lia. }
  simpl in Hline. rewrite interpreter_loop_cons. rewrite Hline at 2.
  rewrite Hthrow. rewrite Hline at 2. rewrite for_declare, Hnone by done. done.
Qed.
End interpreter_theorems.


(** * The grammar table *)

Section grammar.
Implicit Types (line rest : list Token) (tree : list TokenItem)
  (statement : string).

Lemma verifyTree_from_spec tree index rest :
  verifyTree_from tree index rest = true
  ↔ ∀ i tok, rest !! i = Some tok → type tok = tree !! (index + i).
Proof.
  revert index. induction rest as [|token rest IH]; intros index; simpl.
  - split; [|done]. intros _ i tok Hi. by rewrite lookup_nil in Hi.
  - destruct (decide (type token = tree !! index)) as [Heq|Hne].
    + rewrite bool_decide_eq_false_2 by (by intros ?). rewrite IH. split.
      * intros H [|i] tok Hi; simpl in Hi.
        -- injection Hi as <-. by rewrite Nat.add_0_r.
        -- rewrite <-Nat.add_succ_comm. by apply H.
      * intros H i tok Hi. rewrite Nat.add_succ_comm. by apply H.
    + rewrite bool_decide_eq_true_2 by done. split; [done|].
      intros H. specialize (H 0 token eq_refl). by rewrite Nat.add_0_r in H.
Qed.

(** C8, as the code has it.  The table has one entry, for [print]: the
    six kinds of the statement followed by the terminator kind.  The
    checker accepts a line for a statement exactly when the statement
    is [print] and the kind of every token of the line is the kind at
    the same position of that entry; past the end of the entry only a
    token without a kind matches. *)
Theorem grammar_table :
  treeMap !! "print" = Some (print_shape ++ [TokenType.EoL])
  ∧ ∀ line statement,
      verifyTree line statement = true
      ↔ statement = "print"
        ∧ ∀ i tok, line !! i = Some tok →
            type tok = (print_shape ++ [TokenType.EoL]) !! i.
Proof.
  assert (treeMap !! "print" = Some (print_shape ++ [TokenType.EoL])) as Hp
    by (unfold treeMap; simpl; apply lookup_insert_eq).
  split; [done|]. intros line statement. unfold verifyTree.
  destruct (decide (statement = "print")) as [->|Hne].
  - rewrite Hp, verifyTree_from_spec. simpl. tauto.
  - unfold treeMap. simpl.
    rewrite lookup_insert_ne, lookup_empty by done. split; [done|tauto].
Qed.
End grammar.


(** * The claims on concrete scripts *)

(** C1 fails as stated: the empty script has no line at all, and the run
    writes two entries, the word [lines] and the dump of the empty list of
    lines. *)
Lemma empty_script_writes_header :
  ∃ t r,
    new_Tokenizer EmptyString = Some (Ok t) ∧ lines t = []
    ∧ main EmptyString = Some r ∧ thrown r = None
    ∧ stdout r = [LogString "lines"; LogLines []].
Proof. eexists _, _. split_and!; vm_compute; reflexivity. Qed.

Lemma stdout_of_run_witness :
  ∃ t r,
    new_Tokenizer "var x = 12! print(x)! print('hi')!" = Some (Ok t)
    ∧ main "var x = 12! print(x)! print('hi')!" = Some r
    ∧ ∃ (interpreted rest : list (list Token)) (outs : list (list Output)),
        lines t = interpreted ++ rest
        ∧ stdout r = LogString "lines" :: LogLines (lines t) :: concat outs
        ∧ length outs = length interpreted
        ∧ (∀ i line o,
             interpreted !! i = Some line → outs !! i = Some o →
             if prints line then
               ∃ entry,
                 o = [entry]
                 ∧ print_writes
                     (variables
                        (interpreter_loop ∅ [] (take (S i) interpreted)))
                     line = Some entry
             else o = [])
        ∧ (thrown r = None → rest = [])
        ∧ (∀ e, thrown r = Some e →
             ∃ line (later : list (list Token)),
               rest = line :: later
               ∧ inner_loop (variables (interpreter_loop ∅ [] interpreted))
                   line line [] = Throw e).
Proof.
  eexists _, _. split; [vm_compute; reflexivity|].
  split; [vm_compute; reflexivity|].
  apply (stdout_of_run "var x = 12! print(x)! print('hi')!");
    vm_compute; reflexivity.
Defined.

(** C2 at [var x = 1 print!]: the declaration does not end the scan of
    the line; the [print] keyword further right is reached, so the line
    both declares [x] and prints it. *)
Theorem declaration_does_not_end_scan :
  ∃ t r line,
    new_Tokenizer "var x = 1 print!" = Some (Ok t) ∧ lines t = [line]
    ∧ type <$> line
      = [Some TokenType.Variable_; Some TokenType.Ident;
         Some TokenType.AssignOrEqual; Some TokenType.Int;
         Some TokenType.Print]
    ∧ main "var x = 1 print!" = Some r
    ∧ variables r !! Some "x"
      = Some (IVariable.mk IVariable.var_var IVariable.number (Some "1"))
    ∧ stdout r = [LogString "lines"; LogLines [line]; LogNumber (Num 1)]
    ∧ thrown r = None.
Proof. eexists _, _, _. split_and!; vm_compute; reflexivity. Qed.

(** C3 fails as stated: [var x = y] has no quote and no [Int] token, so
    [x] is stored as a number whose text is the literal of the default
    token; [print(x)] finds the key [x], the first [Ident] token is [x],
    and what is printed is NaN, not a decimal integer. *)
Lemma number_without_digits :
  ∃ r,
    main "var x = y! print(x)!" = Some r
    ∧ variables r !! Some "x"
      = Some (IVariable.mk IVariable.var_var IVariable.number (Some "Illegal"))
    ∧ drop 2 (stdout r) = [LogNumber NaN]
    ∧ thrown r = None.
Proof. eexists. split_and!; vm_compute; reflexivity. Qed.

(** The other way C3 fails: in [print(y x)] after [var x = 1] the literal
    [x] is a key of the table, the first [Ident] token is [y], no variable
    is stored under [y], and the line prints nothing: the run ends with a
    [TypeError] (theorem [unguarded_lookup]). *)
Example print_of_missing_key :
  ∃ r,
    main "var x = 1! print(y x)!" = Some r
    ∧ variables r !! Some "x"
      = Some (IVariable.mk IVariable.var_var IVariable.number (Some "1"))
    ∧ variables r !! Some "y" = None
    ∧ thrown r = Some (TypeError "type")
    ∧ length (stdout r) = 2.
Proof. eexists. split_and!; vm_compute; reflexivity. Qed.

Lemma print_output_witness :
  let line := [createToken TokenType.Print "print";
               createToken TokenType.ParentesesE "(";
               createToken TokenType.Ident "x";
               createToken TokenType.ParentesesD ")"] in
  let v := IVariable.mk IVariable.var_var IVariable.number (Some "007") in
  inner_loop {[ Some "x" := v ]} line line []
    = Ok ({[ Some "x" := v ]}, [console_log (LogNumber (Num 7))])
  ∧ inner_loop ∅ line line []
    = Ok (∅, [console_log (LogString "x")]).
Proof.
  intros line v. split.
  - destruct (print_output {[ Some "x" := v ]} line
                (createToken TokenType.Print "print") (tail line) [] eq_refl)
      as [Hvariable _].
    apply (Hvariable (createToken TokenType.Ident "x") v).
    + apply (bool_decide_unpack _). vm_compute. exact I.
    + exists v. apply lookup_singleton_eq.
    + apply lookup_singleton_eq.
  - destruct (print_output ∅ line (createToken TokenType.Print "print")
                (tail line) [] eq_refl) as [_ Hliteral].
    apply Hliteral. intros tok _. apply lookup_empty.
Defined.

(** C4 fails as stated: [var x = ''] is a declaration with quotes, the
    line has one [Ident] token only, and the value stored for [x] is the
    literal of that token, the name itself. *)
Lemma empty_string_declaration :
  ∃ t r line,
    new_Tokenizer "var x = ''!" = Some (Ok t) ∧ lines t = [line]
    ∧ of_kind TokenType.Ident line = [createToken TokenType.Ident "x"]
    ∧ main "var x = ''!" = Some r
    ∧ variables r !! Some "x"
      = Some (IVariable.mk IVariable.var_var IVariable.string (Some "x")).
Proof. eexists _, _, _. split_and!; vm_compute; reflexivity. Qed.

Lemma declaration_stored_witness :
  let line := [createToken TokenType.Variable_ "var";
               createToken TokenType.Ident "x";
               createToken TokenType.AssignOrEqual "=";
               createToken TokenType.SingleQuote "'";
               createToken TokenType.Ident "123";
               createToken TokenType.SingleQuote "'"] in
  let stored :=
    IVariable.mk IVariable.var_var IVariable.string (Some "123") in
  inner_loop ∅ line line []
    = inner_loop {[ Some "x" := stored ]} line (tail line) []
  ∧ ∃ vars,
      inner_loop ∅ line line [] = Ok (vars, [])
      ∧ vars !! Some "x" = Some stored.
Proof.
  intros line stored.
  destruct (declaration_stored ∅ line (createToken TokenType.Variable_ "var")
              (tail line) [] (createToken TokenType.Ident "x")
              eq_refl eq_refl) as [Hstep Hend].
  split; [exact Hstep|]. eexists. split; [vm_compute; reflexivity|].
  apply (Hend _ []). vm_compute. reflexivity.
Defined.

Lemma digit_runs_lexed_witness :
  ∃ fuel t,
    input t = "'123'"
    ∧ token_stream "'123'"
      = [createToken TokenType.SingleQuote "'"]
        ++ createToken TokenType.Ident "123"
           :: token_stream_from fuel
                (set_lastToken (createToken TokenType.Ident "123")
                   (cursor_at t 4)).
Proof.
  exact (digit_runs_lexed "'" "123" "'" eq_refl eq_refl
           ltac:(discriminate) eq_refl eq_refl).
Defined.

(** The same text, call by call and as a whole. *)
Example quoted_digits :
  let quote := createToken TokenType.SingleQuote "'" in
  let digits := createToken TokenType.Ident "123" in
  let t := set_lastToken quote (cursor_at (initial "'123'") 1) in
  getNextToken (readChar (initial "'123'")) = (quote, t)
  ∧ getNextToken t = (digits, set_lastToken digits (cursor_at t 4))
  ∧ token_stream "'123'" = [quote; digits; quote]
  ∧ token_stream "123" = [createToken TokenType.Int "123"].
Proof.
  intros quote digits t. split; [reflexivity|]. split; [|split; reflexivity].
  apply (digit_run_token t "'" EmptyString "123" "'");
    first [reflexivity | discriminate | split; reflexivity].
Qed.

Lemma illegal_character_aborts_witness :
  new_Tokenizer "print(a)! print(b @)!"
    = Some (Throw (Error "Illegal token @ at line 1"))
  ∧ main "print(a)! print(b @)!"
    = Some (mkRun ∅ [] (Some (Error "Illegal token @ at line 1"))).
Proof.
  exact (illegal_character_aborts "print(a)! print(b " ")!" "@" eq_refl eq_refl).
Defined.

Lemma sealed_lines_witness :
  ∃ t,
    new_Tokenizer "a! b" = Some (Ok t)
    ∧ Forall no_terminator (lines t)
    ∧ length (lines t) = 1
    ∧ (∃ trailing,
         token_stream "a! b" = terminated (lines t) trailing
         ∧ no_terminator trailing
         ∧ tokens t = concat (lines t) ++ trailing)
    ∧ ∀ body text t1,
        "a! b" = body +:+ "!" +:+ text →
        all_chars scannable body = true →
        count_terminators text = 0 →
        new_Tokenizer (body +:+ "!") = Some (Ok t1) →
        lines t = lines t1.
Proof.
  destruct (sealed_lines "a! b") as [Hcompletes Hlines].
  destruct (Hcompletes eq_refl) as [t Ht]. exists t.
  split; [exact Ht|]. exact (Hlines t Ht).
Defined.

Example trailing_statement_dropped :
  ∃ t,
    new_Tokenizer "a! b" = Some (Ok t)
    ∧ lines t = [[createToken TokenType.Ident "a"]]
    ∧ tokens t
      = [createToken TokenType.Ident "a"; createToken TokenType.Ident "b"].
Proof. eexists. split_and!; vm_compute; reflexivity. Qed.

(** C8 fails as stated: the entry for [print] is not the six kinds of the
    statement, it has the terminator kind as a seventh; a line of the six
    tokens followed by a terminator token is accepted. *)
Lemma print_entry_has_seven_kinds :
  treeMap !! "print" ≠ Some print_shape
  ∧ verifyTree
      [createToken TokenType.Print "print";
       createToken TokenType.ParentesesE "(";
       createToken TokenType.SingleQuote "'";
       createToken TokenType.Ident "a";
       createToken TokenType.SingleQuote "'";
       createToken TokenType.ParentesesD ")";
       terminator] "print" = true.
Proof. split; [|reflexivity]. vm_compute. discriminate. Qed.

Lemma unguarded_lookup_witness :
  let line := [createToken TokenType.Print "print";
               createToken TokenType.ParentesesE "(";
               createToken TokenType.Ident "y";
               createToken TokenType.ParentesesD ")"] in
  let v := IVariable.mk IVariable.var_var IVariable.number (Some "1") in
  (∃ t, new_Tokenizer "var ( = 1! print(y)!" = Some (Ok t)
        ∧ lines t !! 1 = Some line)
  ∧ inner_loop {[ Some "(" := v ]} line line [] = Throw (TypeError "type")
  ∧ interpreter_loop {[ Some "(" := v ]} [] [line]
    = mkRun {[ Some "(" := v ]} [] (Some (TypeError "type")).
Proof.
  intros line v. split; [eexists; split; vm_compute; reflexivity|].
  destruct (unguarded_lookup {[ Some "(" := v ]} line []
              (createToken TokenType.Print "print") (tail line)
              (createToken TokenType.ParentesesE "(") [] [] eq_refl)
    as [Hscan Hrun].
  - apply (bool_decide_unpack _). vm_compute. exact I.
  - exists v. apply lookup_singleton_eq.
  - by apply lookup_singleton_ne.
  - split; [exact (Hscan [])|]. apply Hrun; [reflexivity|].
    split; reflexivity.
Defined.

Lemma declaration_needs_two_tokens_witness :
  let keyword := createToken TokenType.Variable_ "var" in
  (∃ t, new_Tokenizer "var! print(a)!" = Some (Ok t)
        ∧ lines t !! 0 = Some [keyword])
  ∧ inner_loop ∅ [keyword] [keyword] [] = Throw (TypeError "literal")
  ∧ interpreter_loop ∅ []
      [[keyword]; [createToken TokenType.Print "print"]]
    = mkRun ∅ [] (Some (TypeError "literal")).
Proof.
  intros keyword. split; [eexists; split; vm_compute; reflexivity|].
  destruct (declaration_needs_two_tokens ∅ [keyword] [] keyword [] []
              [[createToken TokenType.Print "print"]] eq_refl)
    as [Hscan Hrun]; [simpl; lia|].
  split; [exact (Hscan [])|]. by apply Hrun.
Defined.

(** * The scripts of the specification *)

Example number_variable :
  printed "var x = 123! print(x)!" = Some ([LogNumber (Num 123)], None).
Proof. reflexivity. Qed.

Example string_variable :
  printed "var x = 'hi'! print(x)!" = Some ([LogString "hi"], None).
Proof. reflexivity. Qed.

Example literal_text :
  printed "print('literal')!" = Some ([LogString "literal"], None).
Proof. reflexivity. Qed.

Example redeclaration :
  printed "var x = 1! print(x)! var x = 'two'! print(x)!"
  = Some ([LogNumber (Num 1); LogString "two"], None).
Proof. reflexivity. Qed.

Example unterminated_statement :
  printed "print(a)! print(b)" = Some ([LogString "a"], None).
Proof. reflexivity. Qed.

(** A NUL character in the text is the last case of the [switch]: the
    lexer takes it for the end of the input and reads no further. *)
Example NUL_ends_input :
  printed ("print(a)!" +:+ String NUL "@ print(b)!")
  = Some ([LogString "a"], None).
Proof. reflexivity. Qed.

(** Numerals beyond 2^53: [parseInt] yields the nearest double, the one
    with the even significand from halfway between two, and Infinity from
    2^1024 - 2^970 on. *)
Example large_numerals :
  printed "var x = 9007199254740993! print(x)!"
  = Some ([LogNumber (Num 9007199254740992)], None)
  ∧ parseInt "9007199254740995" = Num 9007199254740996
  ∧ parseInt "9007199254740997" = Num 9007199254740996
  ∧ Number_value (2 ^ 1024 - 2 ^ 970 - 1) = Num (2 ^ 1024 - 2 ^ 971)
  ∧ Number_value (2 ^ 1024 - 2 ^ 970) = Infinity
  ∧ parseInt (pretty (10 ^ 308)%N) ≠ Infinity
  ∧ parseInt (pretty (10 ^ 309)%N) = Infinity.
Proof. split_and!; vm_compute; done. Qed.

(** A declaration followed on its line by a print that fails: the record
    is in the table when the error ends the run. *)
Example declaration_before_failing_print :
  ∃ r,
    main "var ( = 1 print(y)!" = Some r
    ∧ thrown r = Some (TypeError "type")
    ∧ variables r !! Some "("
      = Some (IVariable.mk IVariable.var_var IVariable.number (Some "1"))
    ∧ length (stdout r) = 2.
Proof. eexists. split_and!; vm_compute; reflexivity. Qed.

Example inherited_name :
  token_stream "var constructor = 1!"
  = [createToken TokenType.Variable_ "var"; inherited "constructor";
     createToken TokenType.AssignOrEqual "="; createToken TokenType.Int "1";
     terminator].
Proof. reflexivity. Qed.


(** * Lexing two texts that read the same *)

Section fuel.
Context (s1 s2 : string) (n : nat).
Context (Hsame : same_prefix s1 s2 n).
Context (Hscan : ∀ i, i < n → scannable (at_pos s1 i) = true).
Context (Hboundary : boundary s1 n).
Context (Hend : at_pos s2 n = NUL).
Implicit Types (t : Tokenizer) (tok : Token) (p q k m : nat).

(** [same_stream], with the fuel that is left for the first text. *)
Lemma same_stream_fuel fuel1 fuel2 t1 t2 :
  on_cursor t1 → on_cursor t2 → input t1 = s1 → input t2 = s2 →
  position t2 = position t1 → position t1 ≤ n →
  lastToken t2 = lastToken t1 →
  n ≤ String.length s1 →
  String.length s1 - position t1 < fuel1 → n - position t1 < fuel2 →
  ∃ fuel' t',
    token_stream_from fuel1 t1
    = token_stream_from fuel2 t2 ++ token_stream_from (S fuel') t'
    ∧ on_cursor t' ∧ input t' = s1 ∧ position t' ≤ n
    ∧ blanks s1 (position t') n
    ∧ lastToken t'
      = last_token (lastToken t1) (token_stream_from fuel2 t2)
    ∧ String.length s1 - position t' < S fuel'.
Proof.
  revert fuel2 t1 t2.
  induction fuel1 as [|fuel1 IH];
    intros [|fuel2] t1 t2 Ht1 Ht2 Hin1 Hin2 Hpos Hp Hlast Hn Hf1 Hf2; [lia..|].
  destruct (same_round s1 s2 n Hsame Hscan Hboundary Hend t1 t2)
    as [Hws|(tok & q & Hq & Hi & Hf & Hget1 & Hget2)]; [done..| |].
  - exists fuel1, t1.
    assert (token_stream_from (S fuel2) t2 = []) as ->.
    { assert (has_type (getNextToken t2).1 TokenType.Eof = true) as HEof.
      { apply (getNextToken_Eof t2 (n - position t1)); [done| |].
        - rewrite Hin2, Hpos. apply blanks_run; [|done|by rewrite Hend].
          intros i Hi. rewrite <-Hsame by lia. by apply Hws.
        - rewrite Hin2, Hpos. by replace (position t1 + (n - position t1)) with n by lia. }
      simpl. destruct (getNextToken t2) as [tok t2']. simpl in HEof.
      by rewrite HEof, orb_true_r. }
    by split_and!.
  - simpl. rewrite Hget1, Hget2, Hi, Hf. simpl.
    destruct (IH fuel2 (set_lastToken tok (cursor_at t1 q))
                (set_lastToken tok (cursor_at t2 q)))
      as (fuel' & t' & Hst & Ht' & Hin' & Hp' & Hws' & Hlast' & Hfuel');
      [done|done|done|done|done|simpl; lia|done|done|simpl; lia|simpl; lia|].
    exists fuel', t'. rewrite Hst, last_token_cons. by split_and!.
Qed.
End fuel.

Section shift.
Implicit Types (t : Tokenizer) (tok : Token) (s : string) (p q k m n d : nat).

Lemma substring_n_0 s n : String.substring n 0 s = EmptyString.
Proof. revert n. induction s as [|c s IH]; intros [|n]; simpl; auto. Qed.

Lemma at_pos_lt s i : at_pos s i ≠ NUL → i < String.length s.
Proof.
  intros Hne. destruct (decide (i < String.length s)) as [|Hge]; [done|].
  rewrite at_pos_ge in Hne by lia. done.
Qed.

(** A stretch of text without NUL is determined by its characters. *)
Lemma substring_shift s1 s2 q1 q2 m :
  (∀ i, i < m → at_pos s1 (q1 + i) = at_pos s2 (q2 + i)
                ∧ at_pos s1 (q1 + i) ≠ NUL) →
  String.substring q1 m s1 = String.substring q2 m s2.
Proof.
  destruct m as [|m]; [by rewrite !substring_n_0|].
  revert s1 s2 q2. induction q1 as [|q1 IH]; intros s1 s2 q2 H.
  - revert s2 H. induction q2 as [|q2 IH2]; intros s2 H.
    + apply substring_from_0. intros i Hi. by apply (H i).
    + destruct s2 as [|c2 s2].
      { destruct (H 0 ltac:(lia)) as [H0 Hn0]. by rewrite H0 in Hn0. }
      simpl. apply IH2. intros i Hi. apply (H i Hi).
  - destruct s1 as [|c1 s1].
    { destruct (H 0 ltac:(lia)) as [H0 Hn0]. done. }
    simpl. apply IH. intros i Hi. apply (H i Hi).
Qed.

Lemma slice_shift s1 s2 q1 q2 m :
  (∀ i, i < m → at_pos s1 (q1 + i) = at_pos s2 (q2 + i)
                ∧ at_pos s1 (q1 + i) ≠ NUL) →
  slice q1 (q1 + m) s1 = slice q2 (q2 + m) s2.
Proof.
  intros H. unfold slice.
  replace (q1 + m - q1) with m by lia. replace (q2 + m - q2) with m by lia.
  by apply substring_shift.
Qed.

Lemma aligned_add s1 s2 n1 n2 d :
  aligned s1 s2 n1 n2 → aligned s1 s2 (n1 + d) (n2 + d).
Proof.
  intros H i. rewrite <-!Nat.add_assoc. apply H.
Qed.

Lemma run_at_aligned cond s1 s2 q1 q2 m :
  aligned s1 s2 q1 q2 → run_at cond s1 q1 m → run_at cond s2 q2 m.
Proof.
  intros Ha [Hall Hend]. split.
  - intros i Hi. rewrite <-Ha. by apply Hall.
  - by rewrite <-Ha.
Qed.

Lemma not_NUL_class (c : ascii) :
  isWhitespace c = true ∨ isLetter c = true ∨ isNumber c = true → c ≠ NUL.
Proof. intros H ->. by destruct H as [?|[?|?]]. Qed.

Lemma number_token_quote last last' digits :
  is_quote last = is_quote last' →
  number_token last digits = number_token last' digits.
Proof. unfold number_token. by intros ->. Qed.

(** One call on each of two aligned texts: the calls return the same
    token and, unless it ends the stream, move both cursors by the same
    distance. *)
Lemma shifted_round t1 t2 n1 n2 :
  on_cursor t1 → on_cursor t2 →
  position t1 ≤ n1 → position t2 ≤ n2 →
  blanks (input t1) (position t1) n1 → blanks (input t2) (position t2) n2 →
  aligned (input t1) (input t2) n1 n2 →
  is_quote (lastToken t1) = is_quote (lastToken t2) →
  ∃ tok,
    (getNextToken t1).1 = tok ∧ (getNextToken t2).1 = tok
    ∧ (has_type tok TokenType.Illegal || has_type tok TokenType.Eof = false →
       ∃ d, 0 < d
         ∧ (getNextToken t1).2 = set_lastToken tok (cursor_at t1 (n1 + d))
         ∧ (getNextToken t2).2 = set_lastToken tok (cursor_at t2 (n2 + d))
         ∧ n1 + d ≤ String.length (input t1)
         ∧ n2 + d ≤ String.length (input t2)).
Proof.
  intros Ht1 Ht2 Hp1 Hp2 Hb1 Hb2 Hal Hlast.
  destruct (getNextToken_cases t1 Ht1) as (k & Hws & Hcases).
  simpl in Hcases.
  set (s1 := input t1) in *. set (s2 := input t2) in *.
  set (p1 := position t1) in *. set (p2 := position t2) in *.
  assert (n1 ≤ p1 + k) as Hk.
  { destruct (decide (n1 ≤ p1 + k)) as [|Hlt]; [done|].
    destruct Hws as [_ Hend].
    assert (p1 ≤ p1 + k < n1) as Hr by lia.
    pose proof (Hb1 (p1 + k) Hr) as Hw. congruence. }
  assert (∃ j, p1 + k = n1 + j) as [j Hj] by (exists (p1 + k - n1); lia).
  rewrite Hj in Hcases.
  assert (run_at isWhitespace s2 p2 (n2 - p2 + j)) as Hws2.
  { destruct Hws as [Hall Hend]. split.
    - intros i Hi. destruct (decide (p2 + i < n2)) as [Hlt|Hge].
      + apply Hb2. lia.
      + replace (p2 + i) with (n2 + (p2 + i - n2)) by lia. rewrite <-Hal.
        specialize (Hall (n1 + (p2 + i - n2) - p1) ltac:(lia)).
        by replace (p1 + (n1 + (p2 + i - n2) - p1)) with (n1 + (p2 + i - n2))
          in Hall by lia.
    - replace (p2 + (n2 - p2 + j)) with (n2 + j) by lia. rewrite <-Hal.
      by replace (n1 + j) with (p1 + k) by lia. }
  pose proof (getNextToken_after_blanks t2 _ Ht2 Hws2) as Hcases2.
  simpl in Hcases2. fold s2 p2 in Hcases2.
  replace (p2 + (n2 - p2 + j)) with (n2 + j) in Hcases2 by lia.
  pose proof (Hal j) as Hc. rewrite <-Hc in Hcases2.
  pose proof (aligned_add _ _ _ _ j Hal) as Hal'.
  set (c := at_pos s1 (n1 + j)) in *.
  destruct (one_class c) as [Hex1 Hex2].
  assert (∀ cond m, run_at cond s1 (n1 + j) m → 0 < m →
            (∀ x, cond x = true → x ≠ NUL) →
            (∀ i, i < m → at_pos s1 (n1 + j + i) = at_pos s2 (n2 + j + i)
                          ∧ at_pos s1 (n1 + j + i) ≠ NUL)
            ∧ n1 + j + m ≤ String.length s1
            ∧ n2 + j + m ≤ String.length s2) as Hruns.
  { intros cond m [Hall _] Hm Hne.
    assert (∀ i, i < m → at_pos s1 (n1 + j + i) ≠ NUL) as Hnn
      by (intros i Hi; by apply Hne, Hall).
    split; [intros i Hi; split; [apply Hal'|by apply Hnn]|].
    pose proof (at_pos_lt _ _ (Hnn (m - 1) ltac:(lia))).
    pose proof (Hnn (m - 1) ltac:(lia)) as H2. rewrite Hal' in H2.
    apply at_pos_lt in H2. lia. }
  destruct Hcases as
    [(Hl & m & Hm & Hrun & Hget)|[(Hd & m & Hm & Hrun & Hget)
    |[(tok & Hs & Hget)|(Hu & Hget)]]].
  - (* a word *)
    destruct (Hex1 Hl) as [Hnd Hns].
    destruct (Hruns isLetter m Hrun Hm) as (Hchars & Hlen1 & Hlen2).
    { intros x Hx. apply not_NUL_class. auto. }
    exists (word_token (slice (n1 + j) (n1 + j + m) s1)).
    split; [by rewrite Hget|].
    destruct Hcases2 as
      [(_ & m2 & _ & Hrun2 & Hget2)|[(Hd2 & _)|[(tok2 & Hs2 & _)|(Hu2 & _)]]];
      [|congruence|congruence
       |apply unrecognized_spec in Hu2 as (_ & ? & _); congruence].
    assert (m2 = m) as ->.
    { destruct Hrun2 as [? ?].
      destruct (run_at_aligned isLetter s1 s2 _ _ m Hal' Hrun) as [? ?].
      by eapply (run_length_unique isLetter). }
    rewrite Hget2, Hget, (slice_shift s1 s2 _ (n2 + j) m) by done.
    split; [done|]. intros _. exists (j + m). simpl.
    rewrite !Nat.add_assoc. split_and!; [lia|done|done|lia|lia].
  - (* a number *)
    pose proof (Hex2 Hd) as Hns.
    destruct (Hruns isNumber m Hrun Hm) as (Hchars & Hlen1 & Hlen2).
    { intros x Hx. apply not_NUL_class. auto. }
    exists (number_token (lastToken t1) (slice (n1 + j) (n1 + j + m) s1)).
    split; [by rewrite Hget|].
    destruct Hcases2 as
      [(Hl2 & _)|[(_ & m2 & _ & Hrun2 & Hget2)|[(tok2 & Hs2 & _)|(Hu2 & _)]]];
      [destruct (Hex1 Hl2); congruence| |congruence
       |apply unrecognized_spec in Hu2 as (_ & _ & ? & _); congruence].
    assert (m2 = m) as ->.
    { destruct Hrun2 as [? ?].
      destruct (run_at_aligned isNumber s1 s2 _ _ m Hal' Hrun) as [? ?].
      by eapply (run_length_unique isNumber). }
    rewrite Hget2, Hget, (slice_shift s1 s2 _ (n2 + j) m) by done.
    rewrite (number_token_quote (lastToken t2) (lastToken t1)) by done.
    split; [done|]. intros _. exists (j + m). simpl.
    rewrite !Nat.add_assoc. split_and!; [lia|done|done|lia|lia].
  - (* a character of the switch *)
    exists tok. split; [by rewrite Hget|].
    destruct Hcases2 as
      [(Hl2 & _)|[(Hd2 & _)|[(tok2 & Hs2 & Hget2)|(Hu2 & _)]]];
      [destruct (Hex1 Hl2); congruence|pose proof (Hex2 Hd2); congruence|
      |apply unrecognized_spec in Hu2 as (_ & _ & _ & ?); congruence].
    assert (tok2 = tok) as -> by congruence.
    rewrite Hget2, Hget. split; [done|].
    destruct (switch_ch_Some _ _ Hs) as (Hi & _ & Hf & _ & _).
    rewrite Hi, Hf. simpl. intros HNUL%Ascii.eqb_neq.
    exists (S j). simpl. rewrite <-!Nat.add_succ_comm. simpl.
    pose proof (at_pos_lt s1 (n1 + j) HNUL).
    fold c in HNUL. rewrite Hc in HNUL. apply at_pos_lt in HNUL.
    split_and!; [lia|done|done|lia|lia].
  - (* an unrecognized character *)
    exists (createToken TokenType.Illegal (String c EmptyString)).
    split; [by rewrite Hget|].
    destruct Hcases2 as
      [(Hl2 & _)|[(Hd2 & _)|[(tok2 & Hs2 & _)|(_ & Hget2)]]];
      [apply unrecognized_spec in Hu as (_ & ? & _); congruence
      |apply unrecognized_spec in Hu as (_ & _ & ? & _); congruence
      |apply unrecognized_spec in Hu as (_ & _ & _ & ?); congruence|].
    rewrite Hget2. split; [done|]. done.
Qed.

(** The token streams of two aligned texts are the same. *)
Lemma shifted_stream fuel1 fuel2 t1 t2 n1 n2 :
  on_cursor t1 → on_cursor t2 →
  position t1 ≤ n1 → position t2 ≤ n2 →
  blanks (input t1) (position t1) n1 → blanks (input t2) (position t2) n2 →
  aligned (input t1) (input t2) n1 n2 →
  is_quote (lastToken t1) = is_quote (lastToken t2) →
  n1 ≤ String.length (input t1) → n2 ≤ String.length (input t2) →
  String.length (input t1) - n1 < fuel1 →
  String.length (input t2) - n2 < fuel2 →
  token_stream_from fuel1 t1 = token_stream_from fuel2 t2.
Proof.
  revert fuel2 t1 t2 n1 n2.
  induction fuel1 as [|fuel1 IH];
    intros [|fuel2] t1 t2 n1 n2 Ht1 Ht2 Hp1 Hp2 Hb1 Hb2 Hal Hlast Hn1 Hn2 Hf1 Hf2;
    [lia..|].
  destruct (shifted_round t1 t2 n1 n2) as (tok & Hg1 & Hg2 & Hnext); [done..|].
  simpl. destruct (getNextToken t1) as [tok1 t1'], (getNextToken t2) as [tok2 t2'].
  simpl in *. subst tok1 tok2.
  destruct (has_type tok TokenType.Illegal || has_type tok TokenType.Eof);
    [done|].
  destruct (Hnext eq_refl) as (d & Hd & -> & -> & Hl1 & Hl2).
  f_equal. apply (IH fuel2 _ _ (n1 + d) (n2 + d)); simpl; try done; try lia.
  - intros i Hi. lia.
  - intros i Hi. lia.
  - by apply aligned_add.
Qed.
End shift.


(** * Lexing a text part by part *)

Section compose.
Implicit Types (t : Tokenizer) (tok last : Token) (s a b pre ws run post : string).

Lemma token_stream_after_initial s :
  token_stream s = token_stream_after (createToken TokenType.Illegal "Illegal") s.
Proof. reflexivity. Qed.

Lemma aligned_app a b : aligned (a +:+ b) b (String.length a) 0.
Proof. intros i. by rewrite at_pos_app_r. Qed.

(** Only whether [lastToken] is a quote matters to the tokens that
    follow. *)
Lemma token_stream_after_quote last last' s :
  is_quote last = is_quote last' →
  token_stream_after last s = token_stream_after last' s.
Proof.
  intros Hq. unfold token_stream_after. rewrite readChar_initial.
  apply (shifted_stream _ _ _ _ 0 0); simpl; try done; try lia.
  - intros i Hi. lia.
  - intros i Hi. lia.
Qed.

Lemma token_stream_after_app last a b :
  all_chars scannable a = true →
  boundary (a +:+ b) (String.length a) →
  token_stream_after last (a +:+ b)
  = token_stream_after last a
    ++ token_stream_after (last_token last (token_stream_after last a)) b.
Proof.
  intros Ha Hb. unfold token_stream_after at 1 2. rewrite !readChar_initial.
  assert (same_prefix (a +:+ b) a (String.length a)) as Hsame
    by (intros i Hi; by apply at_pos_app_l).
  assert (∀ i, i < String.length a →
            scannable (at_pos (a +:+ b) i) = true) as Hscan.
  { intros i Hi. rewrite at_pos_app_l by done. by apply all_chars_at. }
  assert (at_pos a (String.length a) = NUL) as Hend by (by apply at_pos_ge).
  destruct (same_stream_fuel _ _ _ Hsame Hscan Hb Hend
              (String.length (a +:+ b) + 2) (String.length a + 2)
              (set_lastToken last (cursor_at (initial (a +:+ b)) 0))
              (set_lastToken last (cursor_at (initial a) 0)))
    as (fuel' & t' & Hst & Ht' & Hin' & Hp' & Hws' & Hlast' & Hfuel');
    [done|done|done|done|done|simpl; lia|done
    |rewrite string_length_app; lia|simpl; lia|simpl; lia|].
  rewrite Hst. f_equal. simpl in Hlast'.
  fold (token_stream_after last a) in Hlast' |- *.
  unfold token_stream_after. rewrite readChar_initial.
  rewrite string_length_app in Hfuel'.
  apply (shifted_stream _ _ _ _ (String.length a) 0); simpl; try done; try lia.
  all: try rewrite Hin'; try rewrite string_length_app; try lia.
  - by rewrite readChar_initial.
  - done.
  - intros i Hi. lia.
  - apply aligned_app.
  - by rewrite Hlast'.
Qed.

Lemma substring_all s : String.substring 0 (String.length s) s = s.
Proof. induction s as [|c s IH]; simpl; [done|]. by rewrite IH. Qed.

Lemma run_at_all cond s :
  all_chars cond s = true → cond NUL = false →
  run_at cond s 0 (String.length s).
Proof.
  intros Hall HNUL. split.
  - by apply all_chars_at.
  - simpl. by rewrite at_pos_ge.
Qed.

Lemma first_char_class s (cond : ascii → bool) :
  all_chars cond s = true → s ≠ EmptyString → cond (at_pos s 0) = true.
Proof. destruct s as [|c s]; [done|]. simpl. by intros [? _]%andb_true_iff. Qed.

Lemma last_char_class s (cond : ascii → bool) :
  all_chars cond s = true → s ≠ EmptyString →
  cond (at_pos s (String.length s - 1)) = true.
Proof.
  intros Hall Hne. apply all_chars_at; [done|].
  destruct s; [done|]. simpl. lia.
Qed.

(** The second call on a text that the first call has read to its end
    returns [Eof]. *)
Lemma stream_end t fuel :
  on_cursor t → String.length (input t) ≤ position t →
  token_stream_from (S fuel) t = [].
Proof.
  intros Ht Hp.
  assert (has_type (getNextToken t).1 TokenType.Eof = true) as HEof.
  { apply (getNextToken_Eof t 0 Ht).
    - split; [intros i Hi; lia|]. rewrite Nat.add_0_r.
      by rewrite at_pos_ge.
    - rewrite Nat.add_0_r. by apply at_pos_ge. }
  simpl. destruct (getNextToken t) as [tok t']. simpl in HEof.
  by rewrite HEof, orb_true_r.
Qed.

Lemma token_stream_from_S fuel t :
  token_stream_from (S fuel) t
  = let '(tok, t') := getNextToken t in
    if has_type tok TokenType.Illegal || has_type tok TokenType.Eof then []
    else tok :: token_stream_from fuel t'.
Proof. reflexivity. Qed.

Lemma word_alone last run :
  all_chars isLetter run = true → run ≠ EmptyString →
  token_stream_after last run = [word_token run].
Proof.
  intros Hrun Hne. unfold token_stream_after. rewrite readChar_initial.
  set (t := set_lastToken last (cursor_at (initial run) 0)).
  pose proof (first_char_class run isLetter Hrun Hne) as Hfirst.
  destruct (one_class (at_pos run 0)) as [Hex1 _].
  destruct (Hex1 Hfirst) as [Hnd Hns].
  assert (on_cursor t) as Ht by done.
  assert (run_at isWhitespace (input t) (position t) 0) as Hws.
  { split; [intros i Hi; lia|]. simpl.
    destruct (char_classes (at_pos run 0))
      as [(_ & ? & _)|[(? & _)|[(_ & ? & _)|[(_ & ? & _)|(_ & ? & _)%unrecognized_spec]]]];
      congruence. }
  pose proof (getNextToken_after_blanks t 0 Ht Hws) as Hcases.
  simpl in Hcases.
  destruct Hcases as
    [(_ & m & _ & Hm & Hget)|[(? & _)|[(tok' & ? & _)|(Hu & _)]]];
    [|congruence|congruence
     |apply unrecognized_spec in Hu as (_ & ? & _); congruence].
  assert (m = String.length run) as ->.
  { destruct Hm as [? ?].
    destruct (run_at_all isLetter run Hrun eq_refl) as [? ?].
    by eapply (run_length_unique isLetter run 0). }
  unfold slice in Hget. rewrite Nat.sub_0_r, substring_all in Hget.
  destruct (word_token_type run) as (_ & Hi & Hf & _).
  replace (String.length run + 2) with (S (S (String.length run))) by lia.
  rewrite token_stream_from_S, Hget, Hi, Hf. simpl orb. cbv iota.
  f_equal. by apply stream_end.
Qed.

Lemma number_alone last run :
  all_chars isNumber run = true → run ≠ EmptyString →
  token_stream_after last run = [number_token last run].
Proof.
  intros Hrun Hne. unfold token_stream_after. rewrite readChar_initial.
  set (t := set_lastToken last (cursor_at (initial run) 0)).
  pose proof (first_char_class run isNumber Hrun Hne) as Hfirst.
  destruct (one_class (at_pos run 0)) as [Hex1 Hex2].
  pose proof (Hex2 Hfirst) as Hns.
  assert (on_cursor t) as Ht by done.
  assert (run_at isWhitespace (input t) (position t) 0) as Hws.
  { split; [intros i Hi; lia|]. simpl.
    destruct (char_classes (at_pos run 0))
      as [(_ & _ & ? & _)|[(? & _)|[(? & _)|[(? & _)|(? & _)%unrecognized_spec]]]];
      congruence. }
  pose proof (getNextToken_after_blanks t 0 Ht Hws) as Hcases.
  simpl in Hcases.
  destruct Hcases as
    [(Hl & _)|[(_ & m & _ & Hm & Hget)|[(tok' & ? & _)|(Hu & _)]]];
    [destruct (Hex1 Hl); congruence| |congruence
     |apply unrecognized_spec in Hu as (_ & _ & ? & _); congruence].
  assert (m = String.length run) as ->.
  { destruct Hm as [? ?].
    destruct (run_at_all isNumber run Hrun eq_refl) as [? ?].
    by eapply (run_length_unique isNumber run 0). }
  unfold slice in Hget. rewrite Nat.sub_0_r, substring_all in Hget.
  destruct (number_token_type last run) as (_ & Hi & Hf).
  replace (String.length run + 2) with (S (S (String.length run))) by lia.
  rewrite token_stream_from_S, Hget, Hi, Hf. simpl orb. cbv iota.
  f_equal. by apply stream_end.
Qed.

Lemma blanks_alone last ws :
  all_chars isWhitespace ws = true → token_stream_after last ws = [].
Proof.
  intros Hws. unfold token_stream_after. rewrite readChar_initial.
  set (t := set_lastToken last (cursor_at (initial ws) 0)).
  assert (has_type (getNextToken t).1 TokenType.Eof = true) as HEof.
  { apply (getNextToken_Eof t (String.length ws)); [done| |].
    - by apply run_at_all.
    - simpl. by apply at_pos_ge. }
  replace (String.length ws + 2) with (S (S (String.length ws))) by lia.
  simpl. destruct (getNextToken t) as [tok t']. simpl in HEof.
  by rewrite HEof, orb_true_r.
Qed.

Lemma punctuation_alone last (c : ascii) tok :
  switch_ch c = Some tok → c ≠ NUL →
  token_stream_after last (String c EmptyString) = [tok].
Proof.
  intros Hs Hc. unfold token_stream_after. rewrite readChar_initial.
  set (t := set_lastToken last (cursor_at (initial (String c EmptyString)) 0)).
  assert (on_cursor t) as Ht by done.
  assert (run_at isWhitespace (input t) (position t) 0) as Hws.
  { split; [intros i Hi; lia|]. simpl. change (at_pos _ 0) with c.
    destruct (char_classes c)
      as [(_ & _ & _ & ?)|[(? & _)|[(? & _)|[(? & _)|(? & _)%unrecognized_spec]]]];
      congruence. }
  pose proof (getNextToken_after_blanks t 0 Ht Hws) as Hcases.
  simpl in Hcases. change (at_pos _ 0) with c in Hcases.
  destruct (one_class c) as [Hex1 Hex2].
  destruct Hcases as
    [(Hl & _)|[(Hd & _)|[(tok' & Hs' & Hget)|(Hu & _)]]];
    [destruct (Hex1 Hl); congruence|pose proof (Hex2 Hd); congruence|
    |apply unrecognized_spec in Hu as (_ & _ & _ & ?); congruence].
  assert (tok' = tok) as -> by congruence.
  destruct (switch_ch_Some _ _ Hs) as (Hi & _ & Hf & _ & _).
  apply Ascii.eqb_neq in Hc. rewrite Hc in Hf.
  change (String.length (String c EmptyString) + 2) with 3.
  rewrite (token_stream_from_S 2), Hget, Hi, Hf. simpl orb. cbv iota.
  f_equal; by apply stream_end.
Qed.
End compose.

Section streams_and_lines.
Implicit Types (t : Tokenizer) (tok last : Token) (s a b pre ws run post : string).

Lemma lexes_iff s :
  (∃ t, new_Tokenizer s = Some (Ok t))
  ↔ all_chars scannable (before_NUL s) = true.
Proof.
  split; [|apply lines_of_stream].
  intros [t Ht].
  destruct (lexer_outcome s) as [(t' & _ & Hall & _)|(n & _ & _ & _ & Hthrow)];
    [done|congruence].
Qed.

Lemma loc_lines s t :
  new_Tokenizer s = Some (Ok t) → loc t = length (lines t).
Proof.
  intros Hlex.
  destruct (lexer_outcome s) as [(t' & Hlex' & _ & Hloc)|(n & _ & _ & _ & Hthrow)];
    [|congruence].
  assert (t' = t) as -> by congruence.
  destruct (lines_of_stream s) as [_ Hlines].
  destruct (Hlines t Hlex) as (_ & Hlen & _). congruence.
Qed.

(** The fields the constructor fills are determined by the token
    stream. *)
Lemma lines_from_stream s1 s2 t1 t2 :
  new_Tokenizer s1 = Some (Ok t1) → new_Tokenizer s2 = Some (Ok t2) →
  token_stream s1 = token_stream s2 →
  lines t1 = lines t2 ∧ tokens t1 = tokens t2 ∧ loc t1 = loc t2.
Proof.
  intros H1 H2 Hst.
  destruct (lines_of_stream s1) as [_ Hl1], (lines_of_stream s2) as [_ Hl2].
  destruct (Hl1 t1 H1) as (Hno1 & _ & tr1 & Hst1 & Htr1 & Htok1).
  destruct (Hl2 t2 H2) as (Hno2 & _ & tr2 & Hst2 & Htr2 & Htok2).
  rewrite Hst1, Hst2 in Hst.
  destruct (terminated_unique _ _ _ _ Hno1 Hno2 Htr1 Htr2 Hst) as [Hls Htr].
  rewrite (loc_lines s1 t1), (loc_lines s2 t2) by done.
  split_and!; congruence.
Qed.

Lemma scannable_before_NUL a : all_chars scannable a = true → before_NUL a = a.
Proof.
  induction a as [|c a IH]; simpl; [done|].
  intros [Hc Ha]%andb_true_iff.
  apply scannable_not_NUL, Ascii.eqb_neq in Hc. rewrite Hc. by rewrite IH.
Qed.

Lemma before_NUL_app a b :
  all_chars scannable a = true → before_NUL (a +:+ b) = a +:+ before_NUL b.
Proof.
  induction a as [|c a IH]; [done|]. rewrite !app_String. simpl.
  intros [Hc Ha]%andb_true_iff.
  apply scannable_not_NUL, Ascii.eqb_neq in Hc. rewrite Hc. by rewrite IH.
Qed.

Lemma at_pos_app_here a b : at_pos (a +:+ b) (String.length a) = at_pos b 0.
Proof. by rewrite <-(Nat.add_0_r (String.length a)), at_pos_app_r. Qed.

Lemma at_pos_app_before a b :
  0 < String.length a →
  at_pos (a +:+ b) (String.length a - 1) = at_pos a (String.length a - 1).
Proof. intros Ha. apply at_pos_app_l. lia. Qed.

(** A cut before or after a character that is neither a letter nor a
    digit is a boundary. *)
Lemma boundary_after a b :
  (0 < String.length a →
   isLetter (at_pos a (String.length a - 1)) = false
   ∧ isNumber (at_pos a (String.length a - 1)) = false) →
  boundary (a +:+ b) (String.length a).
Proof.
  intros H. split; right; intros Hn; rewrite at_pos_app_before by done;
    by destruct (H Hn).
Qed.

Lemma boundary_before a b :
  isLetter (at_pos b 0) = false → isNumber (at_pos b 0) = false →
  boundary (a +:+ b) (String.length a).
Proof. intros Hl Hn. split; left; by rewrite at_pos_app_here. Qed.

Lemma char_not_word (c : ascii) :
  isWhitespace c = true ∨ is_Some (switch_ch c) →
  isLetter c = false ∧ isNumber c = false.
Proof.
  intros H.
  destruct (char_classes c) as
    [(Hw & Hl & Hn & Hs)|[(Hw & Hl & Hn & Hs)|[(Hw & Hl & Hn & Hs)
    |[(Hw & Hl & Hn & Hs)|(Hw & Hl & Hn & Hs)%unrecognized_spec]]]];
    first [by split | destruct H as [H|[x H]]; congruence].
Qed.


End streams_and_lines.

Section composition.
Implicit Types (t : Tokenizer) (tok last : Token) (s a b pre ws run post : string).

Lemma terminator_alone last : token_stream_after last "!" = [terminator].
Proof. by apply punctuation_alone. Qed.

Lemma stream_across_terminator a b :
  all_chars scannable a = true →
  token_stream (a +:+ "!" +:+ b)
  = token_stream a ++ terminator :: token_stream b.
Proof.
  intros Ha. rewrite (token_stream_after_initial (a +:+ _)).
  rewrite token_stream_after_app; [|done|by apply boundary_before].
  rewrite <-token_stream_after_initial. f_equal.
  rewrite (token_stream_after_app _ "!" b); [|done|by apply boundary_after].
  rewrite terminator_alone. simpl. f_equal.
  by apply token_stream_after_quote.
Qed.



Lemma whitespace_scannable ws :
  all_chars isWhitespace ws = true → all_chars scannable ws = true.
Proof.
  apply all_chars_mono. intros c Hc. unfold scannable. by rewrite Hc.
Qed.

(** X3.  Blanks put between two tokens change no token: whitespace matters
    only where it separates two letters or two digits. *)
Theorem blanks_between_tokens pre ws post :
  all_chars scannable pre = true →
  all_chars isWhitespace ws = true →
  boundary (pre +:+ post) (String.length pre) →
  token_stream (pre +:+ ws +:+ post) = token_stream (pre +:+ post)
  ∧ ∀ t, new_Tokenizer (pre +:+ post) = Some (Ok t) →
      ∃ t', new_Tokenizer (pre +:+ ws +:+ post) = Some (Ok t')
            ∧ lines t' = lines t ∧ tokens t' = tokens t ∧ loc t' = loc t.
Proof.
  intros Hpre Hws Hb.
  assert (token_stream (pre +:+ ws +:+ post) = token_stream (pre +:+ post))
    as Hst.
  { destruct ws as [|c ws]; [reflexivity|].
    assert (isLetter c = false ∧ isNumber c = false) as [Hl Hn].
    { apply char_not_word. left. simpl in Hws.
      by apply andb_true_iff in Hws as [? _]. }
    rewrite (token_stream_after_initial (pre +:+ _ +:+ post)).
    rewrite (token_stream_after_app _ pre (String c ws +:+ post));
      [|done|by apply boundary_before].
    rewrite (token_stream_after_initial (pre +:+ post)).
    rewrite (token_stream_after_app _ pre post) by done.
    f_equal.
    rewrite token_stream_after_app; [|by apply whitespace_scannable|].
    - by rewrite blanks_alone.
    - apply boundary_after. intros _.
      apply char_not_word. left.
      by apply (last_char_class (String c ws) isWhitespace). }
  split; [done|]. intros t Hlex.
  assert (all_chars scannable (before_NUL post) = true) as Hpost.
  { assert (all_chars scannable (before_NUL (pre +:+ post)) = true) as Hall
      by (apply lexes_iff; eauto).
    rewrite before_NUL_app, all_chars_app in Hall by done.
    by apply andb_true_iff in Hall as [_ ?]. }
  destruct (proj2 (lexes_iff (pre +:+ ws +:+ post))) as [t' Hlex'].
  { rewrite (before_NUL_app pre) by done.
    rewrite (before_NUL_app ws) by (by apply whitespace_scannable).
    by rewrite !all_chars_app, Hpre, (whitespace_scannable ws Hws), Hpost. }
  exists t'. split; [done|]. by eapply lines_from_stream.
Qed.

Lemma word_token_not_quote ident : is_quote (word_token ident) = false.
Proof. by destruct (word_token_type ident) as (_ & _ & _ & ?). Qed.

Lemma letters_scannable run :
  all_chars isLetter run = true → all_chars scannable run = true.
Proof.
  apply all_chars_mono. intros c Hc. unfold scannable.
  by rewrite Hc, orb_true_r.
Qed.

Lemma stream_word pre run post :
  all_chars scannable pre = true →
  all_chars isLetter run = true →
  run ≠ EmptyString →
  isLetter (at_pos pre (String.length pre - 1)) = false →
  isLetter (at_pos post 0) = false →
  token_stream (pre +:+ run +:+ post)
  = token_stream pre ++ word_token run :: token_stream post.
Proof.
  intros Hpre Hrun Hne Hleft Hright.
  pose proof (first_char_class run isLetter Hrun Hne) as Hfirst.
  pose proof (last_char_class run isLetter Hrun Hne) as Hlast.
  rewrite (token_stream_after_initial (pre +:+ _)).
  rewrite token_stream_after_app; [|done|].
  2:{ split.
      - right. intros Hn. by rewrite at_pos_app_before.
      - left. rewrite at_pos_app_here.
        destruct run as [|c run]; [done|]. rewrite app_String, at_pos_0.
        by destruct (one_class c) as [[? _] _]. }
  rewrite <-token_stream_after_initial. f_equal.
  rewrite token_stream_after_app; [|by apply letters_scannable|].
  2:{ split.
      - left. by rewrite at_pos_app_here.
      - right. intros Hn. rewrite at_pos_app_before by done.
        by destruct (one_class (at_pos run (String.length run - 1)))
          as [[? _] _]. }
  rewrite word_alone by done. simpl. f_equal.
  unfold last_token. simpl.
  apply token_stream_after_quote. by rewrite word_token_not_quote.
Qed.

Lemma digits_scannable run :
  all_chars isNumber run = true → all_chars scannable run = true.
Proof.
  apply all_chars_mono. intros c Hc. unfold scannable.
  by rewrite Hc, !orb_true_r.
Qed.

Lemma stream_digits pre run post :
  all_chars scannable pre = true →
  all_chars isNumber run = true →
  run ≠ EmptyString →
  isNumber (at_pos pre (String.length pre - 1)) = false →
  isNumber (at_pos post 0) = false →
  let tok := number_token (last_token no_token (token_stream pre)) run in
  token_stream (pre +:+ run +:+ post)
  = token_stream pre ++ tok :: token_stream_after tok post.
Proof.
  intros Hpre Hrun Hne Hleft Hright tok.
  pose proof (first_char_class run isNumber Hrun Hne) as Hfirst.
  pose proof (last_char_class run isNumber Hrun Hne) as Hlast.
  rewrite (token_stream_after_initial (pre +:+ _)).
  rewrite token_stream_after_app; [|done|].
  2:{ split.
      - left. rewrite at_pos_app_here.
        destruct run as [|c run]; [done|]. rewrite app_String, at_pos_0.
        destruct (isLetter c) eqn:Hl; [|done].
        destruct (one_class c) as [Hex _]. destruct (Hex Hl).
        rewrite at_pos_0 in Hfirst. congruence.
      - right. intros Hn. by rewrite at_pos_app_before. }
  rewrite <-token_stream_after_initial. f_equal.
  rewrite token_stream_after_app; [|by apply digits_scannable|].
  2:{ split.
      - right. intros Hn. rewrite at_pos_app_before by done.
        destruct (isLetter (at_pos run (String.length run - 1))) eqn:Hl; [|done].
        destruct (one_class (at_pos run (String.length run - 1))) as [Hex _].
        destruct (Hex Hl). congruence.
      - left. by rewrite at_pos_app_here. }
  rewrite number_alone by done. done.
Qed.



Lemma before_NUL_idem s : before_NUL (before_NUL s) = before_NUL s.
Proof.
  induction s as [|c s IH]; simpl; [done|].
  destruct (Ascii.eqb c NUL) eqn:Hc; [done|]. simpl. by rewrite Hc, IH.
Qed.

Lemma terminators_in_same s1 s2 p len :
  (∀ i, p ≤ i < p + len → at_pos s1 i = at_pos s2 i) →
  terminators_in s1 p len = terminators_in s2 p len.
Proof.
  revert p. induction len as [|len IH]; intros p H; simpl; [done|].
  rewrite (H p) by lia. f_equal. apply IH. intros i Hi. apply H. lia.
Qed.

Lemma token_stream_before_NUL s :
  all_chars scannable (before_NUL s) = true →
  token_stream s = token_stream (before_NUL s).
Proof.
  intros Hall. set (n := String.length (before_NUL s)).
  assert (same_prefix s (before_NUL s) n) as Hsame
    by (intros i Hi; by destruct (before_NUL_at s i Hi)).
  assert (∀ i, i < n → scannable (at_pos s i) = true) as Hscan.
  { intros i Hi. rewrite Hsame by done. by apply all_chars_at. }
  assert (at_pos s n = NUL) as HNUL by apply before_NUL_end.
  assert (n ≤ String.length s) as Hn.
  { destruct (decide (n ≤ String.length s)) as [|Hgt]; [done|].
    destruct (before_NUL_at s (String.length s) ltac:(unfold n in Hgt; lia))
      as [_ Hne]. by rewrite at_pos_ge in Hne. }
  unfold token_stream. rewrite !readChar_initial.
  destruct (same_stream s (before_NUL s) n Hsame Hscan)
    with (fuel1 := String.length s + 2) (fuel2 := n + 2)
         (t1 := cursor_at (initial s) 0)
         (t2 := cursor_at (initial (before_NUL s)) 0)
    as (fuel' & t' & Hst & Ht' & Hin' & Hp' & Hws' & _);
    [apply stop_is_boundary; by rewrite HNUL|by apply at_pos_ge
    |done|done|done|done|done|simpl; lia|done|simpl; lia|simpl; lia|].
  rewrite Hst.
  assert (has_type (getNextToken t').1 TokenType.Eof = true) as HEof.
  { apply (getNextToken_Eof t' (n - position t') Ht').
    - rewrite Hin'. apply blanks_run; [done..|by rewrite HNUL].
    - rewrite Hin'. by replace (position t' + (n - position t')) with n by lia. }
  simpl. destruct (getNextToken t') as [tok t'']. simpl in HEof.
  by rewrite HEof, orb_true_r, app_nil_r.
Qed.

(** X6.  What follows the first NUL character of a script has no effect on
    the run: the lexer takes that character for the end of the input. *)
Theorem text_after_NUL_ignored s : main s = main (before_NUL s).
Proof.
  unfold main.
  destruct (lexer_outcome s)
    as [(t1 & Hlex1 & Hall1 & _)|(n1 & Hn1 & Hscan1 & Hu1 & Hlex1)];
  destruct (lexer_outcome (before_NUL s))
    as [(t2 & Hlex2 & Hall2 & _)|(n2 & Hn2 & Hscan2 & Hu2 & Hlex2)];
  rewrite Hlex1, Hlex2; rewrite ?before_NUL_idem in *.
  - destruct (lines_from_stream _ _ _ _ Hlex1 Hlex2) as (Hls & _);
      [by apply token_stream_before_NUL|].
    unfold interpreter. by rewrite Hls.
  - exfalso. pose proof (proj1 (all_chars_at _ _) Hall1 n2 Hn2) as Hsc.
    apply scannable_spec in Hsc. destruct Hsc; congruence.
  - exfalso. pose proof (proj1 (all_chars_at _ _) Hall2 n1 Hn1) as Hsc.
    destruct (before_NUL_at s n1 Hn1) as [Heq _]. rewrite <-Heq in Hsc.
    apply scannable_spec in Hsc. destruct Hsc; congruence.
  - assert (n1 = n2) as <-.
    { destruct (Nat.lt_trichotomy n1 n2) as [Hlt|[?|Hlt]]; [|done|]; exfalso.
      - pose proof (Hscan2 n1 Hlt) as Hsc.
        destruct (before_NUL_at s n1 Hn1) as [Heq _]. rewrite <-Heq in Hsc.
        apply scannable_spec in Hsc. destruct Hsc; congruence.
      - pose proof (Hscan1 n2 Hlt) as Hsc.
        destruct (before_NUL_at s n2 Hn2) as [Heq _]. rewrite Heq in Hsc.
        apply scannable_spec in Hsc. destruct Hsc; congruence. }
    destruct (before_NUL_at s n1 Hn1) as [Heq _].
    rewrite <-Heq.
    rewrite (terminators_in_same (before_NUL s) s 0 n1); [done|].
    intros i Hi. by destruct (before_NUL_at s i ltac:(lia)) as [-> _].
Qed.
End composition.


(** * What the tokens hold *)

Section spelling.
Implicit Types (t : Tokenizer) (tok last : Token) (s x y : string) (p q k m n : nat).

Lemma string_drop_here s p :
  at_pos s p ≠ NUL →
  string_drop p s = String (at_pos s p) (string_drop (S p) s).
Proof.
  revert s. induction p as [|p IH]; intros [|c s] Hc; try done.
  simpl. rewrite at_pos_S in *. by apply IH.
Qed.

Lemma string_drop_end s p : String.length s ≤ p → string_drop p s = EmptyString.
Proof.
  revert s. induction p as [|p IH]; intros [|c s] Hp; simpl in *; try done; try lia.
  apply IH. lia.
Qed.

Lemma squeeze_cons (c : ascii) s :
  squeeze (String c s)
  = if isWhitespace c then squeeze s else String c (squeeze s).
Proof. reflexivity. Qed.

Lemma squeeze_blanks s p k :
  (∀ i, i < k → isWhitespace (at_pos s (p + i)) = true) →
  squeeze (string_drop p s) = squeeze (string_drop (p + k) s).
Proof.
  revert p. induction k as [|k IH]; intros p Hall.
  - by rewrite Nat.add_0_r.
  - pose proof (Hall 0 ltac:(lia)) as H0. rewrite Nat.add_0_r in H0.
    rewrite string_drop_here by (apply not_NUL_class; auto).
    rewrite squeeze_cons, H0, <-Nat.add_succ_comm. apply IH.
    intros i Hi. rewrite Nat.add_succ_comm. apply Hall. lia.
Qed.

Lemma substring_drop s q m :
  (∀ i, i < m → at_pos s (q + i) ≠ NUL) →
  String.substring q m s +:+ string_drop (q + m) s = string_drop q s.
Proof.
  revert s q. induction m as [|m IH]; intros s q Hall.
  - by rewrite substring_n_0, Nat.add_0_r.
  - pose proof (Hall 0 ltac:(lia)) as H0. rewrite Nat.add_0_r in H0.
    rewrite (string_drop_here s q) by done.
    rewrite <-(IH s (S q)), <-Nat.add_succ_comm.
    2:{ intros i Hi. rewrite Nat.add_succ_comm. apply Hall. lia. }
    rewrite <-app_String. f_equal.
    clear IH Hall. revert s H0. induction q as [|q IHq]; intros [|c s] H0; try done.
    simpl. rewrite at_pos_S in *. by apply IHq.
Qed.

Lemma squeeze_app x y :
  all_chars (λ c, negb (isWhitespace c)) x = true →
  squeeze (x +:+ y) = x +:+ squeeze y.
Proof.
  induction x as [|c x IH]; [done|]. simpl.
  intros [Hc Hx]%andb_true_iff. apply negb_true_iff in Hc.
  by rewrite Hc, IH.
Qed.

Lemma spelling_word ident : spelling (word_token ident) = ident.
Proof.
  unfold word_token, Keywords.
  destruct (String.eqb_spec ident "print") as [->|_]; [done|].
  destruct (String.eqb_spec ident "var") as [->|_]; [done|].
  by destruct (bool_decide _).
Qed.

Lemma spelling_number last digits : spelling (number_token last digits) = digits.
Proof. unfold number_token. by destruct (is_quote last). Qed.

Lemma run_not_blank (cond : ascii → bool) s q m :
  (∀ c, cond c = true → isWhitespace c = false) →
  run_at cond s q m →
  all_chars (λ c, negb (isWhitespace c)) (slice q (q + m) s) = true.
Proof.
  intros Hc Hrun. eapply all_chars_mono; [|by apply run_slice].
  intros c Hcond. simpl. by rewrite (Hc c Hcond).
Qed.

Lemma letter_not_blank (c : ascii) : isLetter c = true → isWhitespace c = false.
Proof.
  intros H. destruct (char_classes c) as
    [(? & ? & _)|[(? & _)|[(? & ? & _)|[(? & ? & _)|(? & ? & _)%unrecognized_spec]]]];
    congruence.
Qed.

Lemma digit_not_blank (c : ascii) : isNumber c = true → isWhitespace c = false.
Proof.
  intros H. destruct (char_classes c) as
    [(? & _ & ? & _)|[(? & _ & ? & _)|[(? & _)|[(? & _ & ? & _)|(? & _ & ? & _)%unrecognized_spec]]]];
    congruence.
Qed.

(** From a cursor with only scannable characters up to the end of the
    text, the tokens spell the rest of the text without its blanks. *)
Lemma stream_spells fuel t :
  on_cursor t → position t ≤ String.length (input t) →
  (∀ i, position t ≤ i < String.length (input t) →
        scannable (at_pos (input t) i) = true) →
  String.length (input t) - position t < fuel →
  spelled (token_stream_from fuel t)
  = squeeze (string_drop (position t) (input t)).
Proof.
  revert t. induction fuel as [|fuel IH]; intros t Ht Hp Hscan Hfuel; [lia|].
  destruct (getNextToken_cases t Ht) as (k & [Hws Hwend] & Hcases).
  simpl in Hcases. rewrite (squeeze_blanks _ _ k Hws).
  remember (input t) as s eqn:Hs. remember (position t + k) as q eqn:Hq.
  assert (∀ cond m, run_at cond s q m → 0 < m →
            (∀ c : ascii, cond c = true → c ≠ NUL) →
            (∀ i, i < m → at_pos s (q + i) ≠ NUL)
            ∧ q + m ≤ String.length s) as Hruns.
  { intros cond m [Hall _] Hm Hne.
    assert (∀ i, i < m → at_pos s (q + i) ≠ NUL) as Hnn
      by (intros i Hi; by apply Hne, Hall).
    split; [done|].
    pose proof (at_pos_lt _ _ (Hnn (m - 1) ltac:(lia))). lia. }
  assert (∀ tok p, q < p → p ≤ String.length s →
            spelled (token_stream_from fuel (set_lastToken tok (cursor_at t p)))
            = squeeze (string_drop p s)) as Hnext.
  { intros tok p Hqp Hple. rewrite IH; simpl; rewrite <-?Hs; [done|done|lia| |lia].
    intros i Hi. apply Hscan. lia. }
  rewrite token_stream_from_S.
  destruct Hcases as
    [(Hl & m & Hm & Hrun & Hget)|[(Hd & m & Hm & Hrun & Hget)
    |[(tok & Hsw & Hget)|(Hu & Hget)]]]; rewrite Hget.
  - destruct (Hruns isLetter m Hrun Hm) as [Hnn Hlen].
    { intros c Hc. apply not_NUL_class. auto. }
    destruct (word_token_type (slice q (q + m) s)) as (_ & -> & -> & _).
    cbn [orb spelled foldr]. fold (spelled (token_stream_from fuel
      (set_lastToken (word_token (slice q (q + m) s)) (cursor_at t (q + m))))).
    rewrite Hnext by lia. rewrite spelling_word.
    rewrite <-(substring_drop s q m Hnn), squeeze_app.
    + unfold slice. by replace (q + m - q) with m by lia.
    + pose proof (run_not_blank isLetter s q m letter_not_blank Hrun) as Hnb.
      unfold slice in Hnb. by replace (q + m - q) with m in Hnb by lia.
  - destruct (Hruns isNumber m Hrun Hm) as [Hnn Hlen].
    { intros c Hc. apply not_NUL_class. auto. }
    destruct (number_token_type (lastToken t) (slice q (q + m) s)) as (_ & -> & ->).
    cbn [orb spelled foldr]. fold (spelled (token_stream_from fuel
      (set_lastToken (number_token (lastToken t) (slice q (q + m) s))
         (cursor_at t (q + m))))).
    rewrite Hnext by lia. rewrite spelling_number.
    rewrite <-(substring_drop s q m Hnn), squeeze_app.
    + unfold slice. by replace (q + m - q) with m by lia.
    + pose proof (run_not_blank isNumber s q m digit_not_blank Hrun) as Hnb.
      unfold slice in Hnb. by replace (q + m - q) with m in Hnb by lia.
  - destruct (switch_ch_Some _ _ Hsw) as (-> & _ & Hf & _ & Htok).
    destruct (Ascii.eqb_spec (at_pos s q) NUL) as [HNUL|HNUL]; rewrite Hf;
      cbn [orb spelled foldr].
    + rewrite string_drop_end; [done|].
      destruct (decide (String.length s ≤ q)) as [|Hlt]; [done|].
      specialize (Hscan q ltac:(lia)). by rewrite HNUL in Hscan.
    + pose proof (at_pos_lt _ _ HNUL) as Hlt.
      fold (spelled (token_stream_from fuel (set_lastToken tok (cursor_at t (S q))))).
      rewrite Hnext by lia.
      rewrite (string_drop_here s q HNUL), squeeze_cons, Hwend.
      destruct (Htok HNUL) as [-> _]. done.
  - exfalso. destruct (decide (String.length s ≤ q)) as [Hge|Hlt].
    + rewrite at_pos_ge in Hu by done. done.
    + specialize (Hscan q ltac:(lia)).
      apply scannable_spec in Hscan. destruct Hscan; congruence.
Qed.
End spelling.

Section shapes.
Implicit Types (t : Tokenizer) (tok last : Token) (s : string) (p q k m n : nat).

Lemma slice_not_empty s q m :
  0 < m → at_pos s q ≠ NUL → slice q (q + m) s ≠ EmptyString.
Proof.
  intros Hm Hc Hempty. apply Hc. unfold slice in Hempty.
  replace (q + m - q) with m in Hempty by lia.
  rewrite <-(Nat.add_0_r q), <-(at_pos_substring s q m 0 Hm). by rewrite Hempty.
Qed.

Lemma word_token_shape ident :
  ident ≠ EmptyString → all_chars isLetter ident = true →
  lexed_token (word_token ident).
Proof.
  intros Hne Hl. unfold word_token. destruct (Keywords ident) as [tok|] eqn:Hk.
  - unfold Keywords in Hk.
    destruct (String.eqb_spec ident "print") as [->|_]; [by injection Hk as <-|].
    destruct (String.eqb_spec ident "var") as [->|_]; [by injection Hk as <-|].
    destruct (bool_decide (ident ∈ objectPrototype)) eqn:Hp; [|done].
    injection Hk as <-. simpl. by apply bool_decide_eq_true in Hp.
  - simpl. auto.
Qed.

Lemma number_token_shape last digits :
  digits ≠ EmptyString → all_chars isNumber digits = true →
  lexed_token (number_token last digits).
Proof. intros Hne Hd. unfold number_token. destruct (is_quote last); simpl; auto. Qed.

Lemma switch_ch_shape (c : ascii) tok :
  switch_ch c = Some tok → has_type tok TokenType.Eof = false →
  lexed_token tok.
Proof.
  unfold switch_ch. repeat case_match; intros; simplify_eq; done.
Qed.

Lemma getNextToken_shape t :
  on_cursor t →
  has_type (getNextToken t).1 TokenType.Illegal = false →
  has_type (getNextToken t).1 TokenType.Eof = false →
  lexed_token (getNextToken t).1.
Proof.
  intros Ht. destruct (getNextToken_cases t Ht) as (k & _ & Hcases).
  simpl in Hcases.
  destruct Hcases as
    [(Hc & m & Hm & Hrun & ->)|[(Hc & m & Hm & Hrun & ->)
    |[(tok & Hs & ->)|(_ & ->)]]]; simpl; intros Hi Hf.
  - apply word_token_shape; [|by apply run_slice].
    apply slice_not_empty; [done|]. apply not_NUL_class. auto.
  - apply number_token_shape; [|by apply run_slice].
    apply slice_not_empty; [done|]. apply not_NUL_class. auto.
  - by eapply switch_ch_shape.
  - done.
Qed.

Lemma token_stream_shape fuel t :
  on_cursor t → Forall lexed_token (token_stream_from fuel t).
Proof.
  revert t. induction fuel as [|fuel IH]; intros t Ht; simpl; [done|].
  pose proof (getNextToken_shape t Ht) as Hp.
  pose proof (getNextToken_on_cursor t Ht) as Ht'.
  destruct (getNextToken t) as [tok t']. simpl in *.
  destruct (has_type tok TokenType.Illegal); [done|].
  destruct (has_type tok TokenType.Eof); [done|]. simpl.
  constructor; [by apply Hp|by apply IH].
Qed.

Lemma stream_group_shape (ls : list (list Token)) (trailing : list Token) :
  Forall lexed_token (terminated ls trailing) →
  Forall (Forall lexed_token) ls ∧ Forall lexed_token trailing.
Proof.
  unfold terminated. intros [Hshape Htrailing]%Forall_app. split; [|done].
  apply Forall_forall. intros line Hline.
  apply Forall_forall. intros tok Htk.
  rewrite Forall_forall in Hshape. apply Hshape.
  apply list_elem_of_In, in_concat. exists (line ++ [terminator]). split.
  - apply (in_map (λ l, l ++ [terminator])). by apply list_elem_of_In.
  - apply list_elem_of_In, elem_of_app. by left.
Qed.

(** The tokens of lexed lines have the shapes of the lexical grammar. *)
Lemma lexed_lines_shape s t :
  new_Tokenizer s = Some (Ok t) → Forall (Forall lexed_token) (lines t).
Proof.
  intros Hlex.
  destruct (lines_of_stream s) as [_ Hlines].
  destruct (Hlines t Hlex) as (_ & _ & trailing & Hst & _ & _).
  assert (Forall lexed_token (token_stream s)) as Hshape.
  { unfold token_stream. rewrite readChar_initial.
    by apply token_stream_shape. }
  rewrite Hst in Hshape. by apply stream_group_shape in Hshape as [? _].
Qed.

(** The state the constructor's loop ends in. *)
Lemma lexer_end s t :
  new_Tokenizer s = Some (Ok t) →
  ∃ t', t = set_lastToken (createToken TokenType.Eof "eof")
              (cursor_at t' (S (String.length (before_NUL s))))
        ∧ input t' = s.
Proof.
  intros Hlex.
  destruct (first_stop s) as (n & Hn & Hall & Hstop).
  destruct (lexer_reaches s n Hn Hall (stop_is_boundary _ _ Hstop))
    as (fuel' & t' & line' & Hgo & Ht' & Hin' & Hp' & Hws' & Hloc').
  assert (n ≤ String.length (before_NUL s)) as Hle.
  { destruct (decide (n ≤ String.length (before_NUL s))) as [|Hgt]; [done|].
    specialize (Hall (String.length (before_NUL s)) ltac:(lia)).
    by rewrite before_NUL_end in Hall. }
  destruct (not_scannable _ Hstop) as [HNUL|Hu].
  - assert (n = String.length (before_NUL s)) as <-.
    { destruct (decide (n = String.length (before_NUL s))) as [|Hne]; [done|].
      by destruct (before_NUL_at s n ltac:(lia)). }
    rewrite Hgo, (round_ends s n) in Hlex by done.
    injection Hlex as <-. eauto.
  - rewrite Hgo, (round_throws s n) in Hlex by done. done.
Qed.

(** A call with the cursor at or past the end of the text returns [Eof]
    and moves the cursor one index further. *)
Lemma getNextToken_past_end t :
  on_cursor t → String.length (input t) ≤ position t →
  getNextToken t
  = (createToken TokenType.Eof "eof",
     set_lastToken (createToken TokenType.Eof "eof")
       (cursor_at t (S (position t)))).
Proof.
  intros Ht Hp.
  assert (run_at isWhitespace (input t) (position t) 0) as Hws.
  { split; [intros i Hi; lia|]. by rewrite Nat.add_0_r, at_pos_ge. }
  pose proof (getNextToken_after_blanks t 0 Ht Hws) as Hcases.
  simpl in Hcases. rewrite Nat.add_0_r, at_pos_ge in Hcases by done.
  by destruct Hcases as
    [(? & _)|[(? & _)|[(tok & [= <-] & ->)|(? & _)]]].
Qed.

Lemma constructor_loop_more fuel extra t line r :
  constructor_loop fuel t line = Some r →
  constructor_loop (fuel + extra) t line = Some r.
Proof.
  revert t line. induction fuel as [|fuel IH]; intros t line; [done|].
  simpl. destruct (getNextToken t) as [tok t'].
  repeat case_match; auto.
Qed.

Lemma while_ch_more cond extra t p :
  cond NUL = false →
  while_ch cond (S (String.length (input t)) + extra) (cursor_at t p)
  = while_ch cond (S (String.length (input t))) (cursor_at t p).
Proof.
  intros HNUL.
  destruct (while_ch_exit cond t p HNUL) as (k & -> & Hall & Hend).
  destruct (while_ch_run cond (S (String.length (input t)) + extra) t p)
    as (k' & Hk' & -> & Hall' & Hend').
  f_equal. f_equal.
  destruct (decide (k' < S (String.length (input t)) + extra)) as [Hlt|Hge].
  - by eapply (run_length_unique cond (input t) p); eauto.
  - destruct (Nat.lt_trichotomy k k') as [Hlt|[?|Hlt]]; [|done|].
    + rewrite Hall' in Hend by done. done.
    + pose proof (Hall k' Hlt) as Hc. rewrite at_pos_ge in Hc by lia. congruence.
Qed.
End shapes.

Section token_facts.
Implicit Types (t : Tokenizer) (tok last : Token) (s : string) (p q k m n : nat).

(** X7.  The lexer loses and invents nothing: the texts the tokens of a
    script without unrecognized character were read from (the literal, or
    the name a member of [Object.prototype] was found under), terminators
    included, put end to end, are the script without its blanks. *)
Theorem tokens_spell_the_text s :
  all_chars scannable s = true →
  spelled (token_stream s) = squeeze s.
Proof.
  intros Hs. unfold token_stream. rewrite readChar_initial.
  rewrite stream_spells; simpl; [done|done|lia| |lia].
  intros i Hi. apply all_chars_at; [done|lia].
Qed.

(** X8.  The tokens the constructor keeps have the shapes of the lexical
    grammar: a keyword with its word as literal, a punctuation mark with its
    character, a non-empty run of letters that is no key of the keyword
    table or a non-empty run of digits as [Ident], a non-empty run of digits
    as [Int], or a member of [Object.prototype]; never an [Illegal], [Eof]
    or terminator token. *)
Theorem kept_tokens_shape s t :
  new_Tokenizer s = Some (Ok t) →
  Forall lexed_token (tokens t) ∧ no_terminator (tokens t)
  ∧ Forall (Forall lexed_token) (lines t).
Proof.
  intros Hlex.
  destruct (lines_of_stream s) as [_ Hlines].
  destruct (Hlines t Hlex) as (Hno & _ & trailing & Hst & Htr & Htok).
  assert (Forall lexed_token (token_stream s)) as Hshape.
  { unfold token_stream. rewrite readChar_initial.
    by apply token_stream_shape. }
  rewrite Hst in Hshape. apply stream_group_shape in Hshape as [Hls Htrailing].
  split_and!; [| |done]; rewrite Htok; apply Forall_app; split; try done.
  - by apply Forall_concat.
  - by apply Forall_concat.
Qed.

(** X9.  The state the constructor leaves: [loc] counts the sealed lines,
    [lastToken] is the [Eof] token, and the cursor is one index behind the
    character taken for the end of the input, the first NUL of the text or
    the index behind its last character. *)
Theorem lexer_final_state s t :
  new_Tokenizer s = Some (Ok t) →
  input t = s ∧ loc t = length (lines t)
  ∧ lastToken t = createToken TokenType.Eof "eof"
  ∧ position t = S (String.length (before_NUL s))
  ∧ readPosition t = S (position t)
  ∧ ch t = at_pos s (position t).
Proof.
  intros Hlex. pose proof (loc_lines s t Hlex) as Hloc.
  destruct (lexer_end s t Hlex) as (t' & -> & Hin). simpl in *.
  by rewrite Hin.
Qed.

(** X10.  Past the end of the text every call of [getNextToken] returns the
    [Eof] token and moves the cursor one index further. *)
Theorem Eof_past_the_end t n :
  on_cursor t → String.length (input t) ≤ position t →
  getNextToken (calls n t)
  = (createToken TokenType.Eof "eof",
     set_lastToken (createToken TokenType.Eof "eof")
       (cursor_at t (S (position t + n)))).
Proof.
  intros Ht Hp. induction n as [|n IH].
  - simpl. rewrite Nat.add_0_r. by apply getNextToken_past_end.
  - unfold calls in *. simpl. rewrite IH. simpl.
    rewrite getNextToken_past_end; [|done|simpl; lia].
    simpl. by rewrite <-Nat.add_succ_comm.
Qed.

(** X11.  An [Illegal] token is not consumed: the call that returns it
    leaves the cursor on the offending character and [lastToken] as it was,
    and the next call returns the same token again. *)
Theorem illegal_token_not_consumed t :
  on_cursor t →
  has_type (getNextToken t).1 TokenType.Illegal = true →
  getNextToken (getNextToken t).2 = getNextToken t
  ∧ lastToken (getNextToken t).2 = lastToken t
  ∧ (getNextToken t).1
    = createToken TokenType.Illegal (String (ch (getNextToken t).2) EmptyString).
Proof.
  intros Ht. destruct (getNextToken_cases t Ht) as (k & _ & Hcases).
  simpl in Hcases.
  destruct Hcases as
    [(_ & m & _ & _ & ->)|[(_ & m & _ & _ & ->)|[(tok & Hs & ->)|(Hu & ->)]]];
    simpl.
  - by destruct (word_token_type (slice (position t + k) (position t + k + m) (input t)))
      as (_ & -> & _).
  - by destruct (number_token_type (lastToken t)
                (slice (position t + k) (position t + k + m) (input t)))
      as (_ & -> & _).
  - by destruct (switch_ch_Some _ _ Hs) as (-> & _).
  - intros _. split; [|done].
    set (q := position t + k) in *.
    assert (run_at isWhitespace (input (cursor_at t q)) (position (cursor_at t q)) 0)
      as Hws.
    { split; [intros i Hi; lia|]. simpl. rewrite Nat.add_0_r.
      by apply unrecognized_spec in Hu as (? & _). }
    pose proof (getNextToken_after_blanks (cursor_at t q) 0 ltac:(done) Hws)
      as Hcases.
    simpl in Hcases. rewrite Nat.add_0_r in Hcases.
    pose proof Hu as Hu'. apply unrecognized_spec in Hu' as (_ & Hl & Hn & Hs).
    destruct Hcases as
      [(? & _)|[(? & _)|[(tok & ? & _)|(_ & ->)]]]; [congruence..|done].
Qed.

(** X12.  [readChar] moves the cursor by one index each time, without bound:
    after [n + 1] calls [position] is [n] indices behind the first
    [readPosition], [ch] is the character there, NUL at and past the end of
    the text, and [peek] is the character one index further. *)
Theorem readChar_steps t n :
  Nat.iter (S n) readChar t
  = set_cursor (readPosition t + n) (readPosition t + n + 1)
      (at_pos (input t) (readPosition t + n)) t
  ∧ peek (Nat.iter (S n) readChar t) = at_pos (input t) (readPosition t + n + 1)
  ∧ (String.length (input t) ≤ readPosition t + n →
     ch (Nat.iter (S n) readChar t) = NUL).
Proof.
  assert (Nat.iter (S n) readChar t
          = set_cursor (readPosition t + n) (readPosition t + n + 1)
              (at_pos (input t) (readPosition t + n)) t) as Heq.
  { induction n as [|n IH].
    - simpl. rewrite readChar_peek, peek_at. by rewrite Nat.add_0_r.
    - change (Nat.iter (S (S n)) readChar t)
        with (readChar (Nat.iter (S n) readChar t)).
      rewrite IH, readChar_peek, peek_at. simpl.
      by replace (readPosition t + n + 1) with (readPosition t + S n) by lia. }
  rewrite Heq. split; [done|]. split.
  - by rewrite peek_at.
  - simpl. apply at_pos_ge.
Qed.

(** X13.  Every character belongs to exactly one class of the lexer: blank,
    letter, digit, case of the [switch], or unrecognized; so the order of
    the tests in [getNextToken] decides nothing, and the token the [switch]
    builds is never dropped for a word or a number. *)
Theorem character_classes (c : ascii) :
  (isWhitespace c = true ∧ isLetter c = false ∧ isNumber c = false
     ∧ switch_ch c = None)
  ∨ (isWhitespace c = false ∧ isLetter c = true ∧ isNumber c = false
     ∧ switch_ch c = None)
  ∨ (isWhitespace c = false ∧ isLetter c = false ∧ isNumber c = true
     ∧ switch_ch c = None)
  ∨ (isWhitespace c = false ∧ isLetter c = false ∧ isNumber c = false
     ∧ ∃ tok, switch_ch c = Some tok
              ∧ (c = NUL ∧ tok = createToken TokenType.Eof "eof"
                 ∨ c ≠ NUL ∧ literal tok = Some (String c EmptyString)))
  ∨ (isWhitespace c = false ∧ isLetter c = false ∧ isNumber c = false
     ∧ switch_ch c = None
     ∧ (getNextToken (cursor_at (initial (String c EmptyString)) 0)).1
       = createToken TokenType.Illegal (String c EmptyString)).
Proof.
  destruct (char_classes c) as
    [H|[H|[H|[(Hw & Hl & Hn & [tok Hs])|Hu]]]]; [tauto..| |].
  - do 3 right. left. split_and!; [done..|]. exists tok. split; [done|].
    destruct (decide (c = NUL)) as [->|Hc].
    + left. split; [done|]. by injection Hs as <-.
    + right. split; [done|].
      destruct (switch_ch_Some _ _ Hs) as (_ & _ & _ & _ & Htok).
      destruct (Htok Hc) as [-> _]. done.
  - do 4 right. pose proof Hu as (Hw & Hl & Hn & Hs)%unrecognized_spec.
    split_and!; [done..|].
    set (t := cursor_at (initial (String c EmptyString)) 0).
    assert (run_at isWhitespace (input t) (position t) 0) as Hws
      by (split; [intros i Hi; lia|done]).
    pose proof (getNextToken_after_blanks t 0 ltac:(done) Hws) as Hcases.
    simpl in Hcases. change (at_pos _ 0) with c in Hcases.
    by destruct Hcases as
      [(? & _)|[(? & _)|[(tok & ? & _)|(_ & ->)]]]; [congruence..|].
Qed.

(** X14.  The loops of the class end on every input: the constructor returns
    or throws, and neither its loop nor the three loops on [ch] would go
    further with more rounds than they are given here. *)
Theorem loops_end s extra :
  (∃ r, new_Tokenizer s = Some r
        ∧ constructor_loop (String.length s + 2 + extra)
            (readChar (initial s)) [] = Some r)
  ∧ ∀ (cond : ascii → bool) t p,
      cond = isWhitespace ∨ cond = isLetter ∨ cond = isNumber →
      while_ch cond (S (String.length (input t)) + extra) (cursor_at t p)
      = while_ch cond (S (String.length (input t))) (cursor_at t p).
Proof.
  split.
  - destruct (new_Tokenizer_terminates s) as [r Hr]. exists r. split; [done|].
    by apply constructor_loop_more.
  - intros cond t p Hcond. apply while_ch_more.
    by destruct Hcond as [->|[->| ->]].
Qed.
End token_facts.


(** * Lines, declarations and the table *)

Section line_effects.
Implicit Types (vars : gmap (option string) IVariable)
  (line rest pre decl pr : list Token) (atual tok name : Token)
  (commands : list Command) (out : list Output) (k : TokenItem)
  (more ls : list (list Token)).

(** X15.  [find] in closed form: the token of rank [index] among those of
    the kind, the last of them when there are fewer, and the default
    [Illegal] token when the line has none; so the result is a token of the
    line of the kind asked for, or the default. *)
Theorem find_by_rank k line index :
  find k line index
  = default (default (createToken TokenType.Illegal "Illegal")
               (last (of_kind k line)))
      (of_kind k line !! index)
  ∧ (of_kind k line = [] →
     find k line index = createToken TokenType.Illegal "Illegal")
  ∧ (of_kind k line ≠ [] →
     find k line index ∈ line ∧ type (find k line index) = Some k).
Proof.
  split; [apply find_rank|]. split.
  - intros Hnone. rewrite find_rank, Hnone. done.
  - intros Hsome. split.
    + rewrite find_rank.
      destruct (of_kind k line !! index) as [tok|] eqn:Hi; simpl.
      * apply list_elem_of_lookup_2 in Hi. by apply of_kind_type in Hi as [_ ?].
      * destruct (last (of_kind k line)) as [tok|] eqn:Hl; simpl.
        -- apply last_Some in Hl as [l' Hl].
           assert (tok ∈ of_kind k line) as Hin by (rewrite Hl; set_solver).
           by apply of_kind_type in Hin as [_ ?].
        -- by apply last_None in Hl.
    + by destruct (find_type k line index) as [[_ ?]|[? _]].
Qed.

(** The scan of a stretch of tokens without [print] keyword: nothing
    happens if it holds no [var] keyword; otherwise the declaration of
    the line is stored, once, however many [var] keywords there are. *)
Lemma scan_declarations vars line pre rest commands :
  of_kind TokenType.Print pre = [] →
  inner_loop vars line (pre ++ rest) commands
  = if decide (of_kind TokenType.Variable_ pre = []) then
      inner_loop vars line rest commands
    else
      match line !! 1 with
      | None => Throw (TypeError "literal")
      | Some name =>
          inner_loop (<[literal name := declared line]> vars) line rest commands
      end.
Proof.
  revert vars. induction pre as [|atual pre IH]; intros vars Hp; [done|].
  apply of_kind_nil_cons in Hp as [Hp Hp'].
  rewrite <-app_comm_cons.
  destruct (decide (type atual = Some TokenType.Variable_)) as [Hv|Hv].
  - rewrite declare_round by done.
    rewrite (decide_False (P := of_kind _ (atual :: pre) = [])).
    2:{ rewrite of_kind_nil_cons. tauto. }
    destruct (line !! 1) as [name|] eqn:Hname; [|done].
    rewrite IH by done. rewrite ?Hname.
    destruct (decide _); [done|]. by rewrite insert_insert_eq.
  - rewrite skip_round, IH by done.
    destruct (decide (of_kind TokenType.Variable_ pre = [])) as [Hn|Hn].
    + rewrite decide_True; [done|]. by apply of_kind_nil_cons.
    + rewrite decide_False; [done|]. rewrite of_kind_nil_cons. tauto.
Qed.

(** X16.  A line with neither [var] nor [print] keyword is passed over: it
    changes no variable, writes nothing and raises no error, whatever its
    tokens. *)
Theorem line_without_statement vars out line more :
  no_statement line →
  inner_loop vars line line [] = Ok (vars, [])
  ∧ interpreter_loop vars out (line :: more) = interpreter_loop vars out more.
Proof.
  intros Hno.
  assert (inner_loop vars line line [] = Ok (vars, [])) as Hscan.
  { rewrite <-(app_nil_r line) at 2. by rewrite scan_prefix. }
  split; [done|]. rewrite interpreter_loop_cons, Hscan. simpl.
  by rewrite app_nil_r.
Qed.

Lemma declaration_scan vars line name :
  declaration_line line name →
  inner_loop vars line line []
  = Ok (<[literal name := declared line]> vars, []).
Proof.
  intros (Hp & Hv & Hname).
  rewrite <-(app_nil_r line) at 2.
  rewrite scan_declarations, decide_False, Hname by done. done.
Qed.

(** X17.  The whole effect of a line that declares and does not print: one
    record is stored under the literal of the token at position 1, however
    many [var] keywords the line holds; nothing is written and the run goes
    on with the next line. *)
Theorem declaration_line_effect vars out line name more :
  declaration_line line name →
  inner_loop vars line line []
  = Ok (<[literal name := declared line]> vars, [])
  ∧ interpreter_loop vars out (line :: more)
    = interpreter_loop (<[literal name := declared line]> vars) out more.
Proof.
  intros Hd. pose proof (declaration_scan vars line name Hd) as Hscan.
  split; [done|]. rewrite interpreter_loop_cons, Hscan. simpl.
  by rewrite app_nil_r.
Qed.

(** X18.  A later declaration of a name replaces the earlier one: after two
    declaring lines with the same key the table is the one the second line
    alone would leave. *)
Theorem redeclaration_overwrites vars out line1 line2 name1 name2 more :
  declaration_line line1 name1 → declaration_line line2 name2 →
  literal name1 = literal name2 →
  interpreter_loop vars out (line1 :: line2 :: more)
  = interpreter_loop vars out (line2 :: more)
  ∧ variables (interpreter_loop vars out [line1; line2]) !! literal name2
    = Some (declared line2).
Proof.
  intros H1 H2 Hkey.
  assert (∀ later, interpreter_loop vars out (line1 :: line2 :: later)
                   = interpreter_loop vars out (line2 :: later)) as Heq.
  { intros later.
    rewrite (interpreter_loop_cons _ _ line1).
    rewrite (declaration_scan vars line1 name1 H1).
    rewrite !(interpreter_loop_cons _ _ line2).
    rewrite !(declaration_scan _ line2 name2 H2).
    simpl. by rewrite Hkey, insert_insert_eq, !app_nil_r. }
  split; [apply Heq|]. rewrite Heq, interpreter_loop_cons.
  rewrite (declaration_scan _ line2 name2 H2). simpl. apply lookup_insert_eq.
Qed.

Lemma declare_print_run vars out decl pr name pre atual rest more :
  declaration_line decl name →
  pr = pre ++ atual :: rest → no_statement pre →
  type atual = Some TokenType.Print →
  of_kind TokenType.Ident pr ≠ [] →
  literal (find TokenType.Ident pr 0) = literal name →
  interpreter_loop vars out (decl :: pr :: more)
  = interpreter_loop (<[literal name := declared decl]> vars)
      (out ++ [logged (declared decl)]) more.
Proof.
  intros Hd -> Hpre Hp Hident Hkey.
  set (pr := pre ++ atual :: rest) in *.
  set (vars' := <[literal name := declared decl]> vars).
  assert (inner_loop vars' pr pr [] = Ok (vars', [console_log (logged (declared decl))]))
    as Hprint.
  { unfold pr at 2. rewrite scan_prefix, print_round by done. fold pr.
    assert (hasVariable vars' pr = true) as ->.
    { apply hasVariable_spec. exists (find TokenType.Ident pr 0). split.
      - rewrite find_rank.
        destruct (of_kind TokenType.Ident pr) as [|tok l] eqn:Hl; [done|].
        assert (tok ∈ of_kind TokenType.Ident pr) as Hin by (rewrite Hl; set_solver).
        apply of_kind_type in Hin as [_ ?]. done.
      - rewrite Hkey. unfold vars'. rewrite lookup_insert_eq. eauto. }
    rewrite Hkey. unfold vars'. by rewrite lookup_insert_eq. }
  rewrite interpreter_loop_cons, (declaration_scan vars decl name Hd).
  fold vars'. rewrite interpreter_loop_cons, Hprint. simpl.
  by rewrite (app_nil_r out).
Qed.

(** X19.  Declaring and then printing: when a declaring line is followed by
    a line whose first keyword is [print] and whose first [Ident] token
    spells the declared key, the second line writes the declared value, the
    number [parseInt] reads for a declaration without quotes and the stored
    text otherwise, and the run goes on.  When the stored text is the
    numeral of [n], the number is the Number value of [n], which is [n]
    itself for [n] up to 2^53. *)
Theorem declare_then_print vars out decl pr name pre atual rest more :
  declaration_line decl name →
  pr = pre ++ atual :: rest → no_statement pre →
  type atual = Some TokenType.Print →
  of_kind TokenType.Ident pr ≠ [] →
  literal (find TokenType.Ident pr 0) = literal name →
  interpreter_loop vars out (decl :: pr :: more)
  = interpreter_loop (<[literal name := declared decl]> vars)
      (out ++ [logged (declared decl)]) more
  ∧ (quoted decl →
     logged (declared decl)
     = LogString (template (literal (find TokenType.Ident decl 1))))
  ∧ (¬ quoted decl →
     logged (declared decl)
     = LogNumber (parseInt (template (literal (find TokenType.Int decl 0)))))
  ∧ (∀ n : N, ¬ quoted decl →
       literal (find TokenType.Int decl 0) = Some (pretty n) →
       logged (declared decl) = LogNumber (Number_value n)
       ∧ ((n ≤ 2 ^ 53)%N → logged (declared decl) = LogNumber (Num n))).
Proof.
  intros Hd Hpr Hpre Hp Hident Hkey. split_and!.
  - by eapply declare_print_run.
  - intros Hq. unfold logged, declared.
    rewrite (decide_True (P := quoted decl)) by done. reflexivity.
  - intros Hq. unfold logged, declared.
    rewrite (decide_False (P := quoted decl)) by done. reflexivity.
  - intros n Hq Hn.
    assert (logged (declared decl) = LogNumber (Number_value n)) as Hlog.
    { unfold logged, declared.
      rewrite (decide_False (P := quoted decl)) by done.
      simpl. rewrite Hn. simpl. by rewrite parseInt_pretty. }
    split; [done|]. intros Hb. by rewrite Hlog, Number_value_exact.
Qed.

(** X20.  The lines of a script run one after the other: running two lists
    of lines in a row is running the second from the table and the output
    the first one leaves, unless the first one raised an error, which ends
    the run; and what was written stays written. *)
Theorem lines_run_in_sequence vars out ls1 ls2 :
  interpreter_loop vars out (ls1 ++ ls2)
  = (let r := interpreter_loop vars out ls1 in
     match thrown r with
     | Some _ => r
     | None => interpreter_loop (variables r) (stdout r) ls2
     end)
  ∧ out `prefix_of` stdout (interpreter_loop vars out ls1).
Proof.
  revert vars out. induction ls1 as [|line ls1 IH]; intros vars out.
  - done.
  - rewrite <-app_comm_cons, !interpreter_loop_cons.
    destruct (inner_loop vars line line []) as [[vars' commands']|e].
    + destruct (IH vars' (out ++ eval commands')) as [-> Hpre].
      split; [done|]. etrans; [|done]. by apply prefix_app_r.
    + done.
Qed.

(** X21.  The shape checker accepts every beginning of a line it accepts,
    the empty line included: it compares what is there and does not ask for
    a complete statement. *)
Theorem verifyTree_prefix line statement n :
  verifyTree line statement = true →
  verifyTree (take n line) statement = true
  ∧ verifyTree [] statement = true.
Proof.
  unfold verifyTree. destruct (treeMap !! statement) as [tree|]; [|done].
  rewrite !verifyTree_from_spec. intros H. split; [|done].
  intros i tok Hi. apply H. rewrite lookup_take_Some in Hi. tauto.
Qed.
End line_effects.

Section table.
Implicit Types (vars : gmap (option string) IVariable)
  (line rest pre : list Token) (atual tok name : Token)
  (commands : list Command) (out : list Output) (k : TokenItem)
  (more ls : list (list Token)).

Lemma leading_digits_Some (text : string) (x : N) :
  is_Some (leading_digits text (Some x)).
Proof.
  revert x. induction text as [|c text IH]; intros x; simpl; [eauto|].
  destruct (isNumber c); eauto.
Qed.

(** [parseInt] reads a number from every non-empty run of digits. *)
Lemma parseInt_digits (text : string) :
  all_chars isNumber text = true → text ≠ EmptyString →
  parseInt text ≠ NaN.
Proof.
  destruct text as [|c text]; [done|]. simpl.
  intros [Hc _]%andb_true_iff _. unfold parseInt. simpl. rewrite Hc.
  destruct (leading_digits_Some text (10 * 0 + (N_of_ascii c - 48))%N) as [n ->].
  apply Number_value_not_NaN.
Qed.

Lemma find_shape k line index :
  Forall lexed_token line →
  find k line index = no_token
  ∨ lexed_token (find k line index) ∧ type (find k line index) = Some k.
Proof.
  intros Hline.
  destruct (decide (of_kind k line = [])) as [Hnone|Hsome].
  - left. by rewrite find_rank, Hnone.
  - right. destruct (find_type k line index) as [[_ ?]|[Hty _]]; [done|].
    split; [|done]. rewrite Forall_forall in Hline. apply Hline.
    rewrite find_rank.
    destruct (of_kind k line !! index) as [tok|] eqn:Hi; simpl.
    + apply list_elem_of_lookup_2 in Hi. by apply of_kind_type in Hi as [_ ?].
    + destruct (last (of_kind k line)) as [tok|] eqn:Hl; simpl.
      * apply last_Some in Hl as [l' Hl].
        assert (tok ∈ of_kind k line) as Hin by (rewrite Hl; set_solver).
        by apply of_kind_type in Hin as [_ ?].
      * by apply last_None in Hl.
Qed.

Lemma declared_shape line :
  Forall lexed_token line → stored_shape (declared line).
Proof.
  intros Hline. unfold declared. destruct (decide (quoted line)) as [Hq|Hq].
  - split; [done|]. simpl.
    destruct (find_shape TokenType.Ident line 1 Hline) as [->|[Hshape Hty]].
    { simpl. auto. }
    destruct (find TokenType.Ident line 1) as [k l|]; [|done].
    simpl in *. injection Hty as ->. right.
    destruct Hshape as [? [[? _]|?]]; auto.
  - split; [done|]. simpl.
    destruct (find_shape TokenType.Int line 0 Hline) as [->|[Hshape Hty]].
    { simpl. auto. }
    destruct (find TokenType.Int line 0) as [k l|]; [|done].
    simpl in *. injection Hty as ->. right.
    by destruct Hshape.
Qed.

Lemma scan_keeps_shape vars line rest commands vars' commands' :
  Forall lexed_token line →
  map_Forall (λ _, stored_shape) vars →
  inner_loop vars line rest commands = Ok (vars', commands') →
  map_Forall (λ _, stored_shape) vars'.
Proof.
  intros Hline. revert vars commands.
  induction rest as [|atual rest IH]; intros vars commands Hvars Hscan.
  - rewrite inner_loop_nil in Hscan. by simplify_eq.
  - destruct (decide (type atual = Some TokenType.Print)) as [Hp|Hp].
    { rewrite print_round in Hscan by done.
      destruct (hasVariable vars line); [destruct (vars !! _)|]; by simplify_eq. }
    destruct (decide (type atual = Some TokenType.Variable_)) as [Hv|Hv].
    + rewrite declare_round in Hscan by done.
      destruct (line !! 1) as [name|]; [|done].
      eapply IH; [|done]. apply map_Forall_insert_2; [|done].
      by apply declared_shape.
    + rewrite skip_round in Hscan by done. by eapply IH.
Qed.

Lemma run_keeps_shape vars out ls :
  Forall (Forall lexed_token) ls →
  map_Forall (λ _, stored_shape) vars →
  map_Forall (λ _, stored_shape) (variables (interpreter_loop vars out ls)).
Proof.
  revert vars out. induction ls as [|line ls IH]; intros vars out Hls Hvars;
    [done|].
  rewrite interpreter_loop_cons.
  apply Forall_cons in Hls as [Hline Hls].
  destruct (inner_loop vars line line []) as [[vars' commands']|e] eqn:Hscan.
  - apply IH; [done|]. by eapply scan_keeps_shape.
  - simpl.
    destruct (for_inner_table vars line line []) as [->|(name & _ & ->)];
      [done|].
    apply map_Forall_insert_2; [|done]. by apply declared_shape.
Qed.

(** X22.  What the table of a run holds, whether the run ends normally or
    with an error: every record has the declaration [var var] and a text as
    value, the word [Illegal] or a run of digits for a number, the word
    [Illegal] or a run of letters or digits for a string; so [parseInt] is
    only ever given the word [Illegal] or a run of digits, and what it
    reads from the value of a number variable is NaN exactly when that
    value is the word [Illegal]. *)
Theorem stored_variables (s : string) (r : Run) :
  main s = Some r →
  ∀ key v, variables r !! key = Some v →
    stored_shape v
    ∧ (IVariable.type v = IVariable.number →
       (parseInt (template (IVariable.value v)) = NaN
        ↔ IVariable.value v = Some "Illegal")).
Proof.
  unfold main. intros Hmain key v Hv.
  destruct (new_Tokenizer s) as [[t|e]|] eqn:Hlex; [|by simplify_eq..].
  injection Hmain as <-.
  assert (stored_shape v) as Hshape.
  { eapply (run_keeps_shape ∅ _ (lines t)); [|apply map_Forall_empty|done].
    by eapply lexed_lines_shape. }
  split; [done|]. intros Hnum.
  destruct Hshape as [_ Hvalue].
  destruct (IVariable.value v) as [text|]; [|done].
  destruct Hvalue as [->|[Hne Hdigits]]; [done|].
  rewrite Hnum in Hdigits. simpl. split.
  - intros HNaN. by apply parseInt_digits in HNaN.
  - intros [= ->]. done.
Qed.

Lemma scan_keeps_keys vars line rest commands vars' commands' key :
  inner_loop vars line rest commands = Ok (vars', commands') →
  is_Some (vars !! key) → is_Some (vars' !! key).
Proof.
  revert vars commands.
  induction rest as [|atual rest IH]; intros vars commands Hscan Hkey.
  - rewrite inner_loop_nil in Hscan. by simplify_eq.
  - destruct (decide (type atual = Some TokenType.Print)) as [Hp|Hp].
    { rewrite print_round in Hscan by done.
      destruct (hasVariable vars line); [destruct (vars !! _)|]; by simplify_eq. }
    destruct (decide (type atual = Some TokenType.Variable_)) as [Hv|Hv].
    + rewrite declare_round in Hscan by done.
      destruct (line !! 1) as [name|]; [|done].
      eapply IH; [done|]. rewrite lookup_insert_is_Some. 
      destruct (decide (literal name = key)); auto.
    + rewrite skip_round in Hscan by done. by eapply IH.
Qed.

(** X23.  No variable is ever removed: a key of the table stays a key for
    the rest of the run. *)
Theorem variables_never_removed vars out ls key :
  is_Some (vars !! key) →
  is_Some (variables (interpreter_loop vars out ls) !! key).
Proof.
  revert vars out. induction ls as [|line ls IH]; intros vars out Hkey;
    [done|].
  rewrite interpreter_loop_cons.
  destruct (inner_loop vars line line []) as [[vars' commands']|e] eqn:Hscan.
  - apply IH. by eapply scan_keeps_keys.
  - simpl.
    destruct (for_inner_table vars line line []) as [->|(name & _ & ->)];
      [done|].
    rewrite lookup_insert_is_Some.
    destruct (decide (literal name = key)); auto.
Qed.

(** X24.  A line changes the table at one key at most: when its scan ends
    normally, the table is as before, or it holds the declaration of the
    line under the literal of the token at position 1. *)
Theorem line_stores_one_record vars line vars' commands' :
  inner_loop vars line line [] = Ok (vars', commands') →
  vars' = vars
  ∨ ∃ name, line !! 1 = Some name
            ∧ of_kind TokenType.Variable_ line ≠ []
            ∧ vars' = <[literal name := declared line]> vars.
Proof.
  intros Hscan.
  destruct (decide (of_kind TokenType.Variable_ line = [])) as [Hv|Hv].
  - left. clear -Hscan Hv.
    assert (∀ rest commands,
      of_kind TokenType.Variable_ rest = [] →
      inner_loop vars line rest commands = Ok (vars', commands') →
      vars' = vars) as Hgen.
    { induction rest as [|atual rest IH]; intros commands Hno Hs.
      - rewrite inner_loop_nil in Hs. by simplify_eq.
      - apply of_kind_nil_cons in Hno as [Hno Hno'].
        destruct (decide (type atual = Some TokenType.Print)) as [Hp|Hp].
        + rewrite print_round in Hs by done.
          destruct (hasVariable vars line);
            [destruct (vars !! literal (find TokenType.Ident line 0))|];
            by simplify_eq.
        + rewrite skip_round in Hs by done. by eapply IH. }
    by eapply Hgen.
  - destruct (line !! 1) as [name|] eqn:Hname.
    + destruct (scan_table _ _ _ _ _ _ _ Hname Hscan) as [->| ->]; eauto.
    + left. destruct line as [|atual [|? ?]]; [done| |done].
      rewrite of_kind_nil_cons in Hv.
      destruct (decide (type atual = Some TokenType.Variable_)) as [Ht|Ht];
        [|tauto].
      by rewrite declare_round in Hscan.
Qed.
End table.


(** * Families of scripts *)

Section scripts.
Implicit Types (t : Tokenizer) (tok : Token) (s name word text digits : string)
  (ls : list (list Token)).

Lemma lines_of_script s ls :
  all_chars scannable s = true →
  Forall no_terminator ls →
  token_stream s = terminated ls [] →
  ∃ t, new_Tokenizer s = Some (Ok t) ∧ lines t = ls.
Proof.
  intros Hs Hls Hst.
  destruct (proj2 (lexes_iff s)) as [t Hlex];
    [by rewrite scannable_before_NUL|].
  exists t. split; [done|].
  destruct (lines_of_stream s) as [_ Hlines].
  destruct (Hlines t Hlex) as (Hno & _ & trailing & Hst' & Htr & _).
  rewrite Hst in Hst'.
  by destruct (terminated_unique _ _ _ _ Hls Hno (Forall_nil_2 _) Htr Hst')
    as [-> _].
Qed.

Lemma printed_of_lines s t :
  new_Tokenizer s = Some (Ok t) →
  printed s
  = Some (drop 2 (stdout (interpreter_loop ∅
                            [LogString "lines"; LogLines (lines t)] (lines t))),
          thrown (interpreter_loop ∅
                    [LogString "lines"; LogLines (lines t)] (lines t))).
Proof. intros Hlex. unfold printed, main. by rewrite Hlex. Qed.

Lemma hasVariable_empty (line : list Token) : hasVariable ∅ line = false.
Proof.
  destruct (hasVariable ∅ line) eqn:Hh; [|done].
  apply hasVariable_spec in Hh as (tok & _ & [v Hv]).
  by rewrite lookup_empty in Hv.
Qed.

Lemma at_pos_last_app (x y : string) :
  y ≠ EmptyString →
  at_pos (x +:+ y) (String.length (x +:+ y) - 1)
  = at_pos y (String.length y - 1).
Proof.
  intros Hy. rewrite string_length_app.
  destruct y as [|c y]; [done|]. simpl String.length.
  replace (String.length x + S (String.length y) - 1)
    with (String.length x + String.length y) by lia.
  rewrite at_pos_app_r. f_equal. lia.
Qed.

Lemma word_token_Ident word :
  Keywords word = None → word_token word = createToken TokenType.Ident word.
Proof. unfold word_token. by intros ->. Qed.

Lemma pretty_N_go_digits (x : N) (acc : string) :
  all_chars isNumber acc = true →
  all_chars isNumber (pretty_N_go x acc) = true.
Proof.
  revert acc. induction (N.lt_wf_0 x) as [x _ IH]. intros acc Hacc.
  destruct (decide (x = 0)%N) as [->|Hx]; [by rewrite pretty_N_go_0|].
  rewrite pretty_N_go_step by lia. apply IH.
  - apply N.div_lt; lia.
  - simpl. rewrite Hacc, andb_true_r.
    by destruct (pretty_N_char_digit (x `mod` 10)%N) as [? _];
      [apply N.mod_upper_bound|].
Qed.

Lemma pretty_N_go_not_empty (x : N) (acc : string) :
  acc ≠ EmptyString → pretty_N_go x acc ≠ EmptyString.
Proof.
  revert acc. induction (N.lt_wf_0 x) as [x _ IH]. intros acc Hacc.
  destruct (decide (x = 0)%N) as [->|Hx]; [by rewrite pretty_N_go_0|].
  rewrite pretty_N_go_step by lia. apply IH; [apply N.div_lt; lia|done].
Qed.

(** The decimal numeral of a natural number is a non-empty run of
    digits. *)
Lemma numeral_digits (n : N) :
  all_chars isNumber (pretty n) = true ∧ pretty n ≠ EmptyString.
Proof.
  unfold pretty, pretty_N. destruct (decide (n = 0)%N) as [->|Hn]; [done|].
  split; [by apply pretty_N_go_digits|].
  rewrite pretty_N_go_step by lia. by apply pretty_N_go_not_empty.
Qed.

(** The tokens of [print('word')!]. *)
Lemma literal_script_lines word :
  all_chars isLetter word = true → word ≠ EmptyString →
  Keywords word = None →
  ∃ t, new_Tokenizer ("print('" +:+ word +:+ "')!") = Some (Ok t)
       ∧ lines t
         = [[createToken TokenType.Print "print";
             createToken TokenType.ParentesesE "(";
             createToken TokenType.SingleQuote "'";
             createToken TokenType.Ident word;
             createToken TokenType.SingleQuote "'";
             createToken TokenType.ParentesesD ")"]].
Proof.
  intros Hword Hne Hk.
  assert ("print('" +:+ word +:+ "')!"
          = ("print('" +:+ word +:+ "')") +:+ "!" +:+ EmptyString) as ->
    by (by rewrite !string_app_assoc).
  assert (all_chars scannable ("print('" +:+ word +:+ "')") = true) as Ha
    by (by rewrite !all_chars_app, (letters_scannable word Hword)).
  apply lines_of_script.
  - by rewrite all_chars_app, Ha.
  - repeat constructor; done.
  - rewrite stream_across_terminator by done.
    rewrite stream_word by done. rewrite word_token_Ident by done.
    reflexivity.
Qed.

(** X26.  Printing a quoted word: the script [print('word')!], for a word of
    letters and underscores that is no key of the keyword table, writes the
    word. *)
Theorem literal_script word :
  all_chars isLetter word = true → word ≠ EmptyString →
  Keywords word = None →
  printed ("print('" +:+ word +:+ "')!") = Some ([LogString word], None).
Proof.
  intros Hword Hne Hk.
  destruct (literal_script_lines word Hword Hne Hk) as (t & Hlex & Hls).
  rewrite (printed_of_lines _ t Hlex), Hls.
  rewrite !interpreter_loop_cons, print_round by done.
  by rewrite hasVariable_empty.
Qed.

Lemma string_app_nil_r (x : string) : x +:+ EmptyString = x.
Proof. induction x as [|c x IH]; [done|]. by rewrite app_String, IH. Qed.

(** The lines of a script of two statements. *)
Lemma two_statement_lines (a b : string) :
  all_chars scannable a = true → all_chars scannable b = true →
  no_terminator (token_stream a) → no_terminator (token_stream b) →
  ∃ t, new_Tokenizer (a +:+ "!" +:+ b +:+ "!") = Some (Ok t)
       ∧ lines t = [token_stream a; token_stream b].
Proof.
  intros Ha Hb Hla Hlb. apply lines_of_script.
  - by rewrite !all_chars_app, Ha, Hb.
  - by repeat constructor.
  - change (b +:+ "!") with (b +:+ "!" +:+ EmptyString).
    rewrite !stream_across_terminator by done.
    unfold terminated. simpl. by rewrite <-!app_assoc.
Qed.

Lemma declaration_tokens name :
  all_chars isLetter name = true → name ≠ EmptyString →
  Keywords name = None →
  all_chars scannable ("var " +:+ name +:+ " = ") = true
  ∧ token_stream ("var " +:+ name +:+ " = ")
    = [createToken TokenType.Variable_ "var";
       createToken TokenType.Ident name;
       createToken TokenType.AssignOrEqual "="].
Proof.
  intros Hname Hne Hk. split.
  - by rewrite !all_chars_app, (letters_scannable name Hname).
  - rewrite stream_word by done. by rewrite word_token_Ident.
Qed.

Lemma print_tokens name :
  all_chars isLetter name = true → name ≠ EmptyString →
  Keywords name = None →
  all_chars scannable (" print(" +:+ name +:+ ")") = true
  ∧ token_stream (" print(" +:+ name +:+ ")")
    = [createToken TokenType.Print "print";
       createToken TokenType.ParentesesE "(";
       createToken TokenType.Ident name;
       createToken TokenType.ParentesesD ")"].
Proof.
  intros Hname Hne Hk. split.
  - by rewrite !all_chars_app, (letters_scannable name Hname).
  - rewrite stream_word by done. by rewrite word_token_Ident.
Qed.

Lemma number_script_run name digits :
  all_chars isLetter name = true → name ≠ EmptyString →
  Keywords name = None →
  all_chars isNumber digits = true → digits ≠ EmptyString →
  printed ("var " +:+ name +:+ " = " +:+ digits +:+ "! print(" +:+ name +:+ ")!")
  = Some ([LogNumber (parseInt digits)], None).
Proof.
  intros Hname Hne Hk Hdigits Hnd.
  destruct (declaration_tokens name Hname Hne Hk) as [Hsd Htd].
  destruct (print_tokens name Hname Hne Hk) as [Hsp Htp].
  set (a := ("var " +:+ name +:+ " = ") +:+ digits +:+ EmptyString).
  set (b := " print(" +:+ name +:+ ")").
  assert ("var " +:+ name +:+ " = " +:+ digits +:+ "! print(" +:+ name +:+ ")!"
          = a +:+ "!" +:+ b +:+ "!") as ->.
  { unfold a, b. by rewrite !string_app_assoc. }
  assert (token_stream a
          = [createToken TokenType.Variable_ "var";
             createToken TokenType.Ident name;
             createToken TokenType.AssignOrEqual "=";
             createToken TokenType.Int digits]) as Hta.
  { unfold a. rewrite stream_digits; [|done|done|done| |done].
    - rewrite Htd. reflexivity.
    - rewrite (at_pos_last_app "var " (name +:+ " = ")) by (by destruct name).
      by rewrite (at_pos_last_app name " = "). }
  destruct (two_statement_lines a b) as (t & Hlex & Hls).
  { unfold a. rewrite (all_chars_app _ ("var " +:+ name +:+ " = ")), Hsd.
    by rewrite all_chars_app, (digits_scannable digits Hdigits). }
  { done. }
  { rewrite Hta. repeat constructor; done. }
  { unfold b. rewrite Htp. repeat constructor; done. }
  rewrite (printed_of_lines _ t Hlex), Hls, Hta. unfold b. rewrite Htp.
  rewrite (declare_print_run _ _ _ _ (createToken TokenType.Ident name) []
             (createToken TokenType.Print "print")
             [createToken TokenType.ParentesesE "(";
              createToken TokenType.Ident name;
              createToken TokenType.ParentesesD ")"]); done.
Qed.

(** X27.  Declaring a number and printing it: for a name of letters and
    underscores that is no key of the keyword table and for a non-empty run
    of digits, the script [var name = digits! print(name)!] writes the
    number [parseInt] reads from the digits, which is not NaN. *)
Theorem number_script name digits :
  all_chars isLetter name = true → name ≠ EmptyString →
  Keywords name = None →
  all_chars isNumber digits = true → digits ≠ EmptyString →
  printed ("var " +:+ name +:+ " = " +:+ digits +:+ "! print(" +:+ name +:+ ")!")
  = Some ([LogNumber (parseInt digits)], None)
  ∧ parseInt digits ≠ NaN.
Proof.
  intros Hname Hne Hk Hdigits Hnd.
  split; [by apply number_script_run|by apply parseInt_digits].
Qed.

(** X28.  The round trip of a number through a script: declared by its
    decimal numeral and printed, a natural number [n] comes out as its
    Number value.  Up to 2^53 that is [n] itself.  Beyond, it is the
    nearest double: a multiple [q * 2^e] with a significand [q] of 53 bits
    (or 2^53), at most half of [2^e] away from [n] and with [q] even when
    exactly half of [2^e] away, or Infinity when that multiple is 2^1024 or
    more. *)
Theorem numeral_round_trip name (n : N) :
  all_chars isLetter name = true → name ≠ EmptyString →
  Keywords name = None →
  printed ("var " +:+ name +:+ " = " +:+ pretty n +:+ "! print(" +:+ name +:+ ")!")
  = Some ([LogNumber (Number_value n)], None)
  ∧ ((n ≤ 2 ^ 53)%N →
     printed ("var " +:+ name +:+ " = " +:+ pretty n +:+ "! print(" +:+ name
              +:+ ")!")
     = Some ([LogNumber (Num n)], None))
  ∧ ((2 ^ 53 < n)%N →
     ∃ q e : N,
       (0 < e ∧ 2 ^ 52 ≤ q ≤ 2 ^ 53
        ∧ Number_value n
          = (if q * 2 ^ e <? 2 ^ 1024 then Num (q * 2 ^ e) else Infinity)
        ∧ 2 * (q * 2 ^ e) ≤ 2 * n + 2 ^ e
        ∧ 2 * n ≤ 2 * (q * 2 ^ e) + 2 ^ e
        ∧ (2 * (q * 2 ^ e) = 2 * n + 2 ^ e ∨ 2 * n = 2 * (q * 2 ^ e) + 2 ^ e →
           N.even q = true))%N).
Proof.
  intros Hname Hne Hk. destruct (numeral_digits n) as [Hd Hnd].
  rewrite number_script_run by done. rewrite parseInt_pretty.
  split; [done|]. split.
  - intros Hb. by rewrite Number_value_exact.
  - apply Number_value_rounds.
Qed.

(** X29.  Declaring a string and printing it: for a name and a text of
    letters and underscores that are no keys of the keyword table, the
    script [var name = 'text'! print(name)!] writes the text. *)
Theorem string_script name text :
  all_chars isLetter name = true → name ≠ EmptyString →
  Keywords name = None →
  all_chars isLetter text = true → text ≠ EmptyString →
  Keywords text = None →
  printed ("var " +:+ name +:+ " = '" +:+ text +:+ "'! print(" +:+ name +:+ ")!")
  = Some ([LogString text], None).
Proof.
  intros Hname Hne Hk Htext Hnt Hkt.
  destruct (print_tokens name Hname Hne Hk) as [Hsp Htp].
  set (a := "var " +:+ name +:+ " = '" +:+ text +:+ "'").
  set (b := " print(" +:+ name +:+ ")").
  assert ("var " +:+ name +:+ " = '" +:+ text +:+ "'! print(" +:+ name +:+ ")!"
          = a +:+ "!" +:+ b +:+ "!") as ->.
  { unfold a, b. by rewrite !string_app_assoc. }
  assert (all_chars scannable ("var " +:+ name +:+ " = '") = true) as Hsd
    by (by rewrite !all_chars_app, (letters_scannable name Hname)).
  assert (token_stream a
          = [createToken TokenType.Variable_ "var";
             createToken TokenType.Ident name;
             createToken TokenType.AssignOrEqual "=";
             createToken TokenType.SingleQuote "'";
             createToken TokenType.Ident text;
             createToken TokenType.SingleQuote "'"]) as Hta.
  { unfold a.
    assert ("var " +:+ name +:+ " = '" +:+ text +:+ "'"
            = ("var " +:+ name +:+ " = '") +:+ text +:+ "'") as ->
      by (by rewrite !string_app_assoc).
    rewrite stream_word; [|done|done|done| |done].
    - rewrite stream_word by done. by rewrite !word_token_Ident.
    - rewrite (at_pos_last_app "var " (name +:+ " = '")) by (by destruct name).
      by rewrite (at_pos_last_app name " = '"). }
  destruct (two_statement_lines a b) as (t & Hlex & Hls).
  { unfold a. by rewrite !all_chars_app, (letters_scannable name Hname),
      (letters_scannable text Htext). }
  { done. }
  { rewrite Hta. repeat constructor; done. }
  { unfold b. rewrite Htp. repeat constructor; done. }
  rewrite (printed_of_lines _ t Hlex), Hls, Hta. unfold b. rewrite Htp.
  rewrite (declare_print_run _ _ _ _ (createToken TokenType.Ident name) []
             (createToken TokenType.Print "print")
             [createToken TokenType.ParentesesE "(";
              createToken TokenType.Ident name;
              createToken TokenType.ParentesesD ")"]); done.
Qed.
End scripts.


Section keyword_scripts.
Implicit Types (t : Tokenizer) (tok : Token) (s name word text digits : string)
  (ls : list (list Token)).

Lemma Keywords_not_Ident word tok :
  Keywords word = Some tok →
  type tok ≠ Some TokenType.Ident ∧ type tok ≠ Some TokenType.EoL.
Proof.
  unfold Keywords. repeat case_match; intros; simplify_eq; done.
Qed.

(** X30.  Printing a quoted key of the keyword table: for [print], [var]
    and the names of the members of [Object.prototype], the script
    [print('word')!] does not write the word: the line has no [Ident]
    token, and what is written is the literal of the default token of
    [find], the word [Illegal]. *)
Theorem keyword_literal_script word tok :
  all_chars isLetter word = true → word ≠ EmptyString →
  Keywords word = Some tok →
  printed ("print('" +:+ word +:+ "')!") = Some ([LogString "Illegal"], None).
Proof.
  intros Hword Hne Hk.
  destruct (Keywords_not_Ident word tok Hk) as [Hident Heol].
  assert ("print('" +:+ word +:+ "')!"
          = ("print('" +:+ word +:+ "')") +:+ "!" +:+ EmptyString) as ->
    by (by rewrite !string_app_assoc).
  assert (all_chars scannable ("print('" +:+ word +:+ "')") = true) as Ha
    by (by rewrite !all_chars_app, (letters_scannable word Hword)).
  set (line := [createToken TokenType.Print "print";
                createToken TokenType.ParentesesE "(";
                createToken TokenType.SingleQuote "'";
                tok;
                createToken TokenType.SingleQuote "'";
                createToken TokenType.ParentesesD ")"]).
  destruct (lines_of_script (("print('" +:+ word +:+ "')") +:+ "!" +:+ EmptyString)
              [line]) as (t & Hlex & Hls).
  - by rewrite all_chars_app, Ha.
  - repeat constructor; done.
  - rewrite stream_across_terminator by done.
    rewrite stream_word by done. unfold word_token. rewrite Hk. reflexivity.
  - rewrite (printed_of_lines _ t Hlex), Hls.
    rewrite !interpreter_loop_cons. unfold line at 2.
    rewrite print_round by done.
    rewrite hasVariable_empty, find_first.
    assert (of_kind TokenType.Ident line = []) as ->.
    { unfold line. rewrite !of_kind_cons. simpl.
      by rewrite (proj2 (has_type_false tok TokenType.Ident) Hident). }
    reflexivity.
Qed.
End keyword_scripts.


(** * Composition, shape and table on concrete inputs *)



Lemma blanks_between_tokens_witness :
  token_stream ("print" +:+ "  " +:+ "(a)!") = token_stream ("print" +:+ "(a)!").
Proof.
  destruct (blanks_between_tokens "print" "  " "(a)!" eq_refl eq_refl)
    as [Hst _]; [split; left; reflexivity|exact Hst].
Defined.



Lemma tokens_spell_the_text_witness :
  spelled (token_stream "var x = 'a'! print ( x ) !")
  = squeeze "var x = 'a'! print ( x ) !".
Proof. exact (tokens_spell_the_text "var x = 'a'! print ( x ) !" eq_refl). Defined.

Lemma kept_tokens_shape_witness :
  ∃ t,
    new_Tokenizer "var x = '12'! print(toString) y" = Some (Ok t)
    ∧ Forall lexed_token (tokens t) ∧ no_terminator (tokens t)
    ∧ Forall (Forall lexed_token) (lines t).
Proof.
  eexists. split; [vm_compute; reflexivity|].
  apply (kept_tokens_shape "var x = '12'! print(toString) y").
  vm_compute. reflexivity.
Defined.

Lemma lexer_final_state_witness :
  ∃ t,
    new_Tokenizer "a! b" = Some (Ok t)
    ∧ input t = "a! b" ∧ loc t = length (lines t)
    ∧ lastToken t = createToken TokenType.Eof "eof"
    ∧ position t = 5
    ∧ readPosition t = S (position t)
    ∧ ch t = at_pos "a! b" (position t).
Proof.
  eexists. split; [vm_compute; reflexivity|].
  apply (lexer_final_state "a! b"). vm_compute. reflexivity.
Defined.

Lemma Eof_past_the_end_witness :
  let t := cursor_at (initial "ab") 2 in
  getNextToken (calls 3 t)
  = (createToken TokenType.Eof "eof",
     set_lastToken (createToken TokenType.Eof "eof") (cursor_at t 6)).
Proof.
  intros t.
  exact (Eof_past_the_end t 3 (conj eq_refl eq_refl) (le_n 2)).
Defined.

Lemma illegal_token_not_consumed_witness :
  let t := cursor_at (initial "a @") 1 in
  getNextToken (getNextToken t).2 = getNextToken t
  ∧ lastToken (getNextToken t).2 = lastToken t
  ∧ (getNextToken t).1
    = createToken TokenType.Illegal (String (ch (getNextToken t).2) EmptyString).
Proof.
  intros t.
  exact (illegal_token_not_consumed t (conj eq_refl eq_refl) eq_refl).
Defined.

Lemma line_without_statement_witness :
  let line := [createToken TokenType.Ident "x";
               createToken TokenType.AssignOrEqual "=";
               createToken TokenType.Int "1"] in
  inner_loop ∅ line line [] = Ok (∅, [])
  ∧ interpreter_loop ∅ [] [line; []] = interpreter_loop ∅ [] [[]].
Proof.
  intros line.
  exact (line_without_statement ∅ [] line [[]] (conj eq_refl eq_refl)).
Defined.

Lemma declaration_line_effect_witness :
  let line := [createToken TokenType.Variable_ "var";
               createToken TokenType.Ident "x";
               createToken TokenType.AssignOrEqual "=";
               createToken TokenType.Variable_ "var";
               createToken TokenType.Int "1"] in
  let name := createToken TokenType.Ident "x" in
  inner_loop ∅ line line []
  = Ok (<[literal name := declared line]> ∅, [])
  ∧ interpreter_loop ∅ [] [line]
    = interpreter_loop (<[literal name := declared line]> ∅) [] [].
Proof.
  intros line name.
  apply (declaration_line_effect ∅ [] line name []).
  split; [reflexivity|]. split; [discriminate|reflexivity].
Defined.

Lemma redeclaration_overwrites_witness :
  let line1 := [createToken TokenType.Variable_ "var";
                createToken TokenType.Ident "x";
                createToken TokenType.AssignOrEqual "=";
                createToken TokenType.Int "1"] in
  let line2 := [createToken TokenType.Variable_ "var";
                createToken TokenType.Ident "x";
                createToken TokenType.AssignOrEqual "=";
                createToken TokenType.SingleQuote "'";
                createToken TokenType.Ident "two";
                createToken TokenType.SingleQuote "'"] in
  interpreter_loop ∅ [] [line1; line2] = interpreter_loop ∅ [] [line2]
  ∧ variables (interpreter_loop ∅ [] [line1; line2]) !! Some "x"
    = Some (declared line2).
Proof.
  intros line1 line2.
  apply (redeclaration_overwrites ∅ [] line1 line2
           (createToken TokenType.Ident "x") (createToken TokenType.Ident "x") []).
  - split; [reflexivity|]. split; [discriminate|reflexivity].
  - split; [reflexivity|]. split; [discriminate|reflexivity].
  - reflexivity.
Defined.

Lemma declare_then_print_witness :
  let decl := [createToken TokenType.Variable_ "var";
               createToken TokenType.Ident "x";
               createToken TokenType.AssignOrEqual "=";
               createToken TokenType.Int "12"] in
  let pr := [createToken TokenType.Print "print";
             createToken TokenType.ParentesesE "(";
             createToken TokenType.Ident "x";
             createToken TokenType.ParentesesD ")"] in
  interpreter_loop ∅ [] [decl; pr]
  = interpreter_loop (<[Some "x" := declared decl]> ∅)
      ([] ++ [logged (declared decl)]) []
  ∧ logged (declared decl) = LogNumber (Num 12).
Proof.
  intros decl pr.
  destruct (declare_then_print ∅ [] decl pr (createToken TokenType.Ident "x") []
              (createToken TokenType.Print "print") (tail pr) [])
    as (Hrun & _ & _ & Hnum).
  - split; [reflexivity|]. split; [discriminate|reflexivity].
  - reflexivity.
  - split; reflexivity.
  - reflexivity.
  - discriminate.
  - reflexivity.
  - split; [exact Hrun|].
    destruct (Hnum 12%N) as [_ Hexact]; [|reflexivity|apply Hexact; lia].
    intros [Hq|Hq]; apply Hq; reflexivity.
Defined.

Lemma verifyTree_prefix_witness :
  let line := [createToken TokenType.Print "print";
               createToken TokenType.ParentesesE "(";
               createToken TokenType.SingleQuote "'";
               createToken TokenType.Ident "a";
               createToken TokenType.SingleQuote "'";
               createToken TokenType.ParentesesD ")"] in
  verifyTree (take 2 line) "print" = true ∧ verifyTree [] "print" = true.
Proof.
  intros line.
  apply (verifyTree_prefix line "print" 2). vm_compute. reflexivity.
Defined.

Lemma stored_variables_witness :
  ∃ r v,
    main "var x = y! var ( = 1 print(z)!" = Some r
    ∧ thrown r = Some (TypeError "type")
    ∧ variables r !! Some "(" = Some v
    ∧ stored_shape v
    ∧ (IVariable.type v = IVariable.number →
       (parseInt (template (IVariable.value v)) = NaN
        ↔ IVariable.value v = Some "Illegal")).
Proof.
  eexists _, _. split; [vm_compute; reflexivity|].
  split; [vm_compute; reflexivity|].
  split; [vm_compute; reflexivity|].
  refine (stored_variables "var x = y! var ( = 1 print(z)!" _ _ (Some "(") _ _);
    vm_compute; reflexivity.
Defined.

Lemma variables_never_removed_witness :
  let v := IVariable.mk IVariable.var_var IVariable.number (Some "1") in
  let line := [createToken TokenType.Variable_ "var";
               createToken TokenType.Ident "y";
               createToken TokenType.AssignOrEqual "=";
               createToken TokenType.Int "2"] in
  is_Some (variables (interpreter_loop {[ Some "x" := v ]} [] [line; line])
             !! Some "x").
Proof.
  intros v line.
  apply (variables_never_removed {[ Some "x" := v ]} [] [line; line] (Some "x")).
  exists v. vm_compute. reflexivity.
Defined.

Lemma line_stores_one_record_witness :
  let line := [createToken TokenType.Variable_ "var";
               createToken TokenType.Ident "x";
               createToken TokenType.AssignOrEqual "=";
               createToken TokenType.Int "1"] in
  ∃ vars',
    inner_loop ∅ line line [] = Ok (vars', [])
    ∧ (vars' = ∅
       ∨ ∃ name, line !! 1 = Some name
                 ∧ of_kind TokenType.Variable_ line ≠ []
                 ∧ vars' = <[literal name := declared line]> ∅).
Proof.
  intros line. eexists. split; [vm_compute; reflexivity|].
  apply (line_stores_one_record ∅ line _ []). vm_compute. reflexivity.
Defined.

Lemma commands_are_plain_witness :
  ∃ r,
    main "var x = 'a'! print(x)! print('b')!" = Some r
    ∧ Forall (λ o, plain_command (console_log o)) (stdout r).
Proof.
  eexists. split; [vm_compute; reflexivity|].
  apply (commands_are_plain "var x = 'a'! print(x)! print('b')!").
  vm_compute. reflexivity.
Defined.

Lemma literal_script_witness :
  printed ("print('" +:+ "hello_world" +:+ "')!")
  = Some ([LogString "hello_world"], None).
Proof.
  exact (literal_script "hello_world" eq_refl ltac:(discriminate) eq_refl).
Defined.

Lemma number_script_witness :
  printed ("var " +:+ "count" +:+ " = " +:+ "007" +:+ "! print(" +:+ "count" +:+ ")!")
  = Some ([LogNumber (parseInt "007")], None)
  ∧ parseInt "007" ≠ NaN.
Proof.
  exact (number_script "count" "007" eq_refl ltac:(discriminate) eq_refl
           eq_refl ltac:(discriminate)).
Defined.

Lemma numeral_round_trip_witness :
  printed ("var " +:+ "x" +:+ " = " +:+ pretty 1234%N +:+ "! print(" +:+ "x" +:+ ")!")
  = Some ([LogNumber (Num 1234)], None).
Proof.
  destruct (numeral_round_trip "x" 1234%N eq_refl ltac:(discriminate) eq_refl)
    as (_ & Hexact & _).
  apply Hexact. discriminate.
Defined.

Lemma string_script_witness :
  printed ("var " +:+ "x" +:+ " = '" +:+ "hi" +:+ "'! print(" +:+ "x" +:+ ")!")
  = Some ([LogString "hi"], None).
Proof.
  exact (string_script "x" "hi" eq_refl ltac:(discriminate) eq_refl
           eq_refl ltac:(discriminate) eq_refl).
Defined.

Lemma keyword_literal_script_witness :
  printed ("print('" +:+ "toString" +:+ "')!")
  = Some ([LogString "Illegal"], None).
Proof.
  exact (keyword_literal_script "toString" (inherited "toString") eq_refl
           ltac:(discriminate) eq_refl).
Defined.
